(** * viet-listener: segmentation, translation cache and frequency merge

    A shallow embedding of [server.ts] (translation cache, prompt and bulk
    translation clients, greedy and optimal segmenters, request handler) and
    of the vocabulary part of [ProcessAudio.ts] (greedy segmenter, frequency
    merge, vocabulary of a run, rows of the study sheet, clip labels),
    followed by the properties stated for them.

    Conventions of the embedding:
    - a JS string is the list of its UTF-16 code units ([jsstring]);
    - a JS number that is read from a file and added to (a count of the
      frequency table) is an IEEE 754 double: [spec_float] of the Standard
      Library, with its operations at precision 53 and exponent bound 1024;
      the scores of spans and the counts of one run, integers that the
      program makes itself by small sums, are in [Z];
    - a JS object or [Map] used as a dictionary is a [gmap];
    - an array indexed by position is a list read with [!!] and written
      with [<[i:=x]>]; a hole of [new Array(n)] and the value [undefined]
      are [None];
    - module-level mutable state ([dictionary], [translationCache]) and the
      record of requests sent over the network are threaded explicitly;
      a thrown exception leaves the state as it was when it was thrown;
    - [String.prototype.toLowerCase] and the two remote services are
      parameters of the development. *)

From Stdlib Require Import ZArith Lia.
From Stdlib Require Ascii String SpecFloat.
From stdpp Require Import base option list sorting gmap fin_maps.

Import String.StringSyntax.
Local Open Scope string_scope.
Local Open Scope Z_scope.
Local Open Scope nat_scope.

(** ** JS strings *)

Module JS.

Definition jsstring : Type := list N.

(** Code units of an ASCII literal, used to write concrete inputs. *)
Definition js (s : String.string) : jsstring :=
  List.map Ascii.N_of_ascii (String.list_ascii_of_string s).

Definition SPACE : N := 32%N.
Definition NEWLINE : N := 10%N.
Definition COMMA : N := 44%N.
Definition COLON : N := 58%N.
Definition DOT : N := 46%N.

(** [WhiteSpace] and [LineTerminator] of ECMAScript: the code units removed
    by [trim] and matched by the regular expression class [\s]. *)
Definition isWhiteSpace (c : N) : bool :=
  ((9 <=? c) && (c <=? 13) || (c =? 32) || (c =? 160) || (c =? 5760)
   || (8192 <=? c) && (c <=? 8202) || (c =? 8232) || (c =? 8233)
   || (c =? 8239) || (c =? 8287) || (c =? 12288) || (c =? 65279))%N.

(** The class [\d]. *)
Definition isDigit (c : N) : bool := ((48 <=? c) && (c <=? 57))%N.

Fixpoint trimStart (s : jsstring) : jsstring :=
  match s with
  | c :: s' => if isWhiteSpace c then trimStart s' else s
  | [] => []
  end.

Definition trimEnd (s : jsstring) : jsstring := reverse (trimStart (reverse s)).

Definition trim (s : jsstring) : jsstring := trimEnd (trimStart s).

(** [s.split(sep)] for a one code unit separator. *)
Fixpoint splitOn (sep : N) (s : jsstring) : list jsstring :=
  match s with
  | [] => [[]]
  | c :: s' =>
      if (c =? sep)%N then [] :: splitOn sep s'
      else match splitOn sep s' with
           | w :: ws => (c :: w) :: ws
           | [] => [[c]]
           end
  end.

(** [parts.join(sep)]. *)
Fixpoint joinWith (sep : jsstring) (parts : list jsstring) : jsstring :=
  match parts with
  | [] => []
  | [p] => p
  | p :: ps => p ++ sep ++ joinWith sep ps
  end.

(** [a.slice(i, j)] on an array, for [i <= j]. *)
Definition slice {A} (i j : nat) (a : list A) : list A := take (j - i) (drop i a).

(** Truthiness of a string value that may be [undefined]. *)
Definition truthy (v : option jsstring) : option jsstring :=
  match v with
  | Some (c :: s) => Some (c :: s)
  | _ => None
  end.

(** [a || b] on such values. *)
Definition orElse (a b : option jsstring) : option jsstring :=
  match truthy a with
  | Some v => Some v
  | None => b
  end.

End JS.
Export JS.

(** ** Normalizer *)

(** The punctuation class of both segmenters: full stop, comma, exclamation
    and question marks, semicolon, colon, double and single quote, round,
    square and curly brackets. *)
Definition isPunct (c : N) : bool :=
  ((c =? 46) || (c =? 44) || (c =? 33) || (c =? 63) || (c =? 59) || (c =? 58)
   || (c =? 34) || (c =? 39) || (c =? 40) || (c =? 41) || (c =? 91)
   || (c =? 93) || (c =? 123) || (c =? 125))%N.

(** The first [replace]: each punctuation mark becomes a space. *)
Definition replacePunct (s : jsstring) : jsstring :=
  List.map (fun c => if isPunct c then SPACE else c) s.

(** The second [replace], with [\s+] and the global flag: every maximal run
    of white space becomes one space. [inRun] tells that the previous code
    unit was white space. *)
Fixpoint collapseFrom (inRun : bool) (s : jsstring) : jsstring :=
  match s with
  | [] => []
  | c :: s' =>
      if isWhiteSpace c
      then (if inRun then collapseFrom true s' else SPACE :: collapseFrom true s')
      else c :: collapseFrom false s'
  end.

Definition collapseSpaces (s : jsstring) : jsstring := collapseFrom false s.

(** [cleaned.split(' ').filter(s => s.length > 0)] after the two replaces. *)
Definition syllablesOf (text : jsstring) : list jsstring :=
  List.filter (fun s => negb (Nat.eqb (length s) 0))
    (splitOn SPACE (collapseSpaces (replacePunct (trim text)))).

(** ** Lexicon *)

Section Segmenters.

(** [String.prototype.toLowerCase]. *)
Variable toLowerCase : jsstring -> jsstring.

(** The test [dictionary[lower] || dictionary[phrase]]: an entry counts when
    its value is a non-empty string. [dictionary] is a plain object: a key
    that names a member every object inherits from [Object.prototype], and
    that is not an entry of the dictionary, finds that member, which is
    truthy and is not a string. The model has the entries only: it is the
    code for the phrases of which [ownLookup] holds, and the statements
    that depend on the lookup of a single word are made for these. A
    phrase of two syllables or more has a space and names no such member. *)
Definition dictLookup (dictionary : gmap jsstring jsstring) (phrase : jsstring)
  : option jsstring :=
  orElse (dictionary !! toLowerCase phrase) (truthy (dictionary !! phrase)).



(** [syllables.slice(i, i + len).join(' ')] *)
Definition phraseAt (syllables : list jsstring) (i len : nat) : jsstring :=
  joinWith [SPACE] (slice i (i + len) syllables).

(** ** Greedy segmenter ([segmentVietnamese], the same text in both files) *)

(** The inner loop [for (len = ...; len > 1; len--)]: the first, that is
    the longest, length with a Lexicon entry. *)
Fixpoint longestMatch (dictionary : gmap jsstring jsstring)
    (syllables : list jsstring) (i len : nat) : option nat :=
  match len with
  | 0 => None
  | S len' =>
      if 1 <? len then
        match dictLookup dictionary (phraseAt syllables i len) with
        | Some _ => Some len
        | None => longestMatch dictionary syllables i len'
        end
      else None
  end.

(** The loop [while (i < syllables.length)]; [fuel] bounds the number of
    iterations, and [length syllables - i] is always enough. *)
Fixpoint greedyFrom (fuel : nat) (dictionary : gmap jsstring jsstring)
    (syllables : list jsstring) (i : nat) (words : list jsstring)
  : list jsstring :=
  match fuel with
  | 0 => words
  | S fuel' =>
      if i <? length syllables then
        match longestMatch dictionary syllables i
                (Nat.min 4 (length syllables - i)) with
        | Some len =>
            greedyFrom fuel' dictionary syllables (i + len)
              (words ++ [phraseAt syllables i len])
        | None =>
            greedyFrom fuel' dictionary syllables (i + 1)
              (words ++ [default [] (syllables !! i)])
        end
      else words
  end.

Definition segmentSyllables (dictionary : gmap jsstring jsstring)
    (syllables : list jsstring) : list jsstring :=
  greedyFrom (length syllables) dictionary syllables 0 [].

Definition segmentVietnamese (dictionary : gmap jsstring jsstring)
    (text : jsstring) : list jsstring :=
  segmentSyllables dictionary (syllablesOf text).


(** ** State, exceptions and the remote services *)

Inductive Exn : Type :=
  | ApiError      (* a request failed: the [throw new Error] after a response
                     with [!res.ok], or what [fetch] or [res.json()] reject
                     with; the message is not modelled *)
  | NoApiKey      (* [throw new Error('No translation API key set')] *)
  | TypeError     (* a property read on [undefined] or [null], in the steps
                     of the segmenter *)
  | OutOfFuel.    (* not an exception of the program: the bound the model
                     puts on a [while] loop was reached *)

Inductive Result (A : Type) : Type :=
  | Ok (a : A)
  | Throw (e : Exn).
Arguments Ok {A} a.
Arguments Throw {A} e.

(** One [fetch]: the backend, the language pair and the batch it carries. *)
Inductive Request : Type :=
  | GeminiRequest (source target : jsstring) (batch : list jsstring)
  | GoogleRequest (source target : jsstring) (batch : list jsstring).

Definition requestBatch (r : Request) : list jsstring :=
  match r with
  | GeminiRequest _ _ batch => batch
  | GoogleRequest _ _ batch => batch
  end.

(** The module-level state of [server.ts] and the requests sent so far. *)
Record World : Type := mkWorld {
  dictionary : gmap jsstring jsstring;
  translationCache : gmap jsstring jsstring;
  sent : list Request
}.

Definition setDictionary (w : World) (d : gmap jsstring jsstring) : World :=
  mkWorld d (translationCache w) (sent w).
Definition setCache (w : World) (c : gmap jsstring jsstring) : World :=
  mkWorld (dictionary w) c (sent w).
Definition logRequest (w : World) (r : Request) : World :=
  mkWorld (dictionary w) (translationCache w) (sent w ++ [r]).

(** Computations that read and write the state and may throw. *)
Definition M (A : Type) : Type := World -> Result A * World.

Definition ret {A} (a : A) : M A := fun w => (Ok a, w).
Definition throw {A} (e : Exn) : M A := fun w => (Throw e, w).
Definition bind {A B} (c : M A) (k : A -> M B) : M B :=
  fun w => match c w with
           | (Ok a, w') => k a w'
           | (Throw e, w') => (Throw e, w')
           end.

Notation "'let!' x ':=' c 'in' k" := (bind c (fun x => k))
  (at level 10, x name, c at level 100, k at level 200).

(** The keys of the environment: an unset key is the empty string. *)
Record Config : Type := mkConfig {
  GOOGLE_API_KEY : jsstring;
  GEMINI_API_KEY : jsstring
}.

Definition isSet (key : jsstring) : bool := negb (Nat.eqb (length key) 0).

(** [const API_KEY = GOOGLE_API_KEY || GEMINI_API_KEY] *)
Definition API_KEY (cfg : Config) : jsstring :=
  if isSet (GOOGLE_API_KEY cfg) then GOOGLE_API_KEY cfg else GEMINI_API_KEY cfg.

(** ** Translation cache and the two clients *)

(** The template [`${source}:${target}:${text}`]. *)
Definition cacheKey (source target text : jsstring) : jsstring :=
  source ++ [COLON] ++ target ++ [COLON] ++ text.

(** [translationCache.get(cacheKey)] followed by the test [if (cached)]. *)
Definition cacheHit (cache : gmap jsstring jsstring)
    (source target text : jsstring) : option jsstring :=
  truthy (cache !! cacheKey source target text).

(** The three arrays filled by the first loop of either client. *)
Record Scan : Type := mkScan {
  results : list (option jsstring);
  uncachedTexts : list jsstring;
  uncachedIndices : list nat
}.

(** [for (let i = 0; i < texts.length; i++)], reading [texts[i]]. *)
Fixpoint scanCache (cache : gmap jsstring jsstring) (source target : jsstring)
    (i : nat) (texts : list jsstring) (sc : Scan) : Scan :=
  match texts with
  | [] => sc
  | text :: texts' =>
      scanCache cache source target (S i) texts'
        match cacheHit cache source target text with
        | Some cached =>
            mkScan (<[i := Some cached]> (results sc))
                   (uncachedTexts sc) (uncachedIndices sc)
        | None =>
            mkScan (results sc) (uncachedTexts sc ++ [text])
                   (uncachedIndices sc ++ [i])
        end
  end.

Definition scanTexts (cache : gmap jsstring jsstring) (source target : jsstring)
    (texts : list jsstring) : Scan :=
  scanCache cache source target 0 texts
    (mkScan (replicate (length texts) None) [] []).

(** The values of [b] in [for (let b = 0; b < len; b += size)]. *)
Definition batchStarts (size len : nat) : list nat :=
  List.map (fun k => k * size) (seq 0 ((len + size - 1) / size)).

(** [text.split('\n').filter(l => l.trim())] *)
Definition responseLines (text : jsstring) : list jsstring :=
  List.filter (fun l => negb (Nat.eqb (length (trim l)) 0)) (splitOn NEWLINE text).

(** [.replace(/^\d+\.\s*/, '')]: a leading run of digits, a full stop and
    the white space after it are removed; a line that does not start so is
    left as it is. *)
Fixpoint dropDigits (s : jsstring) : jsstring :=
  match s with
  | c :: s' => if isDigit c then dropDigits s' else s
  | [] => []
  end.

Definition stripNumber (line : jsstring) : jsstring :=
  match line with
  | c :: _ =>
      if isDigit c then
        match dropDigits line with
        | d :: rest => if (d =? DOT)%N then trimStart rest else line
        | [] => line
        end
      else line
  | [] => line
  end.

(** [lines[j]?.replace(/^\d+\.\s*/, '').trim() || batch[j]] *)
Definition parseLine (line : option jsstring) (text : jsstring) : jsstring :=
  match line with
  | Some l =>
      match trim (stripNumber l) with
      | [] => text
      | translated => translated
      end
  | None => text
  end.

Section Clients.

Variable cfg : Config.

(** The prompt service: the answer to the request sent after [n] earlier
    ones, for a language pair and a batch. [None] is a request that fails:
    [fetch] rejects, the response has [!res.ok], [res.json()] rejects, or
    the text cannot be read from the body ([null] for a body, a text that
    is not a string); in each case the exception leaves the loop before
    anything of the batch is stored. [Some text] is the text of the first
    candidate (the empty string when the response has none). *)
Variable geminiService : nat -> jsstring -> jsstring -> list jsstring -> option jsstring.

(** The bulk service: [None] is a request that fails in the same ways (for
    the body: one without [data.translations]), before anything of the
    batch is stored. [Some ts] is a body of the type the code declares for
    it, [data.translations] being an array of objects with a string
    [translatedText]: [ts] are these strings, in order. The statements
    about the bulk client are for such bodies. *)
Variable googleService : nat -> jsstring -> jsstring -> list jsstring -> option (list jsstring).

(** The loop [for (let j = 0; j < batch.length; j++)] of [geminiTranslate],
    reading [batch[j]]. *)
Fixpoint geminiStore (source target : jsstring) (uncachedIndices : list nat)
    (lines : list jsstring) (b j : nat) (batch : list jsstring)
    (results : list (option jsstring)) (cache : gmap jsstring jsstring)
  : list (option jsstring) * gmap jsstring jsstring :=
  match batch with
  | [] => (results, cache)
  | text :: batch' =>
      let translated := parseLine (lines !! j) text in
      let globalIdx := b + j in
      let results' :=
        match uncachedIndices !! globalIdx with
        | Some originalIdx => <[originalIdx := Some translated]> results
        | None => results
        end in
      geminiStore source target uncachedIndices lines b (S j) batch' results'
        (<[cacheKey source target text := translated]> cache)
  end.

(** The loop [for (let b = 0; b < uncachedTexts.length; b += batchSize)]. *)
Fixpoint geminiBatches (source target : jsstring) (uncachedTexts : list jsstring)
    (uncachedIndices : list nat) (starts : list nat)
    (results : list (option jsstring)) : M (list (option jsstring)) :=
  match starts with
  | [] => ret results
  | b :: starts' => fun w =>
      let batch := slice b (b + 20) uncachedTexts in
      let w1 := logRequest w (GeminiRequest source target batch) in
      match geminiService (length (sent w)) source target batch with
      | None => (Throw ApiError, w1)
      | Some text =>
          let '(results', cache') :=
            geminiStore source target uncachedIndices (responseLines text)
              b 0 batch results (translationCache w1) in
          geminiBatches source target uncachedTexts uncachedIndices starts'
            results' (setCache w1 cache')
      end
  end.

Definition geminiTranslate (texts : list jsstring) (source target : jsstring)
  : M (list (option jsstring)) := fun w =>
  let sc := scanTexts (translationCache w) source target texts in
  if Nat.eqb (length (uncachedTexts sc)) 0 then (Ok (results sc), w)
  else
    geminiBatches source target (uncachedTexts sc) (uncachedIndices sc)
      (batchStarts 20 (length (uncachedTexts sc))) (results sc) w.

(** The loop [for (let j = 0; j < data.data.translations.length; j++)] of
    [googleTranslate], reading [translations[j]]. An index past the end of
    [uncachedIndices] makes [results[undefined] = translated], which sets no
    element; a [batch[j]] past the end of the batch prints as the word
    undefined in the key. *)
Fixpoint googleStore (source target : jsstring) (uncachedIndices : list nat)
    (batch : list jsstring) (j : nat) (translations : list jsstring)
    (results : list (option jsstring)) (cache : gmap jsstring jsstring)
    (uncachedIdx : nat)
  : list (option jsstring) * gmap jsstring jsstring * nat :=
  match translations with
  | [] => (results, cache, uncachedIdx)
  | translated :: translations' =>
      let results' :=
        match uncachedIndices !! uncachedIdx with
        | Some originalIdx => <[originalIdx := Some translated]> results
        | None => results
        end in
      let text := default (js "undefined") (batch !! j) in
      googleStore source target uncachedIndices batch (S j) translations'
        results' (<[cacheKey source target text := translated]> cache)
        (S uncachedIdx)
  end.

(** The loop [for (const batch of batches)]. *)
Fixpoint googleBatches (source target : jsstring) (uncachedIndices : list nat)
    (batches : list (list jsstring)) (results : list (option jsstring))
    (uncachedIdx : nat) : M (list (option jsstring)) :=
  match batches with
  | [] => ret results
  | batch :: batches' => fun w =>
      let w1 := logRequest w (GoogleRequest source target batch) in
      match googleService (length (sent w)) source target batch with
      | None => (Throw ApiError, w1)
      | Some translations =>
          let '(results', cache', uncachedIdx') :=
            googleStore source target uncachedIndices batch 0 translations
              results (translationCache w1) uncachedIdx in
          googleBatches source target uncachedIndices batches' results'
            uncachedIdx' (setCache w1 cache')
      end
  end.

Definition googleTranslate (texts : list jsstring) (source target : jsstring)
  : M (list (option jsstring)) :=
  if negb (isSet (GOOGLE_API_KEY cfg)) && isSet (GEMINI_API_KEY cfg)
  then geminiTranslate texts source target
  else if negb (isSet (GOOGLE_API_KEY cfg)) then throw NoApiKey
  else fun w =>
    let sc := scanTexts (translationCache w) source target texts in
    if Nat.eqb (length (uncachedTexts sc)) 0 then (Ok (results sc), w)
    else
      let batches :=
        List.map (fun i => slice i (i + 128) (uncachedTexts sc))
          (batchStarts 128 (length (uncachedTexts sc))) in
      googleBatches source target (uncachedIndices sc) batches (results sc) 0 w.

(** ** Optimal segmenter: candidate spans *)

Record Span : Type := mkSpan {
  text : jsstring;
  translation : option jsstring;
  fromDictionary : bool;
  score : Z
}.

Definition setScore (s : Span) (z : Z) : Span :=
  mkSpan (text s) (translation s) (fromDictionary s) z.

(** An entry of [toTranslate]. *)
Record Pending : Type := mkPending {
  pendingText : jsstring;
  pendingI : nat;
  pendingLen : nat
}.

(** [spans[i][len]], [null] being [None]. *)
Definition cell (spans : list (list (option Span))) (i len : nat) : option Span :=
  match spans !! i with
  | Some row => default None (row !! len)
  | None => None
  end.

(** [spans[i][len] = span] *)
Definition setCell (spans : list (list (option Span))) (i len : nat) (span : Span)
  : list (list (option Span)) :=
  alter (fun row => <[len := Some span]> row) i spans.

(** [Array.from({ length: N }, () => Array(MAX_SPAN + 1).fill(null))] *)
Definition emptySpans (N MAX_SPAN : nat) : list (list (option Span)) :=
  replicate N (replicate (MAX_SPAN + 1) None).

(** The lengths [len = from; len <= Math.min(MAX_SPAN, N - i); len++]. *)
Definition spanLengths (from MAX_SPAN N i : nat) : list nat :=
  seq from (Nat.min MAX_SPAN (N - i) + 1 - from).

(** Step 1, the body of the inner loop. *)
Definition collectSpan (dict : gmap jsstring jsstring) (syllables : list jsstring)
    (i : nat) (st : list (list (option Span)) * list Pending) (len : nat)
  : list (list (option Span)) * list Pending :=
  let phrase := phraseAt syllables i len in
  match dictLookup dict phrase with
  | Some dictEntry =>
      (setCell st.1 i len (mkSpan phrase (Some dictEntry) true (Z.of_nat len * 10)),
       st.2)
  | None => (st.1, st.2 ++ [mkPending phrase i len])
  end.

Definition collectSpans (dict : gmap jsstring jsstring) (syllables : list jsstring)
    (N MAX_SPAN : nat) : list (list (option Span)) * list Pending :=
  fold_left
    (fun st i => fold_left (collectSpan dict syllables i) (spanLengths 1 MAX_SPAN N i) st)
    (seq 0 N) (emptySpans N MAX_SPAN, []).

(** Step 2, with a key: [for (let j = 0; j < toTranslate.length; j++)]. *)
Fixpoint fillTranslated (translations : list (option jsstring)) (j : nat)
    (toTranslate : list Pending) (spans : list (list (option Span)))
  : list (list (option Span)) :=
  match toTranslate with
  | [] => spans
  | t :: rest =>
      fillTranslated translations (S j) rest
        (setCell spans (pendingI t) (pendingLen t)
           (mkSpan (pendingText t) (default None (translations !! j)) false 0))
  end.

(** Step 2, without a key: the text itself. *)
Definition fillIdentity (toTranslate : list Pending)
    (spans : list (list (option Span))) : list (list (option Span)) :=
  fold_left
    (fun spans t =>
       setCell spans (pendingI t) (pendingLen t)
         (mkSpan (pendingText t) (Some (pendingText t)) false 0))
    toTranslate spans.

(** ** Span scorer *)

(** A loop whose body may throw. *)
Fixpoint foldR {A S : Type} (body : S -> A -> Result S) (l : list A) (s : S)
  : Result S :=
  match l with
  | [] => Ok s
  | a :: l' =>
      match body s a with
      | Ok s' => foldR body l' s'
      | Throw e => Throw e
      end
  end.

(** [(single.translation.split(',')[0] || '').trim().toLowerCase()] *)
Definition firstSense (translation : jsstring) : jsstring :=
  toLowerCase (trim (default [] (head (splitOn COMMA translation)))).

(** The loop [for (let k = 0; k < len; k++)] that builds [parts]; reading
    [translation] of a single whose translation is [undefined] throws. *)
Definition collectParts (spans : list (list (option Span))) (i len : nat)
  : Result (list jsstring) :=
  foldR
    (fun parts k =>
       match cell spans (i + k) 1 with
       | Some single =>
           match translation single with
           | Some tr => Ok (parts ++ [firstSense tr])
           | None => Throw TypeError
           end
       | None => Ok parts
       end)
    (seq 0 len) [].

(** The test [isCompound]. *)
Definition isCompound (compoundTrans : jsstring) (parts : list jsstring) : bool :=
  negb (Nat.eqb (length compoundTrans) 0)
  && negb (bool_decide (compoundTrans = joinWith [SPACE] parts))
  && negb (bool_decide (compoundTrans = joinWith [SPACE] (reverse parts)))
  && (length (splitOn SPACE compoundTrans) <=? 3).

(** Step 3, the body of the inner loop; the state is the table and the
    dictionary. *)
Definition scoreSpan (i : nat)
    (st : list (list (option Span)) * gmap jsstring jsstring) (len : nat)
  : Result (list (list (option Span)) * gmap jsstring jsstring) :=
  match cell st.1 i len with
  | None => Ok st
  | Some span =>
      if fromDictionary span then Ok st
      else
        match translation span with
        | None => Throw TypeError
        | Some tr =>
            let compoundTrans := trim (toLowerCase tr) in
            match collectParts st.1 i len with
            | Throw e => Throw e
            | Ok parts =>
                if isCompound compoundTrans parts then
                  Ok (setCell st.1 i len (setScore span (Z.of_nat len * 8)),
                      <[toLowerCase (text span) := tr]> st.2)
                else
                  Ok (setCell st.1 i len (setScore span (Z.of_nat len * 1)), st.2)
            end
        end
  end.

Definition scoreSpans (N MAX_SPAN : nat)
    (st : list (list (option Span)) * gmap jsstring jsstring)
  : Result (list (list (option Span)) * gmap jsstring jsstring) :=
  foldR (fun st i => foldR (scoreSpan i) (spanLengths 2 MAX_SPAN N i) st)
    (seq 0 N) st.

(** The baseline: [if (s && s.score === 0) s.score = 1]. *)
Definition floorSingles (N : nat) (spans : list (list (option Span)))
  : list (list (option Span)) :=
  fold_left
    (fun spans i =>
       match cell spans i 1 with
       | Some s => if (score s =? 0)%Z then setCell spans i 1 (setScore s 1) else spans
       | None => spans
       end)
    (seq 0 N) spans.

(** ** Optimal segmenter: dynamic programme and backtracking *)

(** An entry of [dp]: [None] is [-Infinity]. *)
Definition exceeds (newScore : Z) (old : option Z) : bool :=
  match old with
  | Some z => (z <? newScore)%Z
  | None => true
  end.

(** Step 4, the body of the inner loop for a finite [dp[i]]. *)
Definition relax (spans : list (list (option Span))) (i : nat) (dpi : Z)
    (st : list (option Z) * list (option (nat * nat))) (len : nat)
  : list (option Z) * list (option (nat * nat)) :=
  match cell spans i len with
  | None => st
  | Some span =>
      let newScore := (dpi + score span)%Z in
      if exceeds newScore (default None (st.1 !! (i + len))) then
        (<[i + len := Some newScore]> st.1, <[i + len := Some (i, len)]> st.2)
      else st
  end.

(** Step 4, the body of the outer loop. *)
Definition relaxFrom (spans : list (list (option Span))) (N MAX_SPAN : nat)
    (st : list (option Z) * list (option (nat * nat))) (i : nat)
  : list (option Z) * list (option (nat * nat)) :=
  match default None (st.1 !! i) with
  | None => st
  | Some dpi => fold_left (relax spans i dpi) (spanLengths 1 MAX_SPAN N i) st
  end.

Definition solve (spans : list (list (option Span))) (N MAX_SPAN : nat)
  : list (option Z) * list (option (nat * nat)) :=
  fold_left (relaxFrom spans N MAX_SPAN) (seq 0 N)
    (<[0 := Some 0%Z]> (replicate (N + 1) None), replicate (N + 1) None).

(** Step 5: [while (pos > 0)]. The list is built in the order of the
    pushes; reading [start] of an undefined choice throws. *)
Fixpoint backtrack (fuel : nat) (choice : list (option (nat * nat))) (pos : nat)
    (segments : list (nat * nat)) : Result (list (nat * nat)) :=
  if Nat.eqb pos 0 then Ok segments
  else
    match fuel with
    | 0 => Throw OutOfFuel
    | S fuel' =>
        match default None (choice !! pos) with
        | Some c => backtrack fuel' choice c.1 (segments ++ [c])
        | None => Throw TypeError
        end
    end.

Record WordBreakdown : Type := mkWord {
  word : jsstring;
  wordTranslation : option jsstring;
  wordFromDictionary : bool
}.

(** The last loop: [spans[start][len]!] of a [null] cell throws. *)
Definition buildResults (spans : list (list (option Span)))
    (segments : list (nat * nat)) : Result (list WordBreakdown) :=
  foldR
    (fun out (c : nat * nat) =>
       match cell spans c.1 c.2 with
       | Some span =>
           Ok (out ++ [mkWord (text span) (translation span) (fromDictionary span)])
       | None => Throw TypeError
       end)
    segments [].

(** Steps 1 and 2: the table with every candidate span resolved. *)
Definition resolveSpans (syllables : list jsstring)
  : M (list (list (option Span))) := fun w =>
  let N := length syllables in
  let MAX_SPAN := Nat.min 4 N in
  let '(spans, toTranslate) := collectSpans (dictionary w) syllables N MAX_SPAN in
  if negb (Nat.eqb (length toTranslate) 0) && isSet (API_KEY cfg) then
    (let! translations :=
       googleTranslate (List.map pendingText toTranslate) (js "vi") (js "en") in
     ret (fillTranslated translations 0 toTranslate spans)) w
  else if negb (Nat.eqb (length toTranslate) 0) then
    (Ok (fillIdentity toTranslate spans), w)
  else (Ok spans, w).

(** The state a loop has reached when its body throws, [inner s a] being
    the state in which the body, started in [s] on [a], throws. *)
Fixpoint reached {A S : Type} (body : S -> A -> Result S) (inner : S -> A -> S)
    (l : list A) (s : S) : S :=
  match l with
  | [] => s
  | a :: l' =>
      match body s a with
      | Ok s' => reached body inner l' s'
      | Throw _ => inner s a
      end
  end.

(** The table and the dictionary when the third step throws: the body of
    the inner loop throws before it writes anything. *)
Definition scoreSpansReached (N MAX_SPAN : nat)
    (st : list (list (option Span)) * gmap jsstring jsstring)
  : list (list (option Span)) * gmap jsstring jsstring :=
  reached (fun st i => foldR (scoreSpan i) (spanLengths 2 MAX_SPAN N i) st)
    (fun st i => reached (scoreSpan i) (fun st _ => st) (spanLengths 2 MAX_SPAN N i) st)
    (seq 0 N) st.

(** Step 3 and the baseline. When the step throws, the compounds it has
    registered before stay in the dictionary. *)
Definition scoreAll (N MAX_SPAN : nat) (spans : list (list (option Span)))
  : M (list (list (option Span))) := fun w =>
  match scoreSpans N MAX_SPAN (spans, dictionary w) with
  | Ok (spans', dict') => (Ok (floorSingles N spans'), setDictionary w dict')
  | Throw e =>
      (Throw e, setDictionary w (scoreSpansReached N MAX_SPAN (spans, dictionary w)).2)
  end.

(** Steps 4 and 5: the chosen [(start, len)] pairs, in order. *)
Definition segmentsOf (spans : list (list (option Span))) (N MAX_SPAN : nat)
  : Result (list (nat * nat)) :=
  match backtrack N (solve spans N MAX_SPAN).2 N [] with
  | Ok segments => Ok (reverse segments)
  | Throw e => Throw e
  end.

Definition liftR {A} (r : Result A) : M A := fun w => (r, w).

(** Steps 1 to 3: the table with its scores. *)
Definition scoredSpans (syllables : list jsstring) : M (list (list (option Span))) :=
  let N := length syllables in
  let MAX_SPAN := Nat.min 4 N in
  let! spans := resolveSpans syllables in
  scoreAll N MAX_SPAN spans.

Definition smartSegmentSyllables (syllables : list jsstring)
  : M (list WordBreakdown) :=
  if Nat.eqb (length syllables) 0 then ret []
  else
    let N := length syllables in
    let MAX_SPAN := Nat.min 4 N in
    let! scored := scoredSpans syllables in
    let! segments := liftR (segmentsOf scored N MAX_SPAN) in
    liftR (buildResults scored segments).

Definition smartSegmentAndTranslate (input : jsstring) : M (list WordBreakdown) :=
  smartSegmentSyllables (syllablesOf input).

(** ** Request handler *)

Inductive Mode : Type := ViToEn | EnToVi.

Inductive Response : Type :=
  | BadRequest                      (* status 400, 'No text provided' *)
  | Translated (sentenceTranslation : option jsstring)
               (words : list WordBreakdown)
  | ServerError (e : Exn).          (* status 500, from the [catch] *)

Definition handleTranslate (input : jsstring) (mode : Mode) : World -> Response * World :=
  fun w =>
  if Nat.eqb (length input) 0 || Nat.eqb (length (trim input)) 0 then (BadRequest, w)
  else
    let source := match mode with ViToEn => js "vi" | EnToVi => js "en" end in
    let target := match mode with ViToEn => js "en" | EnToVi => js "vi" end in
    match googleTranslate [input] source target w with
    | (Throw e, w1) => (ServerError e, w1)
    | (Ok sentence, w1) =>
        let sentenceTranslation := default None (head sentence) in
        match mode with
        | ViToEn =>
            match smartSegmentAndTranslate input w1 with
            | (Ok words, w2) => (Translated sentenceTranslation words, w2)
            | (Throw e, w2) => (ServerError e, w2)
            end
        | EnToVi => (Translated sentenceTranslation [], w1)
        end
    end.

End Clients.

End Segmenters.

Arguments Ok {A} a.
Arguments Throw {A} e.

(** ** JS numbers *)

(** A JS number is an IEEE 754 double. [spec_float] is the specification of
    floating-point numbers of the Standard Library; its operations, taken at
    precision 53 and exponent bound 1024, are those of binary64 with
    rounding to nearest, ties to even, which is the arithmetic of JS. *)
Definition num : Type := SpecFloat.spec_float.

(** The number nearest an integer: the integer itself when its magnitude is
    at most [2^53]. *)
Definition numOfZ (z : Z) : num := SpecFloat.binary_normalize 53 1024 z 0 false.

(** [x + y] *)
Definition numAdd (x y : num) : num := SpecFloat.SFadd 53 1024 x y.

(** [x - y] *)
Definition numSub (x y : num) : num := SpecFloat.SFsub 53 1024 x y.

(** [x > 0] *)
Definition numPositive (x : num) : bool :=
  SpecFloat.SFltb (SpecFloat.S754_zero false) x.

(** Truthiness of a number: [0], [-0] and [NaN] are falsy. *)
Definition numTruthy (x : num) : bool :=
  match x with
  | SpecFloat.S754_zero _ | SpecFloat.S754_nan => false
  | _ => true
  end.

(** The integer a number is, when it is one. *)
Definition numToZ (x : num) : option Z :=
  match x with
  | SpecFloat.S754_zero _ => Some 0%Z
  | SpecFloat.S754_finite s m e =>
      let v := if (0 <=? e)%Z then Some (Zpos m * 2 ^ e)%Z
               else if (Zpos m mod 2 ^ (- e) =? 0)%Z then Some (Zpos m / 2 ^ (- e))%Z
               else None in
      (if s then Z.opp else id) <$> v
  | _ => None
  end.

(** ** Frequency aggregator ([mergeWordFrequency]) *)

(** A JS [Map] from words to values: the entries in insertion order, one per
    key. The counts of the frequency table are numbers. *)
Abbreviation CountMap := (list (jsstring * num)).

(** [m.get(word)] *)
Fixpoint mapGet {V : Type} (m : list (jsstring * V)) (w : jsstring) : option V :=
  match m with
  | [] => None
  | (k, v) :: m' => if bool_decide (k = w) then Some v else mapGet m' w
  end.

(** [m.set(word, count)]: an existing key keeps its place. *)
Fixpoint mapSet {V : Type} (m : list (jsstring * V)) (w : jsstring) (count : V)
  : list (jsstring * V) :=
  match m with
  | [] => [(w, count)]
  | (k, v) :: m' =>
      if bool_decide (k = w) then (k, count) :: m' else (k, v) :: mapSet m' w count
  end.

(** The first loop: [for (const entry of existing) merged.set(...)]. *)
Definition loadCounts {V : Type} (existing : list (jsstring * V)) : list (jsstring * V) :=
  fold_left (fun merged entry => mapSet merged entry.1 entry.2) existing [].

(** [merged.get(word) || 0] *)
Definition orZero (v : option num) : num :=
  match v with
  | Some x => if numTruthy x then x else numOfZ 0
  | None => numOfZ 0
  end.

(** The second loop; an entry of [newCounts] is a word with its count and
    translation. The count of a run is an integer ([extractVocabulary]
    counts from 1 by steps of 1), here the number it is. *)
Definition addCounts (merged : CountMap) (newCounts : list (jsstring * (Z * jsstring)))
  : CountMap :=
  fold_left
    (fun merged entry =>
       mapSet merged entry.1
         (numAdd (orZero (mapGet merged entry.1)) (numOfZ entry.2.1)))
    newCounts merged.

(** [sort((a, b) => b.count - a.count)]: the sort of an array is stable, so
    its result is that of inserting each entry, from the last to the first,
    before the first entry that the comparator does not put before it: [e']
    comes before [e] when [e'.count - e.count > 0]. *)
Fixpoint insertByCount (e : jsstring * num) (sorted : CountMap) : CountMap :=
  match sorted with
  | [] => [e]
  | e' :: rest =>
      if numPositive (numSub e'.2 e.2) then e' :: insertByCount e rest
      else e :: sorted
  end.

Definition sortByCount (entries : CountMap) : CountMap :=
  foldr insertByCount [] entries.

(** The file is read when it exists ([None] when it does not) and the
    result is what is written back. *)
Definition mergeWordFrequency (file : option CountMap)
    (newCounts : list (jsstring * (Z * jsstring))) : CountMap :=
  let existing := default [] file in
  sortByCount (addCounts (loadCounts existing) newCounts).

(** ** Vocabulary of a run ([extractVocabulary], [generateStudySheet]) *)

Record ProcessedUtterance : Type := mkUtterance {
  source_file : jsstring;
  clip_time : jsstring;
  speaker_name : jsstring;
  vietnamese : jsstring;
  english : jsstring;
  intent : option jsstring
}.

(** A JS [Map] from words to objects [{ count, translation }]: the entries
    in insertion order, one per key. *)
Abbreviation VocabMap := (list (jsstring * (Z * jsstring))).

(** [wordCounts.get(lower)] *)
Fixpoint vocabGet (m : VocabMap) (w : jsstring) : option (Z * jsstring) :=
  match m with
  | [] => None
  | (k, v) :: m' => if bool_decide (k = w) then Some v else vocabGet m' w
  end.

(** [existing.count++] on the object stored under [w]. *)
Fixpoint vocabBump (m : VocabMap) (w : jsstring) : VocabMap :=
  match m with
  | [] => []
  | (k, v) :: m' =>
      if bool_decide (k = w) then (k, (v.1 + 1, v.2)%Z) :: m'
      else (k, v) :: vocabBump m' w
  end.

(** The body of the inner loop: the key is the lower-cased word, and the
    translation, kept from the first time the key is seen, is
    [dictionary[lower] || dictionary[word] || ''] for the word seen then. An
    object read from the map is always truthy, and a key that is not in the
    map is put at its end. *)
Definition countWord (toLowerCase : jsstring -> jsstring)
    (dict : gmap jsstring jsstring) (wordCounts : VocabMap) (word : jsstring)
  : VocabMap :=
  let lower := toLowerCase word in
  let translation := default [] (dictLookup toLowerCase dict word) in
  match vocabGet wordCounts lower with
  | Some _ => vocabBump wordCounts lower
  | None => wordCounts ++ [(lower, (1%Z, translation))]
  end.

Definition extractVocabulary (toLowerCase : jsstring -> jsstring)
    (dict : gmap jsstring jsstring) (utterances : list ProcessedUtterance)
  : VocabMap :=
  fold_left
    (fun wordCounts u =>
       fold_left (countWord toLowerCase dict)
         (segmentVietnamese toLowerCase dict (vietnamese u)) wordCounts)
    utterances [].

(** [sort((a, b) => b[1].count - a[1].count)], stable as above. *)
Fixpoint insertByVocabCount (e : jsstring * (Z * jsstring))
    (sorted : VocabMap) : VocabMap :=
  match sorted with
  | [] => [e]
  | e' :: rest =>
      if (e.2.1 <? e'.2.1)%Z then e' :: insertByVocabCount e rest else e :: sorted
  end.

Definition sortByVocabCount (entries : VocabMap) : VocabMap :=
  foldr insertByVocabCount [] entries.

(** The constant [sorted] of [generateStudySheet], of which the sheet has
    one table line per entry, in order: the entries with a translation,
    by count, the first 30. *)
Definition studySheetRows (wordCounts : VocabMap) : VocabMap :=
  take 30
    (sortByVocabCount
       (List.filter (fun e => negb (Nat.eqb (length e.2.2) 0)) wordCounts)).

(** ** Clip labels ([fileTimeLabel], the same text in both scripts) *)

(** [s] without the prefix [p], when it starts with it. *)
Fixpoint stripPrefix (p s : jsstring) : option jsstring :=
  match p, s with
  | [], _ => Some s
  | a :: p', b :: s' => if (a =? b)%N then stripPrefix p' s' else None
  | _ :: _, [] => None
  end.

(** The regular expression [(\d{2})\.(\d{2})(?:\(\d+\))?\.m4a$] ends at the
    end of the name, so that a match is read from the end: the extension,
    then the counter in round brackets when a closing bracket comes before
    the extension, then two digits, a full stop and two digits. The three
    functions below read the reversed name.

    The optional counter: after a closing bracket, one digit or more and
    the opening bracket. *)
Definition matchCounter (r : jsstring) : option jsstring :=
  match r with
  | c :: r' =>
      if (c =? 41)%N then
        match r' with
        | d :: _ =>
            if isDigit d then
              match dropDigits r' with
              | o :: r'' => if (o =? 40)%N then Some r'' else None
              | [] => None
              end
            else None
        | [] => None
        end
      else Some r
  | [] => Some r
  end.

(** The two groups, as the code units [(h1, h2, m1, m2)]. *)
Definition matchTime (r : jsstring) : option (N * N * N * N) :=
  match r with
  | m2 :: m1 :: dot :: h2 :: h1 :: _ =>
      if isDigit m2 && isDigit m1 && (dot =? DOT)%N && isDigit h2 && isDigit h1
      then Some (h1, h2, m1, m2)
      else None
  | _ => None
  end.

Definition matchTimeLabel (filename : jsstring) : option (N * N * N * N) :=
  match stripPrefix (reverse (js ".m4a")) (reverse filename) with
  | Some r =>
      match matchCounter r with
      | Some r' => matchTime r'
      | None => None
      end
  | None => None
  end.

Definition fileTimeLabel (filename : jsstring) : jsstring :=
  match matchTimeLabel filename with
  | Some (h1, h2, m1, m2) => [h1; h2; COLON; m1; m2]
  | None => filename
  end.

(** ** Predicates of the statements *)

(** A table in the order of the file: counts never increase. *)
Definition byCountDesc (a b : jsstring * Z) : Prop := (b.2 <= a.2)%Z.

(** The merge as the specification states it, on integers that add
    exactly; the merge of the code is compared with it. *)
Definition exactAddCounts (merged : list (jsstring * Z))
    (newCounts : list (jsstring * (Z * jsstring))) : list (jsstring * Z) :=
  fold_left
    (fun merged entry =>
       mapSet merged entry.1 (default 0%Z (mapGet merged entry.1) + entry.2.1)%Z)
    newCounts merged.

Fixpoint exactInsert (e : jsstring * Z) (sorted : list (jsstring * Z))
  : list (jsstring * Z) :=
  match sorted with
  | [] => [e]
  | e' :: rest =>
      if (e.2 <? e'.2)%Z then e' :: exactInsert e rest else e :: sorted
  end.

Definition exactSort (entries : list (jsstring * Z)) : list (jsstring * Z) :=
  foldr exactInsert [] entries.

Definition exactMerge (file : option (list (jsstring * Z)))
    (newCounts : list (jsstring * (Z * jsstring))) : list (jsstring * Z) :=
  exactSort (exactAddCounts (loadCounts (default [] file)) newCounts).




(** [v * 2^j] *)
Definition dbl (v : positive) (j : nat) : positive := Nat.iter j xO v.

(** The number that a positive integer below [2^53] is, with its sign: a
    mantissa of 53 digits. *)
Definition canon (s : bool) (v : positive) : num :=
  SpecFloat.S754_finite s
    (dbl v (Z.to_nat (53 - Zpos (SpecFloat.digits2_pos v))))
    (Zpos (SpecFloat.digits2_pos v) - 53).

(** The table of numbers that a table of integers is. *)
Definition asNumbers (table : list (jsstring * Z)) : CountMap :=
  List.map (fun e => (e.1, numOfZ e.2)) table.

(** A count that is an integer a number holds exactly, and from which the
    next integer is told apart: from 0 to [Number.MAX_SAFE_INTEGER]. *)
Definition safeCount (z : Z) : Prop := (0 <= z < 2 ^ 53)%Z.

(** The counts of the table, and the sums the merge of [newCounts] makes,
    are safe. *)
Definition safeMerge (table : list (jsstring * Z))
    (newCounts : list (jsstring * (Z * jsstring))) : Prop :=
  Forall (fun e => safeCount e.2) table
  /\ Forall (fun e => (0 <= e.2.1)%Z
                      /\ safeCount (default 0%Z (mapGet table e.1) + e.2.1)%Z)
       newCounts.

(** A phrase, given by its syllables, has an entry in the Lexicon. *)
Definition inLexicon (toLowerCase : jsstring -> jsstring)
    (dict : gmap jsstring jsstring) (phrase : list jsstring) : bool :=
  bool_decide (is_Some (dictLookup toLowerCase dict (joinWith [SPACE] phrase))).

(** No Lexicon entry of [len] syllables, for [len] from more than [l] up to
    4, starts where the syllables [rest] start. *)
Definition noLongerEntry (toLowerCase : jsstring -> jsstring)
    (dict : gmap jsstring jsstring) (rest : list jsstring) (l : nat) : bool :=
  forallb
    (fun len =>
       (len <=? l) || (length rest <? len)
       || negb (inLexicon toLowerCase dict (take len rest)))
    [2; 3; 4].

(** The phrases are what a longest match reads: each has 1 to 4 syllables,
    and at its start no longer entry matches what follows. *)
Fixpoint longestReading (toLowerCase : jsstring -> jsstring)
    (dict : gmap jsstring jsstring) (phrases : list (list jsstring)) : bool :=
  match phrases with
  | [] => true
  | p :: ps =>
      (1 <=? length p) && (length p <=? 4)
      && noLongerEntry toLowerCase dict (concat (p :: ps)) (length p)
      && longestReading toLowerCase dict ps
  end.

(** ** Invariants of the loops *)

(** [(i, len)] is a pair the loops over spans visit. *)
Definition visited (N MAX_SPAN i len : nat) : Prop :=
  1 <= len /\ len <= MAX_SPAN /\ i + len <= N.

(** [(i, len)] comes before [(k, l)] in the order of the loops. *)
Definition before (k l i len : nat) : Prop := i < k \/ (i = k /\ len < l).

(** What holds of [dp] and [choice] when the loops of the fourth step reach
    [(k, l)]. *)
Record SolveInv (spans : list (list (option Span))) (N MAX_SPAN k l : nat)
    (st : list (option Z) * list (option (nat * nat))) : Prop := {
  inv_dp_length : length st.1 = N + 1;
  inv_choice_length : length st.2 = N + 1;
  inv_zero : st.1 !! 0 = Some (Some 0%Z);
  inv_choice : forall j i len,
    st.2 !! j = Some (Some (i, len)) ->
    i + len = j /\ visited N MAX_SPAN i len /\ before k l i len /\
    exists sp di, cell spans i len = Some sp /\ st.1 !! i = Some (Some di)
                  /\ st.1 !! j = Some (Some (di + score sp)%Z);
  inv_best : forall i len sp d,
    before k l i len -> visited N MAX_SPAN i len -> cell spans i len = Some sp ->
    st.1 !! i = Some (Some d) ->
    exists dj c, st.1 !! (i + len) = Some (Some dj) /\ (d + score sp <= dj)%Z
                 /\ st.2 !! (i + len) = Some (Some c)
                 /\ ((d + score sp)%Z = dj -> c.1 <= i);
  inv_set : forall j dj,
    1 <= j -> st.1 !! j = Some (Some dj) -> exists c, st.2 !! j = Some (Some c)
}.

(** The segments follow one another from [from] to [to], each at least one
    syllable long: they partition [from .. to) without gap or overlap. *)
Fixpoint contiguous (from : nat) (segments : list (nat * nat)) (to : nat) : Prop :=
  match segments with
  | [] => from = to
  | (start, len) :: rest =>
      start = from /\ 1 <= len /\ contiguous (from + len) rest to
  end.

(** The entry of the result made of the cell of a segment. *)
Definition wordOf (spans : list (list (option Span))) (c : nat * nat) : WordBreakdown :=
  match cell spans c.1 c.2 with
  | Some span => mkWord (text span) (translation span) (fromDictionary span)
  | None => mkWord [] None false
  end.

(** Rows [0 .. N-1] with columns [0 .. MAX_SPAN]. *)
Definition shaped (N MAX_SPAN : nat) (spans : list (list (option Span))) : Prop :=
  length spans = N /\ Forall (fun row => length row = MAX_SPAN + 1) spans.

(** The span the first step makes of a Lexicon entry. *)
Definition lexiconSpan (syllables : list jsstring) (i len : nat) (entry : jsstring)
  : Span :=
  mkSpan (phraseAt syllables i len) (Some entry) true (Z.of_nat len * 10).

(** The entry of [toTranslate] the first step makes otherwise. *)
Definition pendingAt (syllables : list jsstring) (i len : nat) : Pending :=
  mkPending (phraseAt syllables i len) i len.

(** What holds of the table and of [toTranslate] when the loops of the
    first step reach [(k, l)]. *)
Record Collected (toLowerCase : jsstring -> jsstring) (dict : gmap jsstring jsstring)
    (syllables : list jsstring) (k l : nat)
    (st : list (list (option Span)) * list Pending) : Prop := {
  col_shaped : shaped (length syllables) (Nat.min 4 (length syllables)) st.1;
  col_seen : forall i len,
    visited (length syllables) (Nat.min 4 (length syllables)) i len ->
    before k l i len ->
    match dictLookup toLowerCase dict (phraseAt syllables i len) with
    | Some entry => cell st.1 i len = Some (lexiconSpan syllables i len entry)
    | None => cell st.1 i len = None /\ pendingAt syllables i len ∈ st.2
    end;
  col_unseen : forall i len, ¬ before k l i len -> cell st.1 i len = None;
  col_pending : forall p, p ∈ st.2 ->
    visited (length syllables) (Nat.min 4 (length syllables)) (pendingI p) (pendingLen p)
    /\ before k l (pendingI p) (pendingLen p)
    /\ p = pendingAt syllables (pendingI p) (pendingLen p)
    /\ dictLookup toLowerCase dict (pendingText p) = None;
  col_NoDup : NoDup st.2
}.

(** The span at [(i, len)] is classified a detected compound: it is not a
    Lexicon span, it has a translation, and [isCompound] holds of it and of
    the parts built from the single syllables. *)
Definition compoundAt (toLowerCase : jsstring -> jsstring)
    (spans : list (list (option Span))) (i len : nat) (sp : Span) (tr : jsstring)
  : Prop :=
  cell spans i len = Some sp /\ fromDictionary sp = false /\ translation sp = Some tr
  /\ exists parts, collectParts toLowerCase spans i len = Ok parts
                   /\ isCompound (trim (toLowerCase tr)) parts = true.

(** The cell [c] is what the third step makes of the cell at [(i, len)] of
    the resolved table [spans]. *)
Definition scoredCell (toLowerCase : jsstring -> jsstring)
    (spans : list (list (option Span))) (i len : nat) (c : option Span) : Prop :=
  match cell spans i len with
  | None => c = None
  | Some sp =>
      if fromDictionary sp then c = Some sp
      else exists tr parts,
          translation sp = Some tr
          /\ collectParts toLowerCase spans i len = Ok parts
          /\ c = Some (setScore sp
                         (if isCompound (trim (toLowerCase tr)) parts
                          then Z.of_nat len * 8 else Z.of_nat len * 1))
  end.

(** What holds of the table and the dictionary when the loops of the third
    step have treated the pairs in [treated], starting from [spans] and
    [dict]. *)
Record Scored (toLowerCase : jsstring -> jsstring)
    (spans : list (list (option Span))) (dict : gmap jsstring jsstring)
    (N MAX_SPAN : nat) (treated : nat -> nat -> Prop)
    (st : list (list (option Span)) * gmap jsstring jsstring) : Prop := {
  sc_shaped : shaped N MAX_SPAN st.1;
  sc_rest : forall i len, ¬ treated i len -> cell st.1 i len = cell spans i len;
  sc_treated : forall i len,
    treated i len -> scoredCell toLowerCase spans i len (cell st.1 i len);
  sc_dict_only : forall key,
    st.2 !! key ≠ dict !! key ->
    exists i len sp tr,
      treated i len /\ compoundAt toLowerCase spans i len sp tr
      /\ key = toLowerCase (text sp) /\ st.2 !! key = Some tr;
  sc_dict_registered : forall i len sp tr,
    treated i len -> compoundAt toLowerCase spans i len sp tr ->
    exists i' len' sp' tr',
      treated i' len' /\ compoundAt toLowerCase spans i' len' sp' tr'
      /\ toLowerCase (text sp') = toLowerCase (text sp)
      /\ st.2 !! toLowerCase (text sp) = Some tr'
}.

(** The pairs the third step has treated when its loops reach [(k, l)]. *)
Definition treatedUpTo (N MAX_SPAN k l : nat) (i len : nat) : Prop :=
  before k l i len /\ visited N MAX_SPAN i len /\ 2 <= len.

(** What the baseline makes of a single. *)
Definition floorCell (c : option Span) : option Span :=
  match c with
  | Some s => if (score s =? 0)%Z then Some (setScore s 1) else Some s
  | None => None
  end.

(** The table [resolved] has, for every visited pair, the Lexicon span or
    the span made of the translation found at the place of the pair in
    [toTranslate]. *)
Definition resolvedWith (toLowerCase : jsstring -> jsstring)
    (dict : gmap jsstring jsstring) (syllables : list jsstring)
    (toTranslate : list Pending) (translations : list (option jsstring))
    (resolved : list (list (option Span))) : Prop :=
  shaped (length syllables) (Nat.min 4 (length syllables)) resolved
  /\ forall i len,
      visited (length syllables) (Nat.min 4 (length syllables)) i len ->
      match dictLookup toLowerCase dict (phraseAt syllables i len) with
      | Some entry => cell resolved i len = Some (lexiconSpan syllables i len entry)
      | None =>
          exists n, toTranslate !! n = Some (pendingAt syllables i len)
                    /\ cell resolved i len
                       = Some (mkSpan (phraseAt syllables i len)
                                 (default None (translations !! n)) false 0)
      end.

(** The score of the span of a segment, and the total of a sequence of
    segments. *)
Definition scoreAt (spans : list (list (option Span))) (c : nat * nat) : Z :=
  match cell spans c.1 c.2 with
  | Some sp => score sp
  | None => 0%Z
  end.

Definition totalScore (spans : list (list (option Span))) (segments : list (nat * nat))
  : Z :=
  foldr (fun c acc => (scoreAt spans c + acc)%Z) 0%Z segments.

(** The condition of a detected compound, on the case-normalized
    translation and the first senses of the singles: different from the
    senses joined in order and in reverse order, and of at most 3 words
    (pieces between spaces). *)
Definition compoundCondition (compoundTrans : jsstring) (parts : list jsstring) : Prop :=
  compoundTrans ≠ joinWith [SPACE] parts
  /\ compoundTrans ≠ joinWith [SPACE] (reverse parts)
  /\ length (splitOn SPACE compoundTrans) <= 3.

(** [parts] are the first senses of the translations of the singles at
    [i .. i+len). *)
Definition sensesOfSingles (toLowerCase : jsstring -> jsstring)
    (spans : list (list (option Span))) (i len : nat) (parts : list jsstring) : Prop :=
  Forall2
    (fun k part =>
       exists single tr,
         cell spans (i + k) 1 = Some single /\ translation single = Some tr
         /\ part = firstSense toLowerCase tr)
    (seq 0 len) parts.

(** ** The clients, described by what they store *)

(** The indices the first loop of a client leaves to the backend. *)
Fixpoint missIndices (cache : gmap jsstring jsstring) (source target : jsstring)
    (i : nat) (texts : list jsstring) : list nat :=
  match texts with
  | [] => []
  | t :: texts' =>
      match cacheHit cache source target t with
      | Some _ => missIndices cache source target (S i) texts'
      | None => i :: missIndices cache source target (S i) texts'
      end
  end.

(** The texts it leaves to the backend. *)
Definition missTexts (cache : gmap jsstring jsstring) (source target : jsstring)
    (texts : list jsstring) : list jsstring :=
  List.filter (fun t => bool_decide (cacheHit cache source target t = None)) texts.

(** The results it fills from the cache. *)
Fixpoint fillHits (cache : gmap jsstring jsstring) (source target : jsstring)
    (i : nat) (texts : list jsstring) (results : list (option jsstring))
  : list (option jsstring) :=
  match texts with
  | [] => results
  | t :: texts' =>
      fillHits cache source target (S i) texts'
        match cacheHit cache source target t with
        | Some cached => <[i := Some cached]> results
        | None => results
        end
  end.

(** What a store loop does, as a list of entries: the index written in
    [results] (none when [uncachedIndices] has no such place), the text of
    the cache key, and the translation. *)
Fixpoint entriesAt (uncachedIndices : list nat) (p : nat) (texts answers : list jsstring)
  : list (option nat * jsstring * jsstring) :=
  match texts, answers with
  | t :: texts', a :: answers' =>
      (uncachedIndices !! p, t, a) :: entriesAt uncachedIndices (S p) texts' answers'
  | _, _ => []
  end.

Fixpoint writeBack (source target : jsstring)
    (entries : list (option nat * jsstring * jsstring))
    (st : list (option jsstring) * gmap jsstring jsstring)
  : list (option jsstring) * gmap jsstring jsstring :=
  match entries with
  | [] => st
  | (idx, t, a) :: entries' =>
      writeBack source target entries'
        (match idx with Some i => <[i := Some a]> st.1 | None => st.1 end,
         <[cacheKey source target t := a]> st.2)
  end.

(** The translations the prompt client reads for a batch, from line [j] on. *)
Fixpoint geminiAnswers (lines : list jsstring) (j : nat) (batch : list jsstring)
  : list jsstring :=
  match batch with
  | [] => []
  | t :: batch' => parseLine (lines !! j) t :: geminiAnswers lines (S j) batch'
  end.

(** The entries the prompt client writes for the batches that start at
    [starts], the first request being the one after [n] earlier ones; none
    when a request fails. *)
Fixpoint geminiEntries
    (geminiService : nat -> jsstring -> jsstring -> list jsstring -> option jsstring)
    (source target : jsstring) (uncachedTexts : list jsstring)
    (uncachedIndices : list nat) (n : nat) (starts : list nat)
  : option (list (option nat * jsstring * jsstring)) :=
  match starts with
  | [] => Some []
  | b :: starts' =>
      let batch := slice b (b + 20) uncachedTexts in
      match geminiService n source target batch with
      | None => None
      | Some reply =>
          match geminiEntries geminiService source target uncachedTexts
                  uncachedIndices (S n) starts' with
          | Some es =>
              Some (entriesAt uncachedIndices b batch
                      (geminiAnswers (responseLines reply) 0 batch) ++ es)
          | None => None
          end
      end
  end.


(** The backend in use: the prompt client when only its key is set. *)
Definition usesGemini (cfg : Config) : bool :=
  negb (isSet (GOOGLE_API_KEY cfg)) && isSet (GEMINI_API_KEY cfg).

Definition requestOf (cfg : Config) (source target : jsstring) (batch : list jsstring)
  : Request :=
  if usesGemini cfg then GeminiRequest source target batch
  else GoogleRequest source target batch.



(** ** Predicates of the further properties *)

(** A syllable as the normalizer makes them: not empty, without white
    space and without a punctuation mark of the class. *)
Definition cleanSyllable (s : jsstring) : Prop :=
  s ≠ [] /\ Forall (fun c => isWhiteSpace c = false /\ isPunct c = false) s.

(** The length the inner loop of the greedy segmenter settles on where the
    syllables [rest] start. *)
Definition matchLength (toLowerCase : jsstring -> jsstring)
    (dict : gmap jsstring jsstring) (rest : list jsstring) : nat :=
  if (4 <=? length rest) && inLexicon toLowerCase dict (take 4 rest) then 4
  else if (3 <=? length rest) && inLexicon toLowerCase dict (take 3 rest) then 3
  else if (2 <=? length rest) && inLexicon toLowerCase dict (take 2 rest) then 2
  else 1.

(** The batches a client makes of the texts it did not find in the cache. *)
Definition batchesOf (size : nat) (texts : list jsstring) : list (list jsstring) :=
  List.map (fun b => slice b (b + size) texts) (batchStarts size (length texts)).

(** The size of a batch of the backend in use. *)
Definition batchSize (cfg : Config) : nat := if usesGemini cfg then 20 else 128.

(** The requests a call of [googleTranslate] has to send for the texts
    [misses]. *)
Definition plannedRequests (cfg : Config) (source target : jsstring)
    (misses : list jsstring) : list Request :=
  List.map (requestOf cfg source target) (batchesOf (batchSize cfg) misses).

(** The cache has, for the text, a translation that a later call finds. *)
Definition cachedFor (cache : gmap jsstring jsstring) (source target text : jsstring)
  : Prop :=
  exists a : jsstring,
    cache !! cacheKey source target text = Some a /\ (text ≠ [] -> a ≠ []).

(** Every candidate span of the table has a translation. *)
Definition translated (N MAX_SPAN : nat) (spans : list (list (option Span))) : Prop :=
  forall i len sp,
    visited N MAX_SPAN i len -> cell spans i len = Some sp -> is_Some (translation sp).

(** The words of a run, in the order [extractVocabulary] sees them. *)
Definition wordsOfRun (toLowerCase : jsstring -> jsstring)
    (dict : gmap jsstring jsstring) (utterances : list ProcessedUtterance)
  : list jsstring :=
  concat (List.map (fun u => segmentVietnamese toLowerCase dict (vietnamese u))
            utterances).

(** The words of a list whose lower case is [key]. *)
Definition occurrences (toLowerCase : jsstring -> jsstring) (key : jsstring)
    (words : list jsstring) : list jsstring :=
  List.filter (fun w => bool_decide (toLowerCase w = key)) words.

(** The sum of the counts of a vocabulary. *)
Definition vocabTotal (m : VocabMap) : Z :=
  foldr (fun e acc => (e.2.1 + acc)%Z) 0%Z m.

(** The sum of the counts of a frequency table. *)
Definition tableTotal (m : list (jsstring * Z)) : Z :=
  foldr (fun e acc => (e.2 + acc)%Z) 0%Z m.

(** By count, greatest first. *)
Definition byVocabCountDesc (a b : jsstring * (Z * jsstring)) : Prop :=
  (b.2.1 <= a.2.1)%Z.

(** The counter a recorder puts before the extension of a second clip of
    the same minute: nothing, or a number in round brackets. *)
Definition isClipCounter (counter : jsstring) : Prop :=
  counter = []
  \/ exists ds, ds ≠ [] /\ Forall (fun c => isDigit c = true) ds
                /\ counter = [40%N] ++ ds ++ [41%N].

(** A name that ends with a time, a counter and the extension. *)
Definition timedName (filename : jsstring) (h1 h2 m1 m2 : N) : Prop :=
  exists pre counter,
    isDigit h1 = true /\ isDigit h2 = true /\ isDigit m1 = true /\ isDigit m2 = true
    /\ isClipCounter counter
    /\ filename = pre ++ [h1; h2; DOT; m1; m2] ++ counter ++ js ".m4a".

(** ** Concrete environments for the examples *)

Module Samples.

(** Lower case of the letters A to Z, which is [toLowerCase] on strings
    whose letters are ASCII. *)
Definition asciiLower (s : jsstring) : jsstring :=
  List.map (fun c => if ((65 <=? c) && (c <=? 90))%N then (c + 32)%N else c) s.

Definition noKeys : Config := mkConfig [] [].
Definition geminiOnly : Config := mkConfig [] (js "key").
Definition googleOnly : Config := mkConfig (js "key") [].

(** A bulk service that translates [a] and [b] and answers the phrase
    [a b] with the empty string. *)
Definition emptyAnswer (n : nat) (source target : jsstring) (batch : list jsstring)
  : option (list jsstring) :=
  Some (List.map
          (fun t => if bool_decide (t = js "a b") then []
                    else if bool_decide (t = js "a") then js "x" else js "y")
          batch).

(** A prompt service that is never reached. *)
Definition noGemini (n : nat) (source target : jsstring) (batch : list jsstring)
  : option jsstring := None.

(** A bulk service that is never reached. *)
Definition noGoogle (n : nat) (source target : jsstring) (batch : list jsstring)
  : option (list jsstring) := None.

Definition emptyWorld : World := mkWorld ∅ ∅ [].

(** A Lexicon with the phrase of the example of the specification. *)
Definition sampleWorld : World := mkWorld (<[js "cai nay" := js "this"]> ∅) ∅ [].

Definition sampleInput : jsstring := js "cai nay la cua ai".

(** Prompt services: a reply of one line, and replies of three lines. *)
Definition shortReply (n : nat) (source target : jsstring) (batch : list jsstring)
  : option jsstring := Some (js "1. x").

Definition fullReply (n : nat) (source target : jsstring) (batch : list jsstring)
  : option jsstring := Some (js "1. x
2. a b
3. b").

(** A table with two candidates of equal total at position 2. *)
Definition tieSpans : list (list (option Span)) :=
  [[None; Some (mkSpan (js "a") (Some (js "a")) false 1);
    Some (mkSpan (js "a b") (Some (js "a b")) false 2)];
   [None; Some (mkSpan (js "b") (Some (js "b")) false 1); None]].

(** The scored table of the example, without any key. *)
Definition sampleScored : list (list (option Span)) :=
  Eval vm_compute in
    match (scoredSpans asciiLower noKeys noGemini noGoogle
             (syllablesOf sampleInput) sampleWorld).1 with
    | Ok t => t
    | Throw _ => []
    end.

Definition sampleScoredWorld : World :=
  Eval vm_compute in
    (scoredSpans asciiLower noKeys noGemini noGoogle
       (syllablesOf sampleInput) sampleWorld).2.

(** The two syllables [a b] with the one-line reply. *)
Definition shortResolved : list (list (option Span)) :=
  Eval vm_compute in
    match (resolveSpans asciiLower geminiOnly shortReply noGoogle
             [js "a"; js "b"] emptyWorld).1 with
    | Ok t => t
    | Throw _ => []
    end.

Definition shortResolvedWorld : World :=
  Eval vm_compute in
    (resolveSpans asciiLower geminiOnly shortReply noGoogle
       [js "a"; js "b"] emptyWorld).2.

Definition shortScored : list (list (option Span)) :=
  Eval vm_compute in
    match (scoreAll asciiLower 2 2 shortResolved shortResolvedWorld).1 with
    | Ok t => t
    | Throw _ => []
    end.

Definition shortScoredWorld : World :=
  Eval vm_compute in (scoreAll asciiLower 2 2 shortResolved shortResolvedWorld).2.

(** The same syllables with the bulk service that answers [a b] with the
    empty string. *)
Definition emptyResolved : list (list (option Span)) :=
  Eval vm_compute in
    match (resolveSpans asciiLower googleOnly noGemini emptyAnswer
             [js "a"; js "b"] emptyWorld).1 with
    | Ok t => t
    | Throw _ => []
    end.

Definition emptyResolvedWorld : World :=
  Eval vm_compute in
    (resolveSpans asciiLower googleOnly noGemini emptyAnswer
       [js "a"; js "b"] emptyWorld).2.

Definition emptyScored : list (list (option Span)) :=
  Eval vm_compute in
    match (scoreAll asciiLower 2 2 emptyResolved emptyResolvedWorld).1 with
    | Ok t => t
    | Throw _ => []
    end.

Definition emptyScoredWorld : World :=
  Eval vm_compute in (scoreAll asciiLower 2 2 emptyResolved emptyResolvedWorld).2.

(** A call of the prompt client for two texts, with the one-line reply. *)
Definition shortResults : list (option jsstring) :=
  Eval vm_compute in
    match (geminiTranslate shortReply [js "a"; js "b"] (js "vi") (js "en") emptyWorld).1 with
    | Ok r => r
    | Throw _ => []
    end.

Definition shortWorld : World :=
  Eval vm_compute in
    (geminiTranslate shortReply [js "a"; js "b"] (js "vi") (js "en") emptyWorld).2.

(** A Lexicon in which one entry is the start of another. *)
Definition nestedLexicon : gmap jsstring jsstring :=
  <[js "a b" := js "ab"]> (<[js "c d" := js "cd"]> (<[js "a b c" := js "abc"]> ∅)).








End Samples.
Import Samples.

(** ** Concrete runs for the examples of the further properties *)

Module Runs.

(** The two syllables [a b] through the segmenter, with the one-line reply. *)
Definition shortSegmented : Result (list WordBreakdown) * World :=
  Eval vm_compute in
    smartSegmentAndTranslate asciiLower geminiOnly shortReply noGoogle (js "a b")
      emptyWorld.


(** Twenty-one texts of one letter, [a] to [u]: two batches of the prompt
    client. *)
Definition manyTexts : list jsstring :=
  Eval vm_compute in List.map (fun k => [N.of_nat (97 + k)]) (seq 0 21).

(** A prompt service that answers its first request with an empty text and
    refuses every other. *)
Definition failSecond (n : nat) (source target : jsstring) (batch : list jsstring)
  : option jsstring := if Nat.eqb n 0 then Some [] else None.

Definition failedCall : Result (list (option jsstring)) * World :=
  Eval vm_compute in
    geminiTranslate failSecond manyTexts (js "vi") (js "en") emptyWorld.

(** A second call of the prompt client, after the call for two texts. *)
Definition secondCall : Result (list (option jsstring)) * World :=
  Eval vm_compute in
    googleTranslate geminiOnly fullReply noGoogle [js "c"] (js "vi") (js "en") shortWorld.

(** Two utterances of a run. *)
Definition sampleUtterances : list ProcessedUtterance :=
  [mkUtterance (js "clip.m4a") (js "18:56") (js "Ba") (js "A b c, a b") [] None;
   mkUtterance (js "clip.m4a") (js "18:56") (js "Me") (js "c d") [] None].

End Runs.
Import Runs.

(** * Properties *)

(** ** JS numbers that are integers *)

Module Numbers.

Import SpecFloat.

Lemma Zpos_dbl v j : (Zpos (dbl v j) = Zpos v * 2 ^ Z.of_nat j)%Z.
Proof.
  induction j as [|j IH].
  - simpl. lia.
  - unfold dbl in *. simpl Nat.iter. rewrite Pos2Z.inj_xO, IH.
    rewrite Nat2Z.inj_succ, Z.pow_succ_r by lia. lia.
Qed.

Lemma digits_dbl v j :
  (Zpos (digits2_pos (dbl v j)) = Zpos (digits2_pos v) + Z.of_nat j)%Z.
Proof.
  induction j as [|j IH].
  - simpl. lia.
  - unfold dbl in *. simpl Nat.iter. simpl digits2_pos. lia.
Qed.

Lemma Pos_iter_dbl v q : Pos.iter xO v q = dbl v (Pos.to_nat q).
Proof.
  rewrite Pos2Nat.inj_iter. unfold dbl.
  induction (Pos.to_nat q) as [|n IH]; simpl; [done | by rewrite IH].
Qed.

Lemma iter_pos_nat {A} (f : A -> A) p : forall x,
  SpecFloat.iter_pos f p x = Nat.iter (Pos.to_nat p) f x.
Proof.
  induction p as [p IH|p IH|]; intros x; cbn [SpecFloat.iter_pos].
  - rewrite !IH. rewrite Pos2Nat.inj_xI.
    replace (S (2 * Pos.to_nat p)) with (Pos.to_nat p + (Pos.to_nat p + 1)) by lia.
    rewrite !Nat.iter_add. simpl. done.
  - rewrite !IH. rewrite Pos2Nat.inj_xO.
    replace (2 * Pos.to_nat p) with (Pos.to_nat p + Pos.to_nat p) by lia.
    by rewrite Nat.iter_add.
  - done.
Qed.

(** Shifting right a mantissa that ends with zeros loses nothing. *)
Lemma shr_dbl v k : forall j,
  k <= j ->
  Nat.iter k shr_1 {| shr_m := Zpos (dbl v j); shr_r := false; shr_s := false |}
  = {| shr_m := Zpos (dbl v (j - k)); shr_r := false; shr_s := false |}.
Proof.
  induction k as [|k IH]; intros j Hk.
  - simpl. by rewrite Nat.sub_0_r.
  - simpl. rewrite IH by lia.
    replace (j - k) with (S (j - S k)) by lia. done.
Qed.

Lemma digits_bound v :
  (2 ^ (Zpos (digits2_pos v) - 1) <= Zpos v < 2 ^ Zpos (digits2_pos v))%Z.
Proof.
  induction v as [v IH|v IH|]; cbn [digits2_pos].
  - rewrite Pos2Z.inj_succ.
    replace (Z.succ (Zpos (digits2_pos v)) - 1)%Z with (Zpos (digits2_pos v)) by lia.
    rewrite Z.pow_succ_r by lia.
    replace (2 ^ Zpos (digits2_pos v))%Z with (2 * 2 ^ (Zpos (digits2_pos v) - 1))%Z in *
      by (rewrite <- Z.pow_succ_r by lia; f_equal; lia).
    lia.
  - rewrite Pos2Z.inj_succ.
    replace (Z.succ (Zpos (digits2_pos v)) - 1)%Z with (Zpos (digits2_pos v)) by lia.
    rewrite Z.pow_succ_r by lia.
    replace (2 ^ Zpos (digits2_pos v))%Z with (2 * 2 ^ (Zpos (digits2_pos v) - 1))%Z in *
      by (rewrite <- Z.pow_succ_r by lia; f_equal; lia).
    lia.
  - simpl. lia.
Qed.

Lemma digits_le_53 v : (Zpos v < 2 ^ 53 -> Zpos (digits2_pos v) <= 53)%Z.
Proof.
  intros Hv. pose proof (digits_bound v) as [Hlo _].
  destruct (Z_le_gt_dec (Zpos (digits2_pos v)) 53) as [|Hgt]; [done |].
  assert (2 ^ 53 <= 2 ^ (Zpos (digits2_pos v) - 1))%Z by (apply Z.pow_le_mono_r; lia).
  lia.
Qed.

Lemma round_aux_canon s v :
  (Zpos v < 2 ^ 53)%Z ->
  binary_round_aux 53 1024 s
    (Zpos (dbl v (Z.to_nat (53 - Zpos (digits2_pos v)))))
    (Zpos (digits2_pos v) - 53) loc_Exact
  = canon s v.
Proof.
  intros Hv. pose proof (digits_le_53 v Hv) as Hd.
  assert (0 < Zpos (digits2_pos v))%Z as Hpos by lia.
  unfold binary_round_aux, shr_fexp, Zdigits2, fexp, emin.
  rewrite digits_dbl. rewrite Z2Nat.id by lia.
  replace (Z.max _ _ - _)%Z with 0%Z by lia.
  simpl shr. cbn [shr_m loc_of_shr_record round_nearest_even shr_record_of_loc].
  rewrite digits_dbl, Z2Nat.id by lia.
  replace (Z.max _ _ - _)%Z with 0%Z by lia.
  simpl shr. cbn [shr_m].
  rewrite (proj2 (Z.leb_le _ _)) by lia. done.
Qed.

(** Rounding an integer below [2^53], written with [n] more zeros at
    exponent [-n], gives the integer. *)
Lemma round_dbl s v (n : nat) :
  (Zpos v < 2 ^ 53)%Z ->
  binary_round 53 1024 s (dbl v n) (- Z.of_nat n) = canon s v.
Proof.
  intros Hv. pose proof (digits_le_53 v Hv) as Hd.
  assert (0 < Zpos (digits2_pos v))%Z as Hpos by lia.
  unfold binary_round. rewrite digits_dbl.
  replace (fexp 53 1024 (Zpos (digits2_pos v) + Z.of_nat n + - Z.of_nat n))
    with (Zpos (digits2_pos v) - 53)%Z by (unfold fexp, emin; lia).
  unfold shl_align.
  destruct (Zpos (digits2_pos v) - 53 - - Z.of_nat n)%Z as [|q|q] eqn:Hq.
  - assert (n = Z.to_nat (53 - Zpos (digits2_pos v))) as Hn by lia.
    replace (- Z.of_nat n)%Z with (Zpos (digits2_pos v) - 53)%Z by lia.
    rewrite Hn at 1. by apply round_aux_canon.
  - unfold binary_round_aux, shr_fexp, Zdigits2, fexp, emin.
    rewrite digits_dbl.
    replace (Z.max _ _ - _)%Z with (Zpos q) by lia.
    cbn [shr shr_record_of_loc]. rewrite iter_pos_nat, shr_dbl by lia.
    cbn [shr_m loc_of_shr_record round_nearest_even shr_record_of_loc].
    rewrite digits_dbl.
    replace (Z.max _ _ - _)%Z with 0%Z by lia.
    simpl shr. cbn [shr_m].
    rewrite (proj2 (Z.leb_le _ _)) by lia.
    unfold canon. f_equal; [f_equal; lia | lia].
  - rewrite Pos_iter_dbl.
    assert (dbl (dbl v n) (Pos.to_nat q)
            = dbl v (Z.to_nat (53 - Zpos (digits2_pos v)))) as ->.
    { unfold dbl. rewrite <- Nat.iter_add. f_equal. lia. }
    by apply round_aux_canon.
Qed.

Lemma numOfZ_pos v : (Zpos v < 2 ^ 53)%Z -> numOfZ (Zpos v) = canon false v.
Proof. intros Hv. apply (round_dbl false v 0 Hv). Qed.

Lemma numOfZ_neg v : (Zpos v < 2 ^ 53)%Z -> numOfZ (Zneg v) = canon true v.
Proof. intros Hv. apply (round_dbl true v 0 Hv). Qed.

Lemma numOfZ_cases z :
  (Z.abs z < 2 ^ 53)%Z ->
  match z with
  | Z0 => numOfZ z = S754_zero false
  | Zpos v => numOfZ z = canon false v
  | Zneg v => numOfZ z = canon true v
  end.
Proof.
  destruct z; intros Hz; [done | apply numOfZ_pos; lia | apply numOfZ_neg; lia].
Qed.

Lemma canon_align v ez :
  (Zpos v < 2 ^ 53)%Z -> (ez <= Zpos (digits2_pos v) - 53)%Z ->
  fst (shl_align (dbl v (Z.to_nat (53 - Zpos (digits2_pos v))))
         (Zpos (digits2_pos v) - 53) ez)
  = dbl v (Z.to_nat (- ez)).
Proof.
  intros Hv Hez. pose proof (digits_le_53 v Hv) as Hd.
  unfold shl_align.
  destruct (ez - (Zpos (digits2_pos v) - 53))%Z as [|q|q] eqn:Hq; cbn [fst].
  - f_equal. lia.
  - lia.
  - rewrite Pos_iter_dbl. unfold dbl. rewrite <- Nat.iter_add. f_equal. lia.
Qed.

Lemma normalize_scaled z (n : nat) :
  (Z.abs z < 2 ^ 53)%Z ->
  binary_normalize 53 1024 (z * 2 ^ Z.of_nat n) (- Z.of_nat n) false = numOfZ z.
Proof.
  intros Hz. destruct z as [|v|v].
  - done.
  - rewrite <- Zpos_dbl. cbn [binary_normalize].
    rewrite round_dbl by lia. symmetry. apply numOfZ_pos. lia.
  - replace (Z.neg v * 2 ^ Z.of_nat n)%Z with (Z.neg (dbl v n))
      by (rewrite <- !Pos2Z.opp_pos, Zpos_dbl; lia).
    cbn [binary_normalize].
    rewrite round_dbl by lia. symmetry. apply numOfZ_neg. lia.
Qed.

Lemma add_canon sa va sb vb :
  (Zpos va < 2 ^ 53)%Z -> (Zpos vb < 2 ^ 53)%Z ->
  (Z.abs (cond_Zopp sa (Zpos va) + cond_Zopp sb (Zpos vb)) < 2 ^ 53)%Z ->
  numAdd (canon sa va) (canon sb vb)
  = numOfZ (cond_Zopp sa (Zpos va) + cond_Zopp sb (Zpos vb)).
Proof.
  intros Ha Hb Hsum.
  pose proof (digits_le_53 va Ha) as Hda. pose proof (digits_le_53 vb Hb) as Hdb.
  unfold numAdd, canon, SFadd.
  set (ez := Z.min (Zpos (digits2_pos va) - 53) (Zpos (digits2_pos vb) - 53)).
  rewrite !canon_align by lia.
  rewrite <- (normalize_scaled _ (Z.to_nat (- ez))) by done.
  rewrite Z2Nat.id by lia. rewrite Z.opp_involutive.
  f_equal. rewrite !Zpos_dbl, Z2Nat.id by lia.
  destruct sa, sb; cbn [cond_Zopp]; lia.
Qed.

(** Integers of magnitude below [2^53] whose sum is so add exactly. *)
Lemma numAdd_exact a b :
  (Z.abs a < 2 ^ 53)%Z -> (Z.abs b < 2 ^ 53)%Z -> (Z.abs (a + b) < 2 ^ 53)%Z ->
  numAdd (numOfZ a) (numOfZ b) = numOfZ (a + b).
Proof.
  intros Ha Hb Hsum.
  pose proof (numOfZ_cases a Ha) as Ea. pose proof (numOfZ_cases b Hb) as Eb.
  destruct a as [|va|va], b as [|vb|vb]; rewrite ?Ea, ?Eb; try done.
  - apply (add_canon false va false vb); cbn [cond_Zopp]; lia.
  - apply (add_canon false va true vb); cbn [cond_Zopp]; lia.
  - apply (add_canon true va false vb); cbn [cond_Zopp]; lia.
  - apply (add_canon true va true vb); cbn [cond_Zopp]; lia.
Qed.

Lemma numOfZ_opp z :
  (Z.abs z < 2 ^ 53)%Z -> z <> 0%Z -> numOfZ (- z) = SFopp (numOfZ z).
Proof.
  intros Hz Hne. destruct z as [|v|v]; [done | |].
  - change (- Z.pos v)%Z with (Z.neg v). rewrite numOfZ_pos, numOfZ_neg by lia. done.
  - change (- Z.neg v)%Z with (Z.pos v). rewrite numOfZ_pos, numOfZ_neg by lia. done.
Qed.

Lemma SFsub_add x y : SFsub 53 1024 x y = SFadd 53 1024 x (SFopp y).
Proof.
  destruct x as [sx|sx| |sx mx ex], y as [sy|sy| |sy my ey]; try done;
    try (by destruct sx, sy).
Qed.

(** And they subtract exactly. *)
Lemma numSub_exact a b :
  (Z.abs a < 2 ^ 53)%Z -> (Z.abs b < 2 ^ 53)%Z -> (Z.abs (a - b) < 2 ^ 53)%Z ->
  numSub (numOfZ a) (numOfZ b) = numOfZ (a - b).
Proof.
  intros Ha Hb Hd. unfold numSub.
  destruct (decide (b = 0%Z)) as [->|Hne].
  - rewrite Z.sub_0_r. pose proof (numOfZ_cases a Ha) as Ea.
    destruct a; rewrite Ea; reflexivity.
  - rewrite SFsub_add, <- numOfZ_opp by lia.
    apply (numAdd_exact a (- b)); lia.
Qed.

Lemma numPositive_exact z :
  (Z.abs z < 2 ^ 53)%Z -> numPositive (numOfZ z) = (0 <? z)%Z.
Proof.
  intros Hz. pose proof (numOfZ_cases z Hz) as E.
  destruct z; rewrite E; reflexivity.
Qed.

Lemma numTruthy_exact z :
  (Z.abs z < 2 ^ 53)%Z -> numTruthy (numOfZ z) = negb (z =? 0)%Z.
Proof.
  intros Hz. pose proof (numOfZ_cases z Hz) as E.
  destruct z; rewrite E; reflexivity.
Qed.

Lemma numToZ_canon s v :
  (Zpos v < 2 ^ 53)%Z -> numToZ (canon s v) = Some (cond_Zopp s (Zpos v)).
Proof.
  intros Hv. pose proof (digits_le_53 v Hv) as Hd.
  assert (0 < Zpos (digits2_pos v))%Z as Hpos by lia.
  unfold canon, numToZ. rewrite Zpos_dbl, Z2Nat.id by lia.
  destruct (0 <=? Zpos (digits2_pos v) - 53)%Z eqn:He.
  - apply Z.leb_le in He.
    replace (Zpos (digits2_pos v) - 53)%Z with 0%Z by lia.
    replace (53 - Zpos (digits2_pos v))%Z with 0%Z by lia.
    rewrite Z.pow_0_r, !Z.mul_1_r. by destruct s.
  - apply Z.leb_gt in He.
    replace (- (Zpos (digits2_pos v) - 53))%Z with (53 - Zpos (digits2_pos v))%Z by lia.
    assert (0 < 2 ^ (53 - Zpos (digits2_pos v)))%Z as Hp by (apply Z.pow_pos_nonneg; lia).
    rewrite Z.mod_mul, Z.div_mul by lia. simpl. by destruct s.
Qed.

(** The number of an integer of magnitude below [2^53] is that integer. *)
Lemma numToZ_numOfZ z : (Z.abs z < 2 ^ 53)%Z -> numToZ (numOfZ z) = Some z.
Proof.
  intros Hz. pose proof (numOfZ_cases z Hz) as E.
  destruct z as [|v|v]; rewrite E; [done | |]; rewrite numToZ_canon by lia; done.
Qed.

Lemma numOfZ_inj a b :
  (Z.abs a < 2 ^ 53)%Z -> (Z.abs b < 2 ^ 53)%Z -> numOfZ a = numOfZ b -> a = b.
Proof.
  intros Ha Hb Heq. apply (f_equal numToZ) in Heq.
  rewrite !numToZ_numOfZ in Heq by done. by injection Heq.
Qed.

(** [merged.get(word) || 0] on counts that are safe. *)
Lemma orZero_exact (v : option Z) :
  (Z.abs (default 0%Z v) < 2 ^ 53)%Z ->
  orZero (numOfZ <$> v) = numOfZ (default 0%Z v).
Proof.
  destruct v as [z|]; simpl; [| done]. intros Hz.
  rewrite numTruthy_exact by done. by destruct (Z.eqb_spec z 0) as [->|].
Qed.

End Numbers.

(** ** Frequency aggregator *)

Module Frequency.

(** *** Maps *)

Lemma mapGet_mapSet_eq {V} (m : list (jsstring * V)) w v :
  mapGet (mapSet m w v) w = Some v.
Proof.
  induction m as [|[k u] m IH]; simpl.
  - by rewrite bool_decide_eq_true_2.
  - destruct (bool_decide (k = w)) eqn:E; simpl; rewrite E; [done | apply IH].
Qed.

Lemma mapGet_mapSet_ne {V} (m : list (jsstring * V)) w w' v :
  w ≠ w' -> mapGet (mapSet m w v) w' = mapGet m w'.
Proof.
  intros Hne. induction m as [|[k u] m IH]; simpl.
  - by rewrite bool_decide_eq_false_2.
  - destruct (bool_decide (k = w)) eqn:E; simpl.
    + apply bool_decide_eq_true_1 in E as ->.
      by rewrite !bool_decide_eq_false_2.
    + by rewrite IH.
Qed.

Lemma mapSet_keys_in {V} (m : list (jsstring * V)) w v :
  w ∈ m.*1 -> (mapSet m w v).*1 = m.*1.
Proof.
  induction m as [|[k u] m IH]; simpl; [by intros ?%elem_of_nil |].
  intros Hin. destruct (bool_decide (k = w)) eqn:E; simpl; [done |].
  apply bool_decide_eq_false_1 in E.
  apply elem_of_cons in Hin as [->|Hin]; [done |]. f_equal. by apply IH.
Qed.

Lemma mapSet_fresh {V} (m : list (jsstring * V)) w v :
  w ∉ m.*1 -> mapSet m w v = m ++ [(w, v)].
Proof.
  induction m as [|[k u] m IH]; simpl; [done |].
  intros Hnin. apply not_elem_of_cons in Hnin as [Hne Hnin].
  rewrite bool_decide_eq_false_2 by done. by rewrite IH.
Qed.

Lemma mapSet_NoDup {V} (m : list (jsstring * V)) w v :
  NoDup m.*1 -> NoDup (mapSet m w v).*1.
Proof.
  intros Hnd. destruct (decide (w ∈ m.*1)) as [Hin|Hnin].
  - by rewrite mapSet_keys_in.
  - rewrite mapSet_fresh, fmap_app by done. simpl.
    apply NoDup_app. split_and!; [done | | apply NoDup_singleton].
    intros x Hx ->%list_elem_of_singleton. done.
Qed.

Lemma mapGet_None {V} (m : list (jsstring * V)) w : mapGet m w = None <-> w ∉ m.*1.
Proof.
  induction m as [|[k u] m IH]; simpl.
  - split; [intros _; apply not_elem_of_nil | done].
  - rewrite not_elem_of_cons. destruct (bool_decide (k = w)) eqn:E.
    + apply bool_decide_eq_true_1 in E. split; [done | by intros []].
    + apply bool_decide_eq_false_1 in E. rewrite IH.
      split; [intros; split; [congruence | done] | by intros []].
Qed.

Lemma mapGet_Some {V} (m : list (jsstring * V)) w v :
  NoDup m.*1 -> mapGet m w = Some v <-> (w, v) ∈ m.
Proof.
  induction m as [|[k u] m IH]; simpl; intros Hnd.
  - split; [done | by intros ?%elem_of_nil].
  - apply NoDup_cons in Hnd as [Hk Hnd]. rewrite elem_of_cons.
    destruct (bool_decide (k = w)) eqn:E.
    + apply bool_decide_eq_true_1 in E as ->. split.
      * intros [= ->]. by left.
      * intros [[= ->]|Hin]; [done |].
        destruct Hk. apply list_elem_of_fmap. by exists (w, v).
    + apply bool_decide_eq_false_1 in E. rewrite IH by done. split.
      * by right.
      * intros [[= -> ->]|Hin]; done.
Qed.

Lemma mapGet_elem {V} (m : list (jsstring * V)) w v : mapGet m w = Some v -> (w, v) ∈ m.
Proof.
  induction m as [|[k u] m IH]; simpl; [done |].
  destruct (bool_decide (k = w)) eqn:E.
  - apply bool_decide_eq_true_1 in E as ->. intros [= ->]. by left.
  - intros H. right. by apply IH.
Qed.

Lemma mapGet_Permutation {V} (m m' : list (jsstring * V)) w :
  NoDup m.*1 -> m ≡ₚ m' -> mapGet m w = mapGet m' w.
Proof.
  intros Hnd Hp.
  assert (NoDup m'.*1) as Hnd' by by rewrite <- Hp.
  destruct (mapGet m' w) as [v|] eqn:E.
  - apply mapGet_Some; [done |]. rewrite Hp. by apply mapGet_Some.
  - apply mapGet_None. rewrite Hp. by apply mapGet_None.
Qed.

Lemma loadCounts_app {V} (acc existing : list (jsstring * V)) :
  NoDup (acc ++ existing).*1 ->
  fold_left (fun merged entry => mapSet merged entry.1 entry.2) existing acc
  = acc ++ existing.
Proof.
  revert acc. induction existing as [|[k v] existing IH]; intros acc Hnd; simpl.
  - by rewrite app_nil_r.
  - rewrite mapSet_fresh.
    + rewrite IH; rewrite <- app_assoc; done.
    + rewrite fmap_app in Hnd. apply NoDup_app in Hnd as (_ & Hdisj & _).
      intros Hin. apply (Hdisj k Hin). simpl. apply elem_of_cons. by left.
Qed.

Lemma loadCounts_id {V} (existing : list (jsstring * V)) :
  NoDup existing.*1 -> loadCounts existing = existing.
Proof. intros Hnd. unfold loadCounts. by rewrite loadCounts_app. Qed.

Lemma loadCounts_NoDup {V} (existing : list (jsstring * V)) : forall acc,
  NoDup acc.*1 ->
  NoDup (fold_left (fun merged entry => mapSet merged entry.1 entry.2) existing acc).*1.
Proof.
  induction existing as [|e existing IH]; intros acc Hnd; simpl; [done |].
  apply IH. by apply mapSet_NoDup.
Qed.

Lemma loadCounts_other {V} (existing : list (jsstring * V)) w : forall acc,
  w ∉ existing.*1 ->
  mapGet (fold_left (fun merged entry => mapSet merged entry.1 entry.2) existing acc) w
  = mapGet acc w.
Proof.
  induction existing as [|e existing IH]; intros acc Hnin; simpl; [done |].
  rewrite fmap_cons in Hnin. apply not_elem_of_cons in Hnin as [Hne Hnin].
  rewrite IH by done. apply mapGet_mapSet_ne. intros Heq. by apply Hne.
Qed.

(** *** The exact merge *)

Lemma exactAddCounts_cons e newCounts (merged : list (jsstring * Z)) :
  exactAddCounts merged (e :: newCounts)
  = exactAddCounts (mapSet merged e.1 (default 0 (mapGet merged e.1) + e.2.1)%Z) newCounts.
Proof. reflexivity. Qed.

Lemma exactAddCounts_NoDup newCounts (merged : list (jsstring * Z)) :
  NoDup merged.*1 -> NoDup (exactAddCounts merged newCounts).*1.
Proof.
  revert merged. induction newCounts as [|e newCounts IH]; intros merged Hnd.
  - done.
  - rewrite exactAddCounts_cons. apply IH. by apply mapSet_NoDup.
Qed.

Lemma exactAddCounts_other newCounts (merged : list (jsstring * Z)) w :
  w ∉ newCounts.*1 -> mapGet (exactAddCounts merged newCounts) w = mapGet merged w.
Proof.
  revert merged. induction newCounts as [|e newCounts IH]; intros merged Hnin.
  - done.
  - rewrite fmap_cons in Hnin. apply not_elem_of_cons in Hnin as [Hne Hnin].
    rewrite exactAddCounts_cons, IH by done. by apply mapGet_mapSet_ne.
Qed.

Lemma exactAddCounts_entry newCounts (merged : list (jsstring * Z)) w c tr :
  NoDup newCounts.*1 -> (w, (c, tr)) ∈ newCounts ->
  mapGet (exactAddCounts merged newCounts) w = Some (default 0 (mapGet merged w) + c)%Z.
Proof.
  revert merged. induction newCounts as [|e newCounts IH]; intros merged Hnd Hin.
  - by apply elem_of_nil in Hin.
  - rewrite fmap_cons in Hnd. apply NoDup_cons in Hnd as [He Hnd].
    rewrite exactAddCounts_cons.
    apply elem_of_cons in Hin as [<-|Hin].
    + rewrite (exactAddCounts_other newCounts _ w He). apply mapGet_mapSet_eq.
    + rewrite IH by done.
      rewrite mapGet_mapSet_ne; [done |].
      intros Heq. apply He. apply list_elem_of_fmap. by exists (w, (c, tr)).
Qed.

Lemma exactInsert_Permutation e sorted : exactInsert e sorted ≡ₚ e :: sorted.
Proof.
  induction sorted as [|e' rest IH]; simpl; [done |].
  destruct (e.2 <? e'.2)%Z; [| done].
  rewrite IH. apply Permutation_swap.
Qed.

Lemma exactSort_Permutation entries : exactSort entries ≡ₚ entries.
Proof.
  induction entries as [|e entries IH]; simpl; [done |].
  by rewrite exactInsert_Permutation, IH.
Qed.

Lemma exactInsert_sorted e sorted :
  StronglySorted byCountDesc sorted -> StronglySorted byCountDesc (exactInsert e sorted).
Proof.
  induction sorted as [|e' rest IH]; simpl; intros Hs.
  - repeat constructor.
  - apply StronglySorted_inv in Hs as [Hrest Hall].
    destruct (e.2 <? e'.2)%Z eqn:E.
    + apply Z.ltb_lt in E. constructor; [by apply IH |].
      rewrite exactInsert_Permutation. constructor; [unfold byCountDesc; lia | done].
    + apply Z.ltb_ge in E. constructor; [by constructor |].
      constructor; [done |].
      eapply Forall_impl; [exact Hall |]. unfold byCountDesc. intros; simpl in *; lia.
Qed.

Lemma exactSort_sorted entries : StronglySorted byCountDesc (exactSort entries).
Proof.
  induction entries as [|e entries IH]; simpl; [constructor |].
  by apply exactInsert_sorted.
Qed.

Lemma exactSort_id entries :
  StronglySorted byCountDesc entries -> exactSort entries = entries.
Proof.
  induction entries as [|e entries IH]; simpl; intros Hs; [done |].
  apply StronglySorted_inv in Hs as [Hrest Hall]. rewrite IH by done.
  destruct entries as [|e' rest]; simpl; [done |].
  apply Forall_cons in Hall as [He _]. unfold byCountDesc in He.
  by rewrite (proj2 (Z.ltb_ge _ _) He).
Qed.

Lemma exactMerge_NoDup table delta :
  NoDup table.*1 -> NoDup (exactMerge (Some table) delta).*1.
Proof.
  intros Hnd. unfold exactMerge. simpl.
  rewrite exactSort_Permutation. apply exactAddCounts_NoDup. by rewrite loadCounts_id.
Qed.

Lemma exactMerge_get table delta w :
  NoDup table.*1 ->
  mapGet (exactMerge (Some table) delta) w = mapGet (exactAddCounts table delta) w.
Proof.
  intros Hnd. unfold exactMerge. simpl. rewrite loadCounts_id by done.
  symmetry. apply mapGet_Permutation; [by apply exactAddCounts_NoDup |].
  symmetry. apply exactSort_Permutation.
Qed.

Lemma exactMerge_entry table delta w c tr :
  NoDup table.*1 -> NoDup delta.*1 -> (w, (c, tr)) ∈ delta ->
  mapGet (exactMerge (Some table) delta) w = Some (default 0 (mapGet table w) + c)%Z.
Proof. intros Ht Hd Hin. rewrite exactMerge_get by done. by eapply exactAddCounts_entry. Qed.

Lemma exactMerge_other table delta w :
  NoDup table.*1 -> w ∉ delta.*1 ->
  mapGet (exactMerge (Some table) delta) w = mapGet table w.
Proof. intros Ht Hw. rewrite exactMerge_get by done. by apply exactAddCounts_other. Qed.

(** *** The merge of the code *)

Lemma addCounts_cons e newCounts (merged : CountMap) :
  addCounts merged (e :: newCounts)
  = addCounts (mapSet merged e.1
                 (numAdd (orZero (mapGet merged e.1)) (numOfZ e.2.1))) newCounts.
Proof. reflexivity. Qed.

Lemma addCounts_NoDup newCounts (merged : CountMap) :
  NoDup merged.*1 -> NoDup (addCounts merged newCounts).*1.
Proof.
  revert merged. induction newCounts as [|e newCounts IH]; intros merged Hnd.
  - done.
  - rewrite addCounts_cons. apply IH. by apply mapSet_NoDup.
Qed.

Lemma addCounts_other newCounts (merged : CountMap) w :
  w ∉ newCounts.*1 -> mapGet (addCounts merged newCounts) w = mapGet merged w.
Proof.
  revert merged. induction newCounts as [|e newCounts IH]; intros merged Hnin.
  - done.
  - rewrite fmap_cons in Hnin. apply not_elem_of_cons in Hnin as [Hne Hnin].
    rewrite addCounts_cons, IH by done. by apply mapGet_mapSet_ne.
Qed.

Lemma addCounts_entry newCounts (merged : CountMap) w c tr :
  NoDup newCounts.*1 -> (w, (c, tr)) ∈ newCounts ->
  mapGet (addCounts merged newCounts) w
  = Some (numAdd (orZero (mapGet merged w)) (numOfZ c)).
Proof.
  revert merged. induction newCounts as [|e newCounts IH]; intros merged Hnd Hin.
  - by apply elem_of_nil in Hin.
  - rewrite fmap_cons in Hnd. apply NoDup_cons in Hnd as [He Hnd].
    rewrite addCounts_cons.
    apply elem_of_cons in Hin as [<-|Hin].
    + rewrite (addCounts_other newCounts _ w He). apply mapGet_mapSet_eq.
    + rewrite IH by done.
      rewrite mapGet_mapSet_ne; [done |].
      intros Heq. apply He. apply list_elem_of_fmap. by exists (w, (c, tr)).
Qed.

Lemma insertByCount_Permutation e sorted : insertByCount e sorted ≡ₚ e :: sorted.
Proof.
  induction sorted as [|e' rest IH]; simpl; [done |].
  destruct (numPositive _); [| done].
  rewrite IH. apply Permutation_swap.
Qed.

Lemma sortByCount_Permutation entries : sortByCount entries ≡ₚ entries.
Proof.
  induction entries as [|e entries IH]; simpl; [done |].
  by rewrite insertByCount_Permutation, IH.
Qed.

(** What is written has one entry per word, whatever the file holds. *)
Lemma merge_NoDup file delta : NoDup (mergeWordFrequency file delta).*1.
Proof.
  unfold mergeWordFrequency. rewrite sortByCount_Permutation.
  apply addCounts_NoDup. apply loadCounts_NoDup. constructor.
Qed.

Lemma merge_get file delta w :
  mapGet (mergeWordFrequency file delta) w
  = mapGet (addCounts (loadCounts (default [] file)) delta) w.
Proof.
  unfold mergeWordFrequency. symmetry. apply mapGet_Permutation.
  - apply addCounts_NoDup. apply loadCounts_NoDup. constructor.
  - symmetry. apply sortByCount_Permutation.
Qed.

(** *** The merge of the code on safe counts is the exact merge *)

Lemma asNumbers_keys table : (asNumbers table).*1 = table.*1.
Proof. unfold asNumbers. induction table as [|[k v] table IH]; simpl; by f_equal. Qed.

Lemma mapGet_asNumbers table w : mapGet (asNumbers table) w = numOfZ <$> mapGet table w.
Proof.
  induction table as [|[k v] table IH]; simpl; [done |].
  by destruct (bool_decide (k = w)).
Qed.

Lemma mapSet_asNumbers table w v :
  mapSet (asNumbers table) w (numOfZ v) = asNumbers (mapSet table w v).
Proof.
  induction table as [|[k u] table IH]; simpl; [done |].
  destruct (bool_decide (k = w)); simpl; [done |]. by rewrite IH.
Qed.

Lemma loadCounts_asNumbers table : forall acc,
  fold_left (fun merged entry => mapSet merged entry.1 entry.2) (asNumbers table)
    (asNumbers acc)
  = asNumbers (fold_left (fun merged entry => mapSet merged entry.1 entry.2) table acc).
Proof.
  induction table as [|[k v] table IH]; intros acc; simpl; [done |].
  by rewrite mapSet_asNumbers, IH.
Qed.

Lemma mapSet_safe (m : list (jsstring * Z)) w v :
  Forall (fun e => safeCount e.2) m -> safeCount v ->
  Forall (fun e => safeCount e.2) (mapSet m w v).
Proof.
  intros Hm Hv. induction Hm as [|[k u] m Hk Hm IH]; simpl.
  - by constructor.
  - destruct (bool_decide (k = w)); constructor; done.
Qed.

Lemma mapGet_safe (m : list (jsstring * Z)) w :
  Forall (fun e => safeCount e.2) m -> safeCount (default 0%Z (mapGet m w)).
Proof.
  intros Hm. destruct (mapGet m w) as [v|] eqn:Hv; simpl.
  - apply mapGet_elem in Hv. rewrite Forall_forall in Hm. apply (Hm _ Hv).
  - unfold safeCount. lia.
Qed.

Lemma addCounts_exact delta : forall (m : list (jsstring * Z)),
  NoDup delta.*1 -> safeMerge m delta ->
  addCounts (asNumbers m) delta = asNumbers (exactAddCounts m delta)
  /\ Forall (fun e => safeCount e.2) (exactAddCounts m delta).
Proof.
  induction delta as [|[w [c tr]] delta IH]; intros m Hnd [Hm Hd]; [done |].
  rewrite fmap_cons in Hnd. apply NoDup_cons in Hnd as [Hw Hnd].
  apply Forall_cons in Hd as [[Hc Hsum] Hd]. simpl in Hw, Hc, Hsum.
  pose proof (mapGet_safe m w Hm) as Hk.
  rewrite addCounts_cons, exactAddCounts_cons. simpl.
  unfold safeCount in *.
  rewrite mapGet_asNumbers, Numbers.orZero_exact by lia.
  rewrite Numbers.numAdd_exact by lia.
  rewrite mapSet_asNumbers. apply IH; [done |]. split.
  - by apply mapSet_safe.
  - rewrite Forall_forall in Hd |- *. intros e He.
    rewrite mapGet_mapSet_ne; [by apply Hd |].
    intros ->. apply Hw. by apply list_elem_of_fmap_2.
Qed.

Lemma insertByCount_exact e sorted :
  safeCount e.2 -> Forall (fun e => safeCount e.2) sorted ->
  insertByCount (e.1, numOfZ e.2) (asNumbers sorted) = asNumbers (exactInsert e sorted).
Proof.
  intros He Hs. induction Hs as [|e' rest He' Hs IH]; simpl; [done |].
  unfold safeCount in *.
  rewrite Numbers.numSub_exact, Numbers.numPositive_exact by lia.
  replace (0 <? e'.2 - e.2)%Z with (e.2 <? e'.2)%Z
    by (destruct (Z.ltb_spec e.2 e'.2), (Z.ltb_spec 0 (e'.2 - e.2)); lia).
  destruct (e.2 <? e'.2)%Z; simpl; [| done]. by rewrite IH.
Qed.

Lemma sortByCount_exact (m : list (jsstring * Z)) :
  Forall (fun e => safeCount e.2) m -> sortByCount (asNumbers m) = asNumbers (exactSort m).
Proof.
  induction 1 as [|e m He Hm IH]; simpl; [done |].
  rewrite IH. apply insertByCount_exact; [done |].
  by rewrite exactSort_Permutation.
Qed.

(** On a table of safe counts, when the sums are safe, the code writes the
    table of the exact merge. *)
Lemma merge_exact table delta :
  NoDup table.*1 -> NoDup delta.*1 -> safeMerge table delta ->
  mergeWordFrequency (Some (asNumbers table)) delta
  = asNumbers (exactMerge (Some table) delta)
  /\ Forall (fun e => safeCount e.2) (exactMerge (Some table) delta).
Proof.
  intros Ht Hd Hsafe. unfold mergeWordFrequency, exactMerge. simpl.
  rewrite !loadCounts_id by by rewrite ?asNumbers_keys.
  destruct (addCounts_exact delta table Hd Hsafe) as [-> Hall].
  split; [by apply sortByCount_exact |]. by rewrite exactSort_Permutation.
Qed.

(** C9, as the code has it. Counts are numbers; for a table with one entry
    per word whose counts are integers from 0 to [2^53 - 1], and a delta
    that is a [Map] of counts that are not negative, the sums staying in
    this range, the merge of the code is the exact merge of the
    specification: a word of the delta with count [c] ends with the count
    it had in the table (0 when absent) plus [c]; every other word keeps
    its count; a missing file is an empty table; the empty delta rewrites
    a table that is in file order unchanged; merging the same delta a
    second time adds [c] again when these sums are safe too, so the merge
    is then not idempotent as soon as one count of the delta is not 0; and
    what is written is sorted by count, descending, with one entry per
    word. *)
Theorem merge_additive_not_idempotent
    (table : list (jsstring * Z)) (delta : list (jsstring * (Z * jsstring))) :
  NoDup table.*1 -> NoDup delta.*1 -> safeMerge table delta ->
  let merged := mergeWordFrequency (Some (asNumbers table)) delta in
  merged = asNumbers (exactMerge (Some table) delta)
  /\ (forall w c tr, (w, (c, tr)) ∈ delta ->
        mapGet merged w = Some (numOfZ (default 0 (mapGet table w) + c)%Z)
        /\ mapGet merged w ≫= numToZ = Some (default 0 (mapGet table w) + c)%Z)
  /\ (forall w, w ∉ delta.*1 -> mapGet merged w = mapGet (asNumbers table) w)
  /\ mergeWordFrequency None delta = mergeWordFrequency (Some []) delta
  /\ (StronglySorted byCountDesc table ->
      mergeWordFrequency (Some (asNumbers table)) [] = asNumbers table)
  /\ (Forall (fun e => safeCount (default 0 (mapGet table e.1) + e.2.1 + e.2.1)%Z) delta ->
      (forall w c tr, (w, (c, tr)) ∈ delta ->
         mapGet (mergeWordFrequency (Some merged) delta) w
         = Some (numOfZ (default 0 (mapGet table w) + c + c)%Z))
      /\ (forall w c tr, (w, (c, tr)) ∈ delta -> c ≠ 0%Z ->
            mergeWordFrequency (Some merged) delta ≠ merged))
  /\ StronglySorted byCountDesc (exactMerge (Some table) delta)
  /\ NoDup merged.*1.
Proof.
  intros Ht Hd Hsafe merged.
  destruct (merge_exact table delta Ht Hd Hsafe) as [Hexact Hall]. fold merged in Hexact.
  assert (NoDup (exactMerge (Some table) delta).*1) as Hm by by apply exactMerge_NoDup.
  assert (forall w c tr, (w, (c, tr)) ∈ delta ->
            safeCount (default 0 (mapGet table w) + c)%Z) as Hsum.
  { intros w c tr Hin. destruct Hsafe as [_ Hs]. rewrite Forall_forall in Hs.
    apply (Hs _ Hin). }
  assert (forall w c tr, (w, (c, tr)) ∈ delta ->
            mapGet merged w = Some (numOfZ (default 0 (mapGet table w) + c)%Z)) as Hadd.
  { intros w c tr Hin.
    by rewrite Hexact, mapGet_asNumbers, (exactMerge_entry _ _ w c tr). }
  split_and!.
  - done.
  - intros w c tr Hin. rewrite (Hadd w c tr Hin). split; [done |]. simpl.
    pose proof (Hsum w c tr Hin) as Hs. unfold safeCount in Hs.
    apply Numbers.numToZ_numOfZ. lia.
  - intros w Hw. by rewrite Hexact, !mapGet_asNumbers, exactMerge_other.
  - done.
  - intros Hs.
    assert (safeMerge table []) as Hsafe0 by (split; [apply Hsafe | constructor]).
    destruct (merge_exact table [] Ht (NoDup_nil_2) Hsafe0) as [-> _].
    unfold exactMerge. simpl. rewrite loadCounts_id by done. by rewrite exactSort_id.
  - intros Htwice.
    assert (safeMerge (exactMerge (Some table) delta) delta) as Hsafe2.
    { split; [done |]. rewrite Forall_forall in Htwice |- *.
      intros [w [c tr]] Hin. simpl. rewrite (exactMerge_entry _ _ w c tr) by done.
      simpl. split; [| apply (Htwice _ Hin)].
      destruct Hsafe as [_ Hs]. rewrite Forall_forall in Hs. apply (Hs _ Hin). }
    destruct (merge_exact _ delta Hm Hd Hsafe2) as [Hexact2 _].
    assert (forall w c tr, (w, (c, tr)) ∈ delta ->
              mapGet (mergeWordFrequency (Some merged) delta) w
              = Some (numOfZ (default 0 (mapGet table w) + c + c)%Z)) as H2.
    { intros w c tr Hin.
      rewrite Hexact, Hexact2, mapGet_asNumbers, (exactMerge_entry _ _ w c tr) by done.
      by rewrite (exactMerge_entry _ _ w c tr). }
    split; [done |].
    intros w c tr Hin Hc Heq.
    pose proof (H2 w c tr Hin) as Hw. rewrite Heq, (Hadd w c tr Hin) in Hw.
    injection Hw as Hw. apply Numbers.numOfZ_inj in Hw.
    + lia.
    + pose proof (Hsum w c tr Hin) as Hs. unfold safeCount in Hs. lia.
    + rewrite Forall_forall in Htwice. pose proof (Htwice _ Hin) as Hs.
      unfold safeCount in Hs. simpl in Hs. lia.
  - apply exactSort_sorted.
  - apply merge_NoDup.
Qed.

(** The example of the specification: 5 more occurrences of a word counted
    431 times. *)
Lemma merge_additive_not_idempotent_witness :
  mapGet (mergeWordFrequency (Some (asNumbers [(js "la", 431%Z)]))
            [(js "la", (5%Z, js "is"))]) (js "la")
  = Some (numOfZ 436)
  /\ mergeWordFrequency (Some (asNumbers [(js "la", 431%Z)])) [(js "la", (5%Z, js "is"))]
     = asNumbers [(js "la", 436%Z)].
Proof.
  split; [| vm_compute; reflexivity].
  refine (proj1 (proj1 (proj2 (merge_additive_not_idempotent
                   [(js "la", 431%Z)] [(js "la", (5%Z, js "is"))] _ _ _))
                (js "la") 5%Z (js "is") _)).
  - apply NoDup_singleton.
  - apply NoDup_singleton.
  - unfold safeMerge, safeCount. split; repeat constructor; vm_compute; done.
  - apply list_elem_of_singleton. reflexivity.
Defined.

(** C9, as stated, fails: a count is a number, and at [2^53] adding 1 gives
    [2^53] again; the word keeps its count although the delta has it once,
    and merging the delta a second time changes nothing either. *)
Lemma merge_exact_sum_counterexample :
  let table := asNumbers [(js "la", (2 ^ 53)%Z)] in
  let delta := [(js "la", (1%Z, js "is"))] in
  mapGet table (js "la") ≫= numToZ = Some (2 ^ 53)%Z
  /\ mergeWordFrequency (Some table) delta = table
  /\ mapGet (mergeWordFrequency (Some table) delta) (js "la") ≫= numToZ
     ≠ Some (2 ^ 53 + 1)%Z
  /\ mergeWordFrequency (Some (mergeWordFrequency (Some table) delta)) delta
     = mergeWordFrequency (Some table) delta.
Proof.
  split_and!; [vm_compute; reflexivity | vm_compute; reflexivity
              | vm_compute; discriminate | vm_compute; reflexivity].
Qed.

End Frequency.

(** ** Greedy segmenter *)

Module Greedy.

Section Greedy.

Variable toLowerCase : jsstring -> jsstring.
Variable dict : gmap jsstring jsstring.

Lemma phraseAt_app (pre rest : list jsstring) len :
  phraseAt (pre ++ rest) (length pre) len = joinWith [SPACE] (take len rest).
Proof.
  unfold phraseAt, slice.
  replace (length pre + len - length pre) with len by lia.
  by rewrite drop_app_length.
Qed.

Lemma longestMatch_none syllables i len0 :
  (forall len, 2 <= len <= len0 ->
     dictLookup toLowerCase dict (phraseAt syllables i len) = None) ->
  longestMatch toLowerCase dict syllables i len0 = None.
Proof.
  induction len0 as [|len0 IH]; intros Hnone; [done |].
  cbn [longestMatch]. destruct (1 <? S len0) eqn:E; [| done].
  apply Nat.ltb_lt in E. rewrite Hnone by lia.
  apply IH. intros len Hlen. apply Hnone. lia.
Qed.

Lemma longestMatch_some syllables i len0 l :
  2 <= l <= len0 ->
  is_Some (dictLookup toLowerCase dict (phraseAt syllables i l)) ->
  (forall len, l < len <= len0 ->
     dictLookup toLowerCase dict (phraseAt syllables i len) = None) ->
  longestMatch toLowerCase dict syllables i len0 = Some l.
Proof.
  induction len0 as [|len0 IH]; intros Hl Hhit Hnone; [lia |].
  cbn [longestMatch]. rewrite (proj2 (Nat.ltb_lt 1 (S len0))) by lia.
  destruct (decide (l = S len0)) as [->|Hne].
  - by destruct Hhit as [v ->].
  - rewrite Hnone by lia. apply IH; [lia | done |].
    intros len Hlen. apply Hnone. lia.
Qed.

Lemma noLongerEntry_spec rest l len :
  noLongerEntry toLowerCase dict rest l = true ->
  l < len -> 2 <= len <= 4 -> len <= length rest ->
  dictLookup toLowerCase dict (joinWith [SPACE] (take len rest)) = None.
Proof.
  unfold noLongerEntry. rewrite forallb_forall. intros Hall Hl Hlen Hrest.
  assert (In len [2; 3; 4]) as Hin by (simpl; lia).
  specialize (Hall len Hin).
  rewrite (proj2 (Nat.leb_gt len l)), (proj2 (Nat.ltb_ge (length rest) len)) in Hall by lia.
  simpl in Hall. apply negb_true_iff in Hall. unfold inLexicon in Hall.
  apply bool_decide_eq_false_1 in Hall.
  destruct (dictLookup _ _ _); [| done]. destruct Hall. by eexists.
Qed.

(** The loop reads the phrases one after the other. *)
Lemma greedyFrom_phrases phrases : forall fuel pre words,
  longestReading toLowerCase dict phrases = true ->
  Forall (fun p => 2 <= length p -> inLexicon toLowerCase dict p = true) phrases ->
  length (concat phrases) <= fuel ->
  greedyFrom toLowerCase fuel dict (pre ++ concat phrases) (length pre) words
  = words ++ List.map (joinWith [SPACE]) phrases.
Proof.
  induction phrases as [|p ps IH]; intros fuel pre words Hread Hlex Hfuel.
  - simpl. rewrite !app_nil_r. destruct fuel; simpl; [done |].
    by rewrite (proj2 (Nat.ltb_ge _ _)) by lia.
  - cbn [longestReading] in Hread.
    apply andb_true_iff in Hread as [Hread Hps].
    apply andb_true_iff in Hread as [Hread Hno].
    apply andb_true_iff in Hread as [Hp1 Hp4].
    apply Nat.leb_le in Hp1, Hp4.
    apply Forall_cons in Hlex as [Hp Hlex].
    rewrite concat_cons, length_app in Hfuel.
    destruct fuel as [|fuel]; [lia |].
    cbn [greedyFrom]. rewrite length_app.
    rewrite (proj2 (Nat.ltb_lt _ _)) by (rewrite concat_cons, length_app; lia).
    replace (length pre + length (concat (p :: ps)) - length pre)
      with (length (concat (p :: ps))) by lia.
    set (len0 := Nat.min 4 (length (concat (p :: ps)))).
    assert (length p <= len0) as Hlen0.
    { unfold len0. rewrite concat_cons, length_app. lia. }
    assert (forall len, length p < len <= len0 ->
              dictLookup toLowerCase dict (phraseAt (pre ++ concat (p :: ps)) (length pre) len)
              = None) as Hnone.
    { intros len Hlen. rewrite phraseAt_app.
      apply (noLongerEntry_spec _ (length p)); [done | lia | lia | lia]. }
    destruct (decide (length p = 1)) as [Hone|Hmany].
    + rewrite longestMatch_none.
      2:{ intros len Hlen. apply Hnone. lia. }
      destruct p as [|s [|? ?]]; simpl in Hone; try lia.
      rewrite concat_cons. simpl.
      rewrite list_lookup_middle by done. simpl.
      replace (pre ++ s :: concat ps) with ((pre ++ [s]) ++ concat ps)
        by by rewrite <- app_assoc.
      replace (length pre + 1) with (length (pre ++ [s]))
        by (rewrite length_app; simpl; lia).
      rewrite IH; [by rewrite <- app_assoc | done | done | simpl in Hfuel; lia].
    + rewrite (longestMatch_some _ _ _ (length p)); [| lia | | done].
      2:{ rewrite phraseAt_app, concat_cons, take_app_length.
          assert (2 <= length p) as H2 by lia. specialize (Hp H2).
          unfold inLexicon in Hp. by apply bool_decide_eq_true_1 in Hp. }
      rewrite phraseAt_app. rewrite concat_cons at 2. rewrite take_app_length.
      rewrite concat_cons.
      replace (pre ++ p ++ concat ps) with ((pre ++ p) ++ concat ps)
        by by rewrite <- app_assoc.
      replace (length pre + length p) with (length (pre ++ p))
        by by rewrite length_app.
      rewrite IH; [| done | done | lia].
      by rewrite <- app_assoc.
Qed.

End Greedy.

(** C7, as the code has it. When the syllables of the text are the
    syllables of Lexicon phrases of 1 to 4 syllables put end to end, and at
    the start of each phrase no longer Lexicon entry matches the text, the
    greedy segmenter returns exactly those phrases, in order. *)
Theorem greedy_returns_longest_reading
    (toLowerCase : jsstring -> jsstring) (dict : gmap jsstring jsstring)
    (input : jsstring) (phrases : list (list jsstring)) :
  syllablesOf input = concat phrases ->
  Forall (fun p => inLexicon toLowerCase dict p = true) phrases ->
  longestReading toLowerCase dict phrases = true ->
  segmentVietnamese toLowerCase dict input = List.map (joinWith [SPACE]) phrases.
Proof.
  intros Hsyl Hlex Hread. unfold segmentVietnamese, segmentSyllables.
  rewrite Hsyl.
  apply (greedyFrom_phrases toLowerCase dict phrases _ [] []); [done | | done].
  eapply Forall_impl; [exact Hlex |]. auto.
Qed.

Lemma greedy_returns_longest_reading_witness :
  segmentVietnamese asciiLower nestedLexicon (js "a b c, c d")
  = [js "a b c"; js "c d"].
Proof.
  apply (greedy_returns_longest_reading asciiLower nestedLexicon
           (js "a b c, c d") [[js "a"; js "b"; js "c"]; [js "c"; js "d"]]).
  - reflexivity.
  - repeat constructor.
  - reflexivity.
Defined.

(** C7, as stated, fails: the text below is the two Lexicon phrases [a b]
    and [c d] put end to end, and the greedy segmenter returns [a b c] and
    [d], because [a b c] is an entry too. *)
Lemma greedy_exact_phrases_counterexample :
  let phrases := [[js "a"; js "b"]; [js "c"; js "d"]] in
  let input := js "a b c d" in
  syllablesOf input = concat phrases
  /\ input = joinWith [SPACE] (List.map (joinWith [SPACE]) phrases)
  /\ Forall (fun p => inLexicon asciiLower nestedLexicon p = true) phrases
  /\ segmentVietnamese asciiLower nestedLexicon input = [js "a b c"; js "d"]
  /\ segmentVietnamese asciiLower nestedLexicon input
     ≠ List.map (joinWith [SPACE]) phrases.
Proof.
  split_and!; [reflexivity | reflexivity | repeat constructor | reflexivity |].
  vm_compute. discriminate.
Qed.

End Greedy.

(** ** Loops over index ranges *)

Lemma fold_left_seq_inv {St : Type} (P : nat -> St -> Prop) (f : St -> nat -> St)
    (a n : nat) (s : St) :
  P a s ->
  (forall k s, a <= k < a + n -> P k s -> P (k + 1) (f s k)) ->
  P (a + n) (fold_left f (seq a n) s).
Proof.
  revert a s. induction n as [|n IH]; intros a s H0 Hstep; simpl.
  - by rewrite Nat.add_0_r.
  - replace (a + S n) with (S a + n) by lia. apply IH.
    + replace (S a) with (a + 1) by lia. apply Hstep; [lia | done].
    + intros k s' Hk. apply Hstep. lia.
Qed.

(** ** Optimal segmenter: the dynamic programme *)

Module Solver.

Section Solver.

Variable spans : list (list (option Span)).
Variables N MAX_SPAN : nat.

Local Abbreviation visited := (visited N MAX_SPAN).
Local Abbreviation Inv := (SolveInv spans N MAX_SPAN).

Lemma Inv_init :
  Inv 0 1 (<[0 := Some 0%Z]> (replicate (N + 1) None), replicate (N + 1) None).
Proof.
  split; simpl.
  - by rewrite length_insert, length_replicate.
  - by rewrite length_replicate.
  - apply list_lookup_insert_eq. rewrite length_replicate. lia.
  - intros j i len Hc. apply lookup_replicate in Hc as [[=] _].
  - intros i len sp d [Hlt|[_ Hlt]] [Hlen _]; lia.
  - intros j dj Hj Hdj. rewrite list_lookup_insert_ne in Hdj by lia.
    by apply lookup_replicate in Hdj as [[=] _].
Qed.

(** One step of the inner loop. *)
Lemma Inv_relax k l dpi st :
  Inv k l st -> visited k l -> st.1 !! k = Some (Some dpi) ->
  Inv k (l + 1) (relax spans k dpi st l)
  /\ (relax spans k dpi st l).1 !! k = Some (Some dpi).
Proof.
  intros HI Hv Hk. destruct st as [dp choice]. simpl in Hk.
  destruct HI as [Hld Hlc Hz Hc Hb Hu]. simpl in *.
  assert (before_mono : forall i len, before k l i len -> before k (l + 1) i len).
  { intros i len [?|[? ?]]; [by left | right; lia]. }
  destruct Hv as (Hl1 & HlM & HlN).
  unfold relax. destruct (cell spans k l) as [sp|] eqn:Hcell; simpl.
  2:{ split; [| done]. split; simpl; try done.
      - intros j i len Hj. destruct (Hc j i len Hj) as (? & ? & ? & ?). auto.
      - intros i len sp d [Hlt|[-> Hlt]] Hv' Hcell' Hd.
        + apply (Hb i len sp d); [by left | done..].
        + destruct (decide (len = l)) as [->|Hne]; [congruence |].
          apply (Hb k len sp d); [right; lia | done..]. }
  destruct (dp !! (k + l)) as [old|] eqn:Hold.
  2:{ apply lookup_ge_None in Hold. lia. }
  simpl. destruct (exceeds (dpi + score sp) old) eqn:Hex; simpl.
  - (* strict improvement: both arrays are written at [k + l] *)
    split; [| by rewrite list_lookup_insert_ne by lia].
    split; simpl.
    + by rewrite length_insert.
    + by rewrite length_insert.
    + by rewrite list_lookup_insert_ne by lia.
    + intros j i len Hj. destruct (decide (j = k + l)) as [->|Hne].
      * rewrite list_lookup_insert_eq in Hj by lia. injection Hj as <- <-.
        split_and!; [done | done | right; lia |].
        exists sp, dpi. split_and!; [done | |].
        -- by rewrite list_lookup_insert_ne by lia.
        -- by rewrite list_lookup_insert_eq by lia.
      * rewrite list_lookup_insert_ne in Hj by done.
        destruct (Hc j i len Hj) as (Hij & Hv' & Hbf & sp' & di & ? & ? & ?).
        split_and!; [done | done | auto |].
        exists sp', di. split_and!; [done | |].
        -- rewrite list_lookup_insert_ne; [done |].
           destruct Hbf as [?|[? ?]]; lia.
        -- by rewrite list_lookup_insert_ne by done.
    + intros i len sp' d Hbf Hv' Hcell' Hd.
      assert (i <= k) as Hik by (destruct Hbf as [?|[? ?]]; lia).
      rewrite list_lookup_insert_ne in Hd by lia.
      destruct (decide (i + len = k + l)) as [Heq|Hne].
      * rewrite Heq, !list_lookup_insert_eq by lia.
        exists (dpi + score sp)%Z, (k, l). split_and!; [done | | done |].
        -- destruct (decide (i = k)) as [->|Hik'].
           ++ assert (len = l) as -> by lia.
              rewrite Hk in Hd. injection Hd as ->.
              rewrite Hcell in Hcell'. injection Hcell' as ->. lia.
           ++ destruct (Hb i len sp' d) as (dj & c & Hdj & Hle & _);
                [left; lia | done..|].
              rewrite Heq, Hold in Hdj. injection Hdj as ->.
              simpl in Hex. apply Z.ltb_lt in Hex. lia.
        -- intros Htie. simpl. destruct (decide (i = k)) as [->|Hik']; [done |].
           destruct (Hb i len sp' d) as (dj & c & Hdj & Hle & _);
             [left; lia | done..|].
           rewrite Heq, Hold in Hdj. injection Hdj as ->.
           simpl in Hex. apply Z.ltb_lt in Hex. lia.
      * rewrite !list_lookup_insert_ne by done.
        apply (Hb i len sp' d); [| done..].
        destruct Hbf as [?|[-> ?]]; [by left |].
        right. split; [done |]. lia.
    + intros j dj Hj Hdj. destruct (decide (j = k + l)) as [->|Hne].
      * rewrite list_lookup_insert_eq by lia. by eexists.
      * rewrite list_lookup_insert_ne in Hdj by done.
        rewrite list_lookup_insert_ne by done. eauto.
  - (* no strict improvement: nothing is written *)
    split; [| done]. destruct old as [dj|]; [| done].
    simpl in Hex. apply Z.ltb_ge in Hex.
    split; simpl; try done.
    + intros j i len Hj. destruct (Hc j i len Hj) as (? & ? & ? & ?). auto.
    + intros i len sp' d [Hlt|[-> Hlt]] Hv' Hcell' Hd.
      * apply (Hb i len sp' d); [by left | done..].
      * destruct (decide (len = l)) as [->|Hne].
        2:{ apply (Hb k len sp' d); [right; lia | done..]. }
        rewrite Hk in Hd. injection Hd as ->.
        rewrite Hcell in Hcell'. injection Hcell' as ->.
        destruct (choice !! (k + l)) as [[c|]|] eqn:Hch.
        -- exists dj, c. split_and!; [done | done | done |].
           intros _. destruct c as [i len].
           destruct (Hc _ _ _ Hch) as (_ & _ & Hbf & _). simpl.
           destruct Hbf as [?|[? ?]]; lia.
        -- destruct (Hu (k + l) dj) as [c Hc']; [lia | done | congruence].
        -- apply lookup_ge_None in Hch. lia.
Qed.


Lemma Inv_next_row k l st :
  Inv k l st ->
  (forall len d, visited k len -> st.1 !! k = Some (Some d) -> len < l) ->
  Inv (k + 1) 1 st.
Proof.
  intros [Hld Hlc Hz Hc Hb Hu] Hall. split; try done.
  - intros j i len Hj. destruct (Hc j i len Hj) as (? & ? & Hbf & ?).
    split_and!; try done. left. destruct Hbf as [?|[? ?]]; lia.
  - intros i len sp d Hbf Hv Hcell Hd. apply (Hb i len sp d); try done.
    destruct (decide (i = k)) as [->|Hne].
    + right. split; [done |]. by apply (Hall len d).
    + unfold before, visited in *. lia.
Qed.

(** One step of the outer loop. *)
Lemma Inv_relaxFrom k st :
  Inv k 1 st -> k < N -> Inv (k + 1) 1 (relaxFrom spans N MAX_SPAN st k).
Proof.
  intros HI Hk. unfold relaxFrom.
  destruct (st.1 !! k) as [[dpi|]|] eqn:Hdk; simpl.
  - unfold spanLengths.
    pose proof (fold_left_seq_inv
      (fun l st' => Inv k l st' /\ st'.1 !! k = Some (Some dpi))
      (relax spans k dpi) 1 (Nat.min MAX_SPAN (N - k) + 1 - 1) st) as Hfold.
    simpl in Hfold. destruct Hfold as [HI' Hdk'].
    + done.
    + intros l st' Hl [HIl Hkl]. apply Inv_relax; [done | | done].
      unfold visited. lia.
    + apply (Inv_next_row k _ _ HI'). unfold visited. intros len d ? _. lia.
  - apply (Inv_next_row k 1 _ HI). intros len d _ Hd. congruence.
  - apply lookup_ge_None in Hdk. rewrite (inv_dp_length _ _ _ _ _ _ HI) in Hdk. lia.
Qed.

Lemma Inv_solve : Inv N 1 (solve spans N MAX_SPAN).
Proof.
  unfold solve.
  apply (fold_left_seq_inv (fun k st => Inv k 1 st) (relaxFrom spans N MAX_SPAN) 0 N).
  - apply Inv_init.
  - intros k st Hk HI. apply Inv_relaxFrom; [done | lia].
Qed.

Lemma visited_before i len : visited i len -> before N 1 i len.
Proof. unfold visited, before. lia. Qed.

(** Every candidate is accounted for in the final arrays. *)
Lemma solve_best i len sp d :
  visited i len -> cell spans i len = Some sp ->
  (solve spans N MAX_SPAN).1 !! i = Some (Some d) ->
  exists dj c, (solve spans N MAX_SPAN).1 !! (i + len) = Some (Some dj)
               /\ (d + score sp <= dj)%Z
               /\ (solve spans N MAX_SPAN).2 !! (i + len) = Some (Some c)
               /\ ((d + score sp)%Z = dj -> c.1 <= i).
Proof.
  intros Hv Hcell Hd.
  apply (inv_best _ _ _ _ _ _ Inv_solve i len sp d); auto using visited_before.
Qed.

(** The final choice at [j] is a candidate that ends at [j] and reaches
    [dp[j]]. *)
Lemma solve_choice j i len :
  (solve spans N MAX_SPAN).2 !! j = Some (Some (i, len)) ->
  i + len = j /\ visited i len /\
  exists sp di, cell spans i len = Some sp
                /\ (solve spans N MAX_SPAN).1 !! i = Some (Some di)
                /\ (solve spans N MAX_SPAN).1 !! j = Some (Some (di + score sp)%Z).
Proof.
  intros Hj. destruct (inv_choice _ _ _ _ _ _ Inv_solve j i len Hj) as (? & ? & _ & ?).
  auto.
Qed.

Lemma solve_lengths :
  length (solve spans N MAX_SPAN).1 = N + 1 /\ length (solve spans N MAX_SPAN).2 = N + 1.
Proof. split; [apply (inv_dp_length _ _ _ _ _ _ Inv_solve) | apply (inv_choice_length _ _ _ _ _ _ Inv_solve)]. Qed.

(** When every single syllable is a span, every position is reached. *)
Lemma solve_reaches :
  1 <= MAX_SPAN ->
  (forall i, i < N -> is_Some (cell spans i 1)) ->
  forall j, j <= N -> exists dj, (solve spans N MAX_SPAN).1 !! j = Some (Some dj).
Proof.
  intros HM Hsingles j. induction j as [|j IH]; intros Hj.
  - exists 0%Z. apply (inv_zero _ _ _ _ _ _ Inv_solve).
  - destruct IH as [d Hd]; [lia |].
    destruct (Hsingles j) as [sp Hsp]; [lia |].
    destruct (solve_best j 1 sp d) as (dj & c & Hdj & _); [unfold visited; lia | done..|].
    exists dj. by replace (S j) with (j + 1) by lia.
Qed.

Lemma solve_chosen j dj :
  1 <= j -> (solve spans N MAX_SPAN).1 !! j = Some (Some dj) ->
  exists i len, (solve spans N MAX_SPAN).2 !! j = Some (Some (i, len)).
Proof.
  intros Hj Hdj. destruct (inv_set _ _ _ _ _ _ Inv_solve j dj Hj Hdj) as [[i len] Hc].
  by exists i, len.
Qed.

End Solver.

(** C3. A step of the inner loop writes [dp[i+len]] and [choice[i+len]]
    when the new total is strictly greater than [dp[i+len]] and leaves both
    arrays as they are otherwise. In the result of the loops, of two
    candidate spans that end at the same position [j] with equal totals,
    the one with the greater start is never the choice at [j]; when their
    common total is [dp[j]], the start of the choice is at most the smaller
    of the two starts, and the choice is the candidate with the smaller
    start when no candidate that starts earlier reaches [dp[j]]. *)
Theorem tie_keeps_smaller_start
    (spans : list (list (option Span))) (N MAX_SPAN : nat)
    (j i1 len1 i2 len2 : nat) (sp1 sp2 : Span) (d1 d2 : Z) :
  let dp := (solve spans N MAX_SPAN).1 in
  let choice := (solve spans N MAX_SPAN).2 in
  visited N MAX_SPAN i1 len1 -> visited N MAX_SPAN i2 len2 ->
  i1 + len1 = j -> i2 + len2 = j ->
  cell spans i1 len1 = Some sp1 -> cell spans i2 len2 = Some sp2 ->
  dp !! i1 = Some (Some d1) -> dp !! i2 = Some (Some d2) ->
  (d1 + score sp1 = d2 + score sp2)%Z ->
  i1 < i2 ->
  (forall i dpi st len sp,
     cell spans i len = Some sp ->
     relax spans i dpi st len
     = if exceeds (dpi + score sp) (default None (st.1 !! (i + len)))
       then (<[i + len := Some (dpi + score sp)%Z]> st.1,
             <[i + len := Some (i, len)]> st.2)
       else st)
  /\ (forall z old, exceeds z (Some old) = true <-> (old < z)%Z)
  /\ exists c,
       choice !! j = Some (Some c) /\ c ≠ (i2, len2)
       /\ (dp !! j = Some (Some (d1 + score sp1)%Z) ->
           c.1 <= i1
           /\ ((forall i len sp d, i < i1 -> i + len = j ->
                  cell spans i len = Some sp -> dp !! i = Some (Some d) ->
                  (d + score sp)%Z ≠ (d1 + score sp1)%Z) ->
               c = (i1, len1))).
Proof.
  intros dp choice Hv1 Hv2 Hj1 Hj2 Hc1 Hc2 Hd1 Hd2 Htie Hlt.
  split_and!.
  - intros i dpi st len sp Hcell. unfold relax. by rewrite Hcell.
  - intros z old. simpl. apply Z.ltb_lt.
  - destruct (solve_best spans N MAX_SPAN i1 len1 sp1 d1) as (dj & c & Hdj & Hle & Hc & Hstart);
      [done..|].
    rewrite Hj1 in Hdj, Hc. exists c. split_and!; [done | |].
    + intros ->.
      destruct (solve_choice spans N MAX_SPAN j i2 len2 Hc)
        as (_ & _ & sp & di & Hsp & Hdi & Hdj').
      fold dp in Hdi, Hdj', Hdj. rewrite Hc2 in Hsp. injection Hsp as <-.
      rewrite Hd2 in Hdi. injection Hdi as <-.
      rewrite Hdj in Hdj'. injection Hdj' as ->.
      assert (c' := Hstart). simpl in c'. lia.
    + intros Hbest. fold dp in Hdj. rewrite Hdj in Hbest. injection Hbest as ->.
      split; [by apply Hstart |].
      intros Hnone. destruct c as [i len].
      destruct (solve_choice spans N MAX_SPAN j i len Hc)
        as (Hij & _ & sp & di & Hsp & Hdi & Hdj').
      fold dp in Hdi, Hdj'. rewrite Hdj in Hdj'. injection Hdj' as Heq.
      specialize (Hstart eq_refl). simpl in Hstart.
      destruct (decide (i = i1)) as [->|Hne].
      * f_equal. lia.
      * exfalso. apply (Hnone i len sp di); [lia | done | done | done | lia].
Qed.

End Solver.

(** ** The table of candidate spans *)

Module Table.

Lemma shaped_empty N MAX_SPAN : shaped N MAX_SPAN (emptySpans N MAX_SPAN).
Proof.
  split; [apply length_replicate |].
  apply Forall_replicate. apply length_replicate.
Qed.

Lemma cell_empty N MAX_SPAN i len : cell (emptySpans N MAX_SPAN) i len = None.
Proof.
  unfold cell, emptySpans.
  destruct (replicate N _ !! i) as [row|] eqn:Hrow; [| done].
  apply lookup_replicate in Hrow as [-> _].
  destruct (replicate (MAX_SPAN + 1) _ !! len) as [c|] eqn:Hc; [| done].
  by apply lookup_replicate in Hc as [-> _].
Qed.

Lemma shaped_setCell N MAX_SPAN spans i len sp :
  shaped N MAX_SPAN spans -> shaped N MAX_SPAN (setCell spans i len sp).
Proof.
  intros [Hlen Hrows]. split; unfold setCell.
  - by rewrite length_alter.
  - apply Forall_lookup. intros i' row Hrow.
    destruct (decide (i = i')) as [->|Hne].
    + rewrite list_lookup_alter_eq in Hrow.
      destruct (spans !! i') as [row'|] eqn:Hrow'; [| done].
      injection Hrow as <-. rewrite length_insert.
      by apply (Forall_lookup_1 _ _ _ _ Hrows Hrow').
    + rewrite list_lookup_alter_ne in Hrow by done.
      by apply (Forall_lookup_1 _ _ _ _ Hrows Hrow).
Qed.

Lemma cell_setCell_eq N MAX_SPAN spans i len sp :
  shaped N MAX_SPAN spans -> i < N -> len <= MAX_SPAN ->
  cell (setCell spans i len sp) i len = Some sp.
Proof.
  intros [Hlen Hrows] Hi Hl. unfold cell, setCell.
  rewrite list_lookup_alter_eq.
  destruct (spans !! i) as [row|] eqn:Hrow; simpl.
  - rewrite list_lookup_insert_eq; [done |].
    rewrite (Forall_lookup_1 _ _ _ _ Hrows Hrow). lia.
  - apply lookup_ge_None in Hrow. lia.
Qed.

Lemma cell_setCell_ne spans i len sp i' len' :
  (i, len) ≠ (i', len') ->
  cell (setCell spans i len sp) i' len' = cell spans i' len'.
Proof.
  intros Hne. unfold cell, setCell.
  destruct (decide (i = i')) as [->|Hi].
  - rewrite list_lookup_alter_eq. destruct (spans !! i') as [row|]; simpl; [| done].
    rewrite list_lookup_insert_ne; [done | congruence].
  - by rewrite list_lookup_alter_ne.
Qed.

Section Collect.

Variable toLowerCase : jsstring -> jsstring.
Variable dict : gmap jsstring jsstring.
Variable syllables : list jsstring.

Let N := length syllables.
Let MAX_SPAN := Nat.min 4 N.

Local Abbreviation Collected := (Collected toLowerCase dict syllables).
Local Abbreviation lexiconSpan := (lexiconSpan syllables).
Local Abbreviation pendingAt := (pendingAt syllables).

Lemma Collected_step k l st :
  Collected k l st -> visited N MAX_SPAN k l ->
  Collected k (l + 1) (collectSpan toLowerCase dict syllables k st l).
Proof.
  intros [Hsh Hseen Hun Hpend Hnd] Hv. destruct st as [spans pend]. simpl in *.
  assert (Hmono : forall i len, before k l i len -> before k (l + 1) i len).
  { unfold before. lia. }
  assert (Hcase : forall i len, before k (l + 1) i len ->
            before k l i len \/ (i = k /\ len = l)).
  { unfold before. lia. }
  assert (k < N /\ l <= MAX_SPAN) as [HkN HlM] by (unfold visited in Hv; lia).
  unfold collectSpan. simpl.
  destruct (dictLookup toLowerCase dict (phraseAt syllables k l)) as [entry|] eqn:Hlook;
    split; simpl.
  - by apply shaped_setCell.
  - intros i len Hv' Hbf. destruct (Hcase i len Hbf) as [Hold|[-> ->]].
    + rewrite cell_setCell_ne.
      * by apply Hseen.
      * intros [= -> ->]. unfold before in Hold. lia.
    + rewrite Hlook. by apply (cell_setCell_eq N MAX_SPAN).
  - intros i len Hnb. rewrite cell_setCell_ne.
    + apply Hun. auto.
    + intros [= -> ->]. apply Hnb. unfold before. lia.
  - intros p Hp. destruct (Hpend p Hp) as (? & ? & ? & ?). auto.
  - done.
  - done.
  - intros i len Hv' Hbf. destruct (Hcase i len Hbf) as [Hold|[-> ->]].
    + specialize (Hseen i len Hv' Hold).
      destruct (dictLookup toLowerCase dict (phraseAt syllables i len)); [done |].
      destruct Hseen as [? ?]. split; [done |]. apply elem_of_app. by left.
    + rewrite Hlook. split.
      * apply Hun. unfold before. lia.
      * apply elem_of_app. right. by apply list_elem_of_singleton.
  - intros i len Hnb. apply Hun. auto.
  - intros p Hp. apply elem_of_app in Hp as [Hp|Hp].
    + destruct (Hpend p Hp) as (? & ? & ? & ?). auto.
    + apply list_elem_of_singleton in Hp as ->. simpl.
      split_and!; [done | unfold before; lia | done | done].
  - apply NoDup_app. split_and!; [done | | apply NoDup_singleton].
    intros p Hp ->%list_elem_of_singleton.
    destruct (Hpend _ Hp) as (_ & Hbf & _). simpl in Hbf.
    unfold before in Hbf. lia.
Qed.

Lemma Collected_next_row k l st :
  Collected k l st ->
  (forall len, visited N MAX_SPAN k len -> len < l) ->
  Collected (k + 1) 1 st.
Proof.
  intros [Hsh Hseen Hun Hpend Hnd] Hall. split; try done.
  - intros i len Hv Hbf. apply Hseen; [done |].
    destruct (decide (i = k)) as [->|Hne].
    + right. split; [done |]. by apply Hall.
    + unfold before, visited in *. lia.
  - intros i len Hnb. apply Hun. unfold before in *. lia.
  - intros p Hp. destruct (Hpend p Hp) as (? & ? & ? & ?).
    split_and!; try done. unfold before in *. lia.
Qed.

Lemma Collected_all :
  Collected N 1 (collectSpans toLowerCase dict syllables N MAX_SPAN).
Proof.
  unfold collectSpans.
  apply (fold_left_seq_inv (fun k st => Collected k 1 st) _ 0 N).
  - split; simpl.
    + apply shaped_empty.
    + unfold before, visited. lia.
    + intros. apply cell_empty.
    + intros p Hp. by apply elem_of_nil in Hp.
    + apply NoDup_nil_2.
  - intros k st Hk HC. unfold spanLengths.
    pose proof (fold_left_seq_inv (fun l st' => Collected k l st')
      (collectSpan toLowerCase dict syllables k) 1
      (Nat.min MAX_SPAN (N - k) + 1 - 1) st HC) as Hrow.
    simpl in Hrow. apply (Collected_next_row k _ _ (Hrow ltac:(
      intros l st' Hl HCl; apply Collected_step; [done | unfold visited; lia]))).
    unfold visited. lia.
Qed.

(** After the first step: every visited pair is either a Lexicon span in
    the table or an entry of [toTranslate]. *)
Lemma collectSpans_spec i len :
  visited N MAX_SPAN i len ->
  match dictLookup toLowerCase dict (phraseAt syllables i len) with
  | Some entry =>
      cell (collectSpans toLowerCase dict syllables N MAX_SPAN).1 i len
      = Some (lexiconSpan i len entry)
  | None =>
      cell (collectSpans toLowerCase dict syllables N MAX_SPAN).1 i len = None
      /\ pendingAt i len ∈ (collectSpans toLowerCase dict syllables N MAX_SPAN).2
  end.
Proof.
  intros Hv. apply (col_seen _ _ _ _ _ _ Collected_all); [done |].
  unfold visited, before in *. lia.
Qed.

End Collect.

(** The second step. *)
Lemma shaped_fillTranslated N MAX_SPAN translations pend : forall j spans,
  shaped N MAX_SPAN spans ->
  shaped N MAX_SPAN (fillTranslated translations j pend spans).
Proof.
  induction pend as [|p pend IH]; intros j spans Hsh; simpl; [done |].
  apply IH. by apply shaped_setCell.
Qed.

Lemma fillTranslated_other translations pend : forall j spans i len,
  (forall p, p ∈ pend -> (pendingI p, pendingLen p) ≠ (i, len)) ->
  cell (fillTranslated translations j pend spans) i len = cell spans i len.
Proof.
  induction pend as [|p pend IH]; intros j spans i len Hne; simpl; [done |].
  rewrite IH.
  - apply cell_setCell_ne. apply Hne. by left.
  - intros q Hq. apply Hne. by right.
Qed.

Lemma fillTranslated_at N MAX_SPAN translations pend : forall j spans n p,
  shaped N MAX_SPAN spans ->
  pend !! n = Some p ->
  (forall m q, pend !! m = Some q ->
     (pendingI q, pendingLen q) = (pendingI p, pendingLen p) -> m = n) ->
  pendingI p < N -> pendingLen p <= MAX_SPAN ->
  cell (fillTranslated translations j pend spans) (pendingI p) (pendingLen p)
  = Some (mkSpan (pendingText p) (default None (translations !! (j + n))) false 0).
Proof.
  induction pend as [|q pend IH]; intros j spans n p Hsh Hn Huniq Hi Hl; [done |].
  destruct n as [|n]; simpl in Hn |- *.
  - injection Hn as ->. rewrite fillTranslated_other.
    + rewrite Nat.add_0_r. by apply (cell_setCell_eq N MAX_SPAN).
    + intros q Hq Heq. apply list_elem_of_lookup in Hq as [m Hm].
      by specialize (Huniq (S m) q Hm Heq).
  - replace (j + S n) with (S j + n) by lia.
    apply IH; [by apply shaped_setCell | done | | done | done].
    intros m q' Hm Heq. specialize (Huniq (S m) q' Hm Heq). lia.
Qed.

Lemma fillIdentity_fillTranslated pend : forall pre spans,
  fold_left
    (fun spans t =>
       setCell spans (pendingI t) (pendingLen t)
         (mkSpan (pendingText t) (Some (pendingText t)) false 0))
    pend spans
  = fillTranslated (pre ++ List.map (fun t => Some (pendingText t)) pend)
      (length pre) pend spans.
Proof.
  induction pend as [|p pend IH]; intros pre spans; simpl; [done |].
  rewrite list_lookup_middle by done. simpl.
  rewrite (IH (pre ++ [Some (pendingText p)])).
  rewrite <- app_assoc, length_app. simpl.
  by replace (length pre + 1) with (S (length pre)) by lia.
Qed.

Lemma fillIdentity_eq pend spans :
  fillIdentity pend spans
  = fillTranslated (List.map (fun t => Some (pendingText t)) pend) 0 pend spans.
Proof. apply (fillIdentity_fillTranslated pend []). Qed.

End Table.

(** ** Backtracking *)

Module Backtrack.

Lemma contiguous_app a b l1 l2 :
  contiguous a (l1 ++ l2) b <-> exists m, contiguous a l1 m /\ contiguous m l2 b.
Proof.
  revert a. induction l1 as [|[s l] l1 IH]; intros a; simpl.
  - split; [intros H; by exists a | by intros (m & -> & H)].
  - rewrite IH. split.
    + intros (-> & Hl & m & H1 & H2). by exists m.
    + intros (m & (-> & Hl & H1) & H2). split_and!; [done | done |]. by exists m.
Qed.

Lemma contiguous_le a b l : contiguous a l b -> a <= b.
Proof.
  revert a. induction l as [|[s len] l IH]; intros a; simpl; [lia |].
  intros (-> & Hl & H). apply IH in H. lia.
Qed.

Lemma contiguous_sum a b l : contiguous a l b -> a + sum_list (List.map snd l) = b.
Proof.
  revert a. induction l as [|[s len] l IH]; intros a; simpl; [lia |].
  intros (-> & Hl & H). apply IH in H. lia.
Qed.

(** When every position from 1 to [pos] has a choice that ends there, the
    loop returns, and what it has pushed, read backwards, covers
    [0 .. pos). *)
Lemma backtrack_chain (choice : list (option (nat * nat))) :
  forall pos fuel segments,
  (forall j, 1 <= j <= pos ->
     exists i len, choice !! j = Some (Some (i, len)) /\ i + len = j /\ 1 <= len) ->
  pos <= fuel ->
  exists chain,
    backtrack fuel choice pos segments = Ok (segments ++ chain)
    /\ contiguous 0 (reverse chain) pos
    /\ Forall (fun c => choice !! (c.1 + c.2) = Some (Some c)) chain.
Proof.
  induction pos as [pos IH] using lt_wf_ind. intros fuel segments Hch Hfuel.
  destruct pos as [|pos].
  - exists []. destruct fuel; simpl; rewrite app_nil_r; by split_and!.
  - destruct fuel as [|fuel]; [lia |].
    destruct (Hch (S pos)) as (i & len & Hc & Hil & Hlen); [lia |].
    destruct (IH i ltac:(lia) fuel (segments ++ [(i, len)])) as (chain & Hb & Hcont & Hall).
    { intros j Hj. apply Hch. lia. }
    { lia. }
    exists ((i, len) :: chain). split_and!.
    + cbn [backtrack]. simpl. rewrite Hc. simpl. rewrite Hb. by rewrite <- app_assoc.
    + rewrite reverse_cons. apply contiguous_app. exists i. split; [done |].
      simpl. by split_and!.
    + constructor; [simpl; by rewrite Hil | done].
Qed.

Lemma buildResults_all (spans : list (list (option Span))) segments : forall out,
  Forall (fun c => is_Some (cell spans c.1 c.2)) segments ->
  foldR
    (fun out (c : nat * nat) =>
       match cell spans c.1 c.2 with
       | Some span =>
           Ok (out ++ [mkWord (text span) (translation span) (fromDictionary span)])
       | None => Throw TypeError
       end)
    segments out
  = Ok (out ++ List.map (wordOf spans) segments).
Proof.
  induction segments as [|c segments IH]; intros out Hall; simpl.
  - by rewrite app_nil_r.
  - apply Forall_cons in Hall as [[sp Hsp] Hall]. rewrite Hsp.
    rewrite IH by done. unfold wordOf at 2. rewrite Hsp. by rewrite <- app_assoc.
Qed.

(** The syllables of contiguous segments, put end to end. *)
Lemma contiguous_slices (syllables : list jsstring) segments : forall a b,
  contiguous a segments b -> b <= length syllables ->
  concat (List.map (fun c : nat * nat => slice c.1 (c.1 + c.2) syllables) segments)
  = slice a b syllables.
Proof.
  induction segments as [|[s len] segments IH]; intros a b; simpl.
  - intros -> _. unfold slice. by rewrite Nat.sub_diag.
  - intros (-> & Hlen & Hc) Hb. rewrite (IH _ _ Hc Hb).
    pose proof (contiguous_le _ _ _ Hc) as Hle.
    unfold slice. replace (a + len - a) with len by lia.
    replace (b - a) with (len + (b - (a + len))) by lia.
    by rewrite <- drop_drop, take_take_drop.
Qed.

Lemma totalScore_bound (scored : list (list (option Span))) split : forall a b,
  contiguous a split b ->
  Forall (fun c => (scoreAt scored c <= Z.of_nat c.2 * 8)%Z) split ->
  (totalScore scored split <= Z.of_nat (b - a) * 8)%Z.
Proof.
  induction split as [|[s len] split IH]; intros a b; simpl.
  - intros <- _. rewrite Nat.sub_diag. lia.
  - intros (-> & Hlen & Hc) Hall. apply Forall_cons in Hall as [Hs Hall].
    simpl in Hs. specialize (IH _ _ Hc Hall).
    pose proof (contiguous_le _ _ _ Hc). lia.
Qed.

End Backtrack.

(** ** Span scorer *)

Lemma foldR_seq_inv {St : Type} (P : nat -> St -> Prop)
    (body : St -> nat -> Result St) (a n : nat) (s s' : St) :
  P a s ->
  (forall k t t', a <= k < a + n -> P k t -> body t k = Ok t' -> P (k + 1) t') ->
  foldR body (seq a n) s = Ok s' ->
  P (a + n) s'.
Proof.
  revert a s. induction n as [|n IH]; intros a s H0 Hstep; simpl.
  - intros [= <-]. by rewrite Nat.add_0_r.
  - destruct (body s a) as [t|e] eqn:Hb; [| done]. intros Hrest.
    replace (a + S n) with (S a + n) by lia. apply (IH (S a) t).
    + replace (S a) with (a + 1) by lia. apply (Hstep a s t); [lia | done | done].
    + intros k u u' Hk. apply Hstep. lia.
    + done.
Qed.

Lemma foldR_ext {A St : Type} (f g : St -> A -> Result St) (l : list A) (s : St) :
  (forall t a, f t a = g t a) -> foldR f l s = foldR g l s.
Proof.
  intros Hfg. revert s. induction l as [|a l IH]; intros s; simpl; [done |].
  rewrite Hfg. destruct (g s a); [apply IH | done].
Qed.

Lemma foldR_throw {A St : Type} (P : Exn -> Prop) (f : St -> A -> Result St)
    (l : list A) (s : St) (e : Exn) :
  (forall t a e', f t a = Throw e' -> P e') -> foldR f l s = Throw e -> P e.
Proof.
  intros Hf. revert s. induction l as [|a l IH]; intros s; simpl; [done |].
  destruct (f s a) as [t|e'] eqn:Hfa; [apply IH |].
  intros [= <-]. by apply (Hf s a).
Qed.

Module Scorer.

Section Scorer.

Variable toLowerCase : jsstring -> jsstring.
Variable spans : list (list (option Span)).
Variable dict : gmap jsstring jsstring.
Variables N MAX_SPAN : nat.

Local Abbreviation Scored := (Scored toLowerCase spans dict N MAX_SPAN).

(** The parts are built from the singles only. *)
Lemma collectParts_singles (a b : list (list (option Span))) i len :
  (forall j, cell a j 1 = cell b j 1) ->
  collectParts toLowerCase a i len = collectParts toLowerCase b i len.
Proof.
  intros Heq. unfold collectParts. apply foldR_ext.
  intros parts k. by rewrite Heq.
Qed.

Lemma Scored_init : shaped N MAX_SPAN spans -> Scored (fun _ _ => False) (spans, dict).
Proof.
  intros Hsh. split; simpl.
  - done.
  - done.
  - by intros i len [].
  - done.
  - by intros i len sp tr [].
Qed.

Lemma Scored_equiv (t1 t2 : nat -> nat -> Prop) st :
  (forall i len, t1 i len <-> t2 i len) -> Scored t1 st -> Scored t2 st.
Proof.
  intros Heq [Hsh Hrest Htr Honly Hreg]. split; try done.
  - intros i len Hn. apply Hrest. by rewrite Heq.
  - intros i len Ht. apply Htr. by rewrite Heq.
  - intros key Hkey. destruct (Honly key Hkey) as (i & len & sp & tr & Ht & ?).
    exists i, len, sp, tr. by rewrite <- Heq.
  - intros i len sp tr Ht Hc. rewrite <- Heq in Ht.
    destruct (Hreg i len sp tr Ht Hc) as (i' & len' & sp' & tr' & Ht' & ?).
    exists i', len', sp', tr'. by rewrite <- Heq.
Qed.

(** One step of the inner loop of the third step. *)
Lemma Scored_step (treated : nat -> nat -> Prop) k l st st' :
  Scored treated st ->
  (forall i len, treated i len -> 2 <= len) ->
  ¬ treated k l -> k < N -> l <= MAX_SPAN ->
  scoreSpan toLowerCase k st l = Ok st' ->
  Scored (fun i len => treated i len \/ (i = k /\ len = l)) st'.
Proof.
  intros [Hsh Hrest Htr Honly Hreg] Hlen Hnew Hk Hl. destruct st as [cur d].
  simpl in *. unfold scoreSpan. simpl.
  assert (Hcell : cell cur k l = cell spans k l) by by apply Hrest.
  assert (Hparts : collectParts toLowerCase cur k l = collectParts toLowerCase spans k l).
  { apply collectParts_singles. intros j. apply Hrest. intros Ht.
    apply Hlen in Ht. lia. }
  assert (Hsame : forall st0 : list (list (option Span)) * gmap jsstring jsstring,
            st0 = (cur, d) ->
            (forall sp tr, ¬ compoundAt toLowerCase spans k l sp tr) ->
            scoredCell toLowerCase spans k l (cell cur k l) ->
            Scored (fun i len => treated i len \/ (i = k /\ len = l)) st0).
  { intros st0 -> Hno Hsc. split; simpl; try done.
    - intros i len Hn. apply Hrest. tauto.
    - intros i len [Ht|[-> ->]]; [by apply Htr | done].
    - intros key Hkey. destruct (Honly key Hkey) as (i & len & sp & tr & Ht & ?).
      exists i, len, sp, tr. tauto.
    - intros i len sp tr [Ht|[-> ->]] Hc; [| by destruct (Hno sp tr)].
      destruct (Hreg i len sp tr Ht Hc) as (i' & len' & sp' & tr' & Ht' & ?).
      exists i', len', sp', tr'. tauto. }
  rewrite Hcell. destruct (cell spans k l) as [sp|] eqn:Hsp.
  2:{ intros [= <-]. apply Hsame; [done | | ].
      - intros sp tr (Hc & _). congruence.
      - unfold scoredCell. by rewrite Hsp. }
  destruct (fromDictionary sp) eqn:Hfd.
  { intros [= <-]. apply Hsame; [done | | ].
    - intros sp' tr (Hc & Hf & _). congruence.
    - unfold scoredCell. by rewrite Hsp, Hfd. }
  destruct (translation sp) as [tr|] eqn:Htrans; [| done].
  rewrite Hparts. destruct (collectParts toLowerCase spans k l) as [parts|e] eqn:Hp; [| done].
  destruct (isCompound (trim (toLowerCase tr)) parts) eqn:Hcomp; intros [= <-].
  - (* a detected compound *)
    assert (Hck : compoundAt toLowerCase spans k l sp tr).
    { split_and!; try done. by exists parts. }
    split; simpl.
    + by apply Table.shaped_setCell.
    + intros i len Hn. rewrite Table.cell_setCell_ne; [apply Hrest; tauto |].
      intros [= -> ->]. tauto.
    + intros i len [Ht|[-> ->]].
      * rewrite Table.cell_setCell_ne; [by apply Htr |]. by intros [= -> ->].
      * rewrite (Table.cell_setCell_eq N MAX_SPAN) by done.
        unfold scoredCell. rewrite Hsp, Hfd. exists tr, parts.
        by rewrite Hcomp.
    + intros key Hkey. destruct (decide (key = toLowerCase (text sp))) as [->|Hne].
      * exists k, l, sp, tr. split_and!; [tauto | done | done |].
        apply lookup_insert_eq.
      * rewrite lookup_insert_ne in Hkey |- * by done.
        destruct (Honly key Hkey) as (i & len & sp' & tr' & Ht & ?).
        exists i, len, sp', tr'. tauto.
    + intros i len sp0 tr0 Ht Hc.
      destruct (decide (toLowerCase (text sp0) = toLowerCase (text sp))) as [Heq|Hne].
      * exists k, l, sp, tr. split_and!; [tauto | done | done |].
        rewrite Heq. apply lookup_insert_eq.
      * destruct Ht as [Ht|[-> ->]].
        -- destruct (Hreg i len sp0 tr0 Ht Hc) as (i' & len' & sp' & tr' & Ht' & ? & ? & ?).
           exists i', len', sp', tr'. split_and!; [tauto | done | done |].
           by rewrite lookup_insert_ne.
        -- destruct Hc as (Hc & _). rewrite Hsp in Hc. injection Hc as <-. done.
  - (* not a compound *)
    split; simpl.
    + by apply Table.shaped_setCell.
    + intros i len Hn. rewrite Table.cell_setCell_ne; [apply Hrest; tauto |].
      intros [= -> ->]. tauto.
    + intros i len [Ht|[-> ->]].
      * rewrite Table.cell_setCell_ne; [by apply Htr |]. by intros [= -> ->].
      * rewrite (Table.cell_setCell_eq N MAX_SPAN) by done.
        unfold scoredCell. rewrite Hsp, Hfd. exists tr, parts.
        by rewrite Hcomp.
    + intros key Hkey. destruct (Honly key Hkey) as (i & len & sp' & tr' & Ht & ?).
      exists i, len, sp', tr'. tauto.
    + intros i len sp0 tr0 [Ht|[-> ->]] Hc.
      * destruct (Hreg i len sp0 tr0 Ht Hc) as (i' & len' & sp' & tr' & Ht' & ?).
        exists i', len', sp', tr'. tauto.
      * destruct Hc as (Hc & _ & Ht0 & parts0 & Hp0 & Hcomp0).
        rewrite Hsp in Hc. injection Hc as <-.
        rewrite Htrans in Ht0. injection Ht0 as <-.
        rewrite Hp in Hp0. injection Hp0 as <-. congruence.
Qed.


Lemma treatedUpTo_step k l i len :
  visited N MAX_SPAN k l -> 2 <= l ->
  (treatedUpTo N MAX_SPAN k l i len \/ (i = k /\ len = l))
  <-> treatedUpTo N MAX_SPAN k (l + 1) i len.
Proof.
  unfold treatedUpTo, before, visited. intros Hv Hl. split.
  - intros [(? & ? & ?)|[-> ->]]; split_and!; lia.
  - intros (? & ? & ?).
    destruct (decide (i = k /\ len = l)) as [?|Hn]; [by right |].
    left. split_and!; lia.
Qed.

(** One step of the outer loop of the third step. *)
Lemma Scored_row k st st' :
  Scored (treatedUpTo N MAX_SPAN k 2) st -> k < N ->
  foldR (scoreSpan toLowerCase k) (spanLengths 2 MAX_SPAN N k) st = Ok st' ->
  Scored (treatedUpTo N MAX_SPAN (k + 1) 2) st'.
Proof.
  intros HS Hk Hrow. unfold spanLengths in Hrow.
  pose proof (foldR_seq_inv (fun l t => Scored (treatedUpTo N MAX_SPAN k l) t)
    (scoreSpan toLowerCase k) 2 (Nat.min MAX_SPAN (N - k) + 1 - 2) st st' HS) as Hinv.
  eapply Scored_equiv; [| apply Hinv; [| exact Hrow]].
  - intros i len. unfold treatedUpTo, before, visited. lia.
  - intros l t t' Hl HSl Hstep.
    assert (visited N MAX_SPAN k l) as Hv by (unfold visited; lia).
    eapply Scored_equiv; [intros i len; apply (treatedUpTo_step k l i len Hv); lia |].
    apply (Scored_step _ k l t t' HSl); [| | done | | done].
    + unfold treatedUpTo. tauto.
    + unfold treatedUpTo, before. lia.
    + unfold visited in Hv. lia.
Qed.

Lemma scoreSpans_spec st' :
  shaped N MAX_SPAN spans ->
  scoreSpans toLowerCase N MAX_SPAN (spans, dict) = Ok st' ->
  Scored (fun i len => visited N MAX_SPAN i len /\ 2 <= len) st'.
Proof.
  intros Hsh Hrun. unfold scoreSpans in Hrun.
  pose proof (foldR_seq_inv (fun k t => Scored (treatedUpTo N MAX_SPAN k 2) t)
    (fun st i => foldR (scoreSpan toLowerCase i) (spanLengths 2 MAX_SPAN N i) st)
    0 N (spans, dict) st') as Hinv.
  eapply Scored_equiv; [| apply Hinv; [| | exact Hrun]].
  - intros i len. unfold treatedUpTo, before, visited. lia.
  - eapply Scored_equiv; [| by apply Scored_init].
    intros i len. unfold treatedUpTo, before. lia.
  - intros k t t' Hk HS Hrow. apply (Scored_row k t t' HS); [lia | done].
Qed.

End Scorer.

(** The baseline. *)
Lemma floorSingles_spec N MAX_SPAN (spans : list (list (option Span))) :
  shaped N MAX_SPAN spans -> 1 <= MAX_SPAN ->
  shaped N MAX_SPAN (floorSingles N spans)
  /\ forall i len,
      cell (floorSingles N spans) i len
      = if decide (len = 1 /\ i < N) then floorCell (cell spans i 1)
        else cell spans i len.
Proof.
  intros Hsh HM. unfold floorSingles.
  match goal with |- context [fold_left ?f _ _] =>
    pose proof (fold_left_seq_inv
      (fun k t => shaped N MAX_SPAN t
         /\ forall i len, cell t i len
              = if decide (len = 1 /\ i < k) then floorCell (cell spans i 1)
                else cell spans i len) f 0 N spans) as Hinv
  end.
  simpl in Hinv. apply Hinv; clear Hinv.
  - split; [done |]. intros i len. by rewrite decide_False by lia.
  - intros k t Hk [Hsht Hcells]. simpl in Hk.
    assert (cell t k 1 = cell spans k 1) as Hk1.
    { rewrite Hcells. by rewrite decide_False by lia. }
    assert (forall i len, (if decide (len = 1 /\ i < k + 1)
                           then floorCell (cell spans i 1) else cell spans i len)
              = if decide (i = k /\ len = 1) then floorCell (cell spans k 1)
                else cell t i len) as Hnew.
    { intros i len. rewrite Hcells.
      destruct (decide (i = k /\ len = 1)) as [[-> ->]|Hn].
      - by rewrite decide_True by lia.
      - destruct (decide (len = 1 /\ i < k + 1)) as [[-> ?]|?].
        + by rewrite decide_True by lia.
        + by rewrite decide_False by lia. }
    rewrite Hk1. destruct (cell spans k 1) as [sp|] eqn:Hsp; simpl.
    2:{ split; [done |]. intros i len. rewrite Hnew.
        destruct (decide (i = k /\ len = 1)) as [[-> ->]|?]; [| done].
        by rewrite Hk1. }
    destruct (score sp =? 0)%Z eqn:Hz.
    + split; [by apply Table.shaped_setCell |]. intros i len. rewrite Hnew.
      destruct (decide (i = k /\ len = 1)) as [[Hi Hl]|Hn].
      * subst i len.
        rewrite (Table.cell_setCell_eq N MAX_SPAN); [| done | lia | done].
        simpl.
        by rewrite Hz.
      * rewrite Table.cell_setCell_ne; [done |]. intros [= <- <-]. tauto.
    + split; [done |]. intros i len. rewrite Hnew.
      destruct (decide (i = k /\ len = 1)) as [[-> ->]|?]; [| done].
      rewrite Hk1. simpl. by rewrite Hz.
Qed.

End Scorer.

(** ** Exceptions of the clients and of the scorer *)

Module Throws.

Section Throws.

Variable toLowerCase : jsstring -> jsstring.
Variable cfg : Config.
Variable geminiService : nat -> jsstring -> jsstring -> list jsstring -> option jsstring.
Variable googleService : nat -> jsstring -> jsstring -> list jsstring -> option (list jsstring).

Lemma geminiBatches_throws source target uTexts uIdx starts : forall res w e w',
  geminiBatches geminiService source target uTexts uIdx starts res w = (Throw e, w') ->
  e = ApiError.
Proof.
  induction starts as [|b starts IH]; intros res w e w'; simpl; [done |].
  destruct (geminiService _ _ _ _) as [reply|]; [| by intros [= <- _]].
  destruct (geminiStore _ _ _ _ _ _ _ _ _) as [res' cache']. apply IH.
Qed.

Lemma googleBatches_throws source target uIdx batches : forall res n w e w',
  googleBatches googleService source target uIdx batches res n w = (Throw e, w') ->
  e = ApiError.
Proof.
  induction batches as [|b batches IH]; intros res n w e w'; simpl; [done |].
  destruct (googleService _ _ _ _) as [reply|]; [| by intros [= <- _]].
  destruct (googleStore _ _ _ _ _ _ _ _ _) as [[res' cache'] n']. apply IH.
Qed.

Lemma googleTranslate_throws texts source target w e w' :
  googleTranslate cfg geminiService googleService texts source target w = (Throw e, w') ->
  e = ApiError \/ e = NoApiKey.
Proof.
  unfold googleTranslate, geminiTranslate, throw.
  destruct (negb (isSet (GOOGLE_API_KEY cfg)) && isSet (GEMINI_API_KEY cfg)).
  - destruct (length _ =? 0); [done |]. intros H. left.
    by eapply geminiBatches_throws.
  - destruct (negb (isSet (GOOGLE_API_KEY cfg))); [intros [= <- _]; by right |].
    destruct (length _ =? 0); [done |]. intros H. left.
    by eapply googleBatches_throws.
Qed.

Lemma resolveSpans_throws syllables w e w' :
  resolveSpans toLowerCase cfg geminiService googleService syllables w = (Throw e, w') ->
  e = ApiError \/ e = NoApiKey.
Proof.
  unfold resolveSpans, bind, ret.
  destruct (collectSpans _ _ _ _ _) as [T pend].
  destruct (negb (length pend =? 0) && isSet (API_KEY cfg)).
  - destruct (googleTranslate _ _ _ _ _ _ w) as [[tr|e'] w1] eqn:Hg; [done |].
    intros [= <- _]. by eapply googleTranslate_throws.
  - by destruct (negb (length pend =? 0)).
Qed.

Lemma collectParts_throws spans i len e :
  collectParts toLowerCase spans i len = Throw e -> e = TypeError.
Proof.
  unfold collectParts. apply (foldR_throw (fun e => e = TypeError)).
  intros parts k e'. destruct (cell spans (i + k) 1) as [single|]; [| done].
  destruct (translation single); [done | by intros [= <-]].
Qed.

Lemma scoreSpan_throws i st len e :
  scoreSpan toLowerCase i st len = Throw e -> e = TypeError.
Proof.
  unfold scoreSpan. destruct (cell st.1 i len) as [sp|]; [| done].
  destruct (fromDictionary sp); [done |].
  destruct (translation sp) as [tr|]; [| by intros [= <-]].
  destruct (collectParts toLowerCase st.1 i len) as [parts|e'] eqn:Hp.
  - by destruct (isCompound _ _).
  - intros [= <-]. by eapply collectParts_throws.
Qed.

Lemma scoreAll_throws N MAX_SPAN spans w e w' :
  scoreAll toLowerCase N MAX_SPAN spans w = (Throw e, w') -> e = TypeError.
Proof.
  unfold scoreAll.
  destruct (scoreSpans toLowerCase N MAX_SPAN (spans, dictionary w))
    as [[mid d]|e'] eqn:Hsc; [done |].
  intros [= <- _]. unfold scoreSpans in Hsc.
  revert Hsc. apply (foldR_throw (fun e => e = TypeError)).
  intros st i e2. apply (foldR_throw (fun e => e = TypeError)).
  intros st' len e3. apply scoreSpan_throws.
Qed.

End Throws.

End Throws.

(** ** The pipeline of [smartSegmentAndTranslate] *)

Module Pipeline.

Section Pipeline.

Variable toLowerCase : jsstring -> jsstring.
Variable cfg : Config.
Variable geminiService : nat -> jsstring -> jsstring -> list jsstring -> option jsstring.
Variable googleService : nat -> jsstring -> jsstring -> list jsstring -> option (list jsstring).
Variable syllables : list jsstring.

Let N := length syllables.
Let MAX_SPAN := Nat.min 4 N.

Lemma fill_resolved (dict : gmap jsstring jsstring) translations :
  resolvedWith toLowerCase dict syllables
    (collectSpans toLowerCase dict syllables N MAX_SPAN).2 translations
    (fillTranslated translations 0
       (collectSpans toLowerCase dict syllables N MAX_SPAN).2
       (collectSpans toLowerCase dict syllables N MAX_SPAN).1).
Proof.
  pose proof (Table.Collected_all toLowerCase dict syllables) as HC.
  fold N MAX_SPAN in HC.
  destruct (collectSpans toLowerCase dict syllables N MAX_SPAN) as [T pend] eqn:Hcol.
  destruct HC as [Hsh Hseen Hun Hpend Hnd]. cbn [fst snd] in *.
  split; [by apply Table.shaped_fillTranslated |].
  intros i len Hv.
  assert (before N 1 i len) as Hbf by (unfold before, visited, N in *; lia).
  specialize (Hseen i len Hv Hbf).
  destruct (dictLookup toLowerCase dict (phraseAt syllables i len)) as [entry|] eqn:Hlook.
  - rewrite Table.fillTranslated_other; [done |].
    intros p Hp Heq. destruct (Hpend p Hp) as (_ & _ & Hpe & Hmiss).
    injection Heq as Hi Hl. rewrite Hpe, Hi, Hl in Hmiss. simpl in Hmiss. congruence.
  - destruct Hseen as [_ Hin]. apply list_elem_of_lookup in Hin as [n Hn].
    exists n. split; [done |].
    pose proof (Table.fillTranslated_at N MAX_SPAN translations pend 0 T n
                  (pendingAt syllables i len) Hsh Hn) as Hat.
    simpl in Hat. apply Hat.
    + intros m q Hm Heq.
      assert (q = pendingAt syllables i len) as ->.
      { destruct (Hpend q) as (_ & _ & Hq & _); [by eapply list_elem_of_lookup_2 |].
        injection Heq as Hi Hl. by rewrite Hq, Hi, Hl. }
      by apply (NoDup_lookup _ _ _ _ Hnd Hm Hn).
    + unfold visited, N in *. lia.
    + unfold visited, MAX_SPAN, N in *. lia.
Qed.

(** The two first steps: how the table returned was filled. *)
Lemma resolveSpans_cases w w' resolved :
  resolveSpans toLowerCase cfg geminiService googleService syllables w
  = (Ok resolved, w') ->
  exists translations,
    resolved
    = fillTranslated translations 0
        (collectSpans toLowerCase (dictionary w) syllables N MAX_SPAN).2
        (collectSpans toLowerCase (dictionary w) syllables N MAX_SPAN).1
    /\ ((isSet (API_KEY cfg) = true
         /\ googleTranslate cfg geminiService googleService
              (List.map pendingText
                 (collectSpans toLowerCase (dictionary w) syllables N MAX_SPAN).2)
              (js "vi") (js "en") w
            = (Ok translations, w'))
        \/ (w' = w
            /\ translations
               = List.map (fun t => Some (pendingText t))
                   (collectSpans toLowerCase (dictionary w) syllables N MAX_SPAN).2)).
Proof.
  unfold resolveSpans. fold N MAX_SPAN.
  destruct (collectSpans toLowerCase (dictionary w) syllables N MAX_SPAN) as [T pend].
  simpl. destruct (negb (length pend =? 0)) eqn:Hne; simpl.
  - destruct (isSet (API_KEY cfg)) eqn:Hkey.
    + unfold bind, ret.
      destruct (googleTranslate _ _ _ _ _ _ w) as [[translations|e] w1] eqn:Hg; [| done].
      intros [= <- <-]. exists translations. split; [done |]. by left.
    + intros [= <- <-]. exists (List.map (fun t => Some (pendingText t)) pend).
      split; [apply Table.fillIdentity_eq |]. by right.
  - intros [= <- <-]. destruct pend; [| done].
    exists []. split; [done |]. by right.
Qed.

Lemma resolveSpans_resolved w w' resolved :
  resolveSpans toLowerCase cfg geminiService googleService syllables w
  = (Ok resolved, w') ->
  exists translations,
    resolvedWith toLowerCase (dictionary w) syllables
      (collectSpans toLowerCase (dictionary w) syllables N MAX_SPAN).2
      translations resolved.
Proof.
  intros Hres. destruct (resolveSpans_cases w w' resolved Hres) as (tr & -> & _).
  exists tr. apply fill_resolved.
Qed.

(** The third step and the baseline, on a table of the right shape. *)
Lemma scoreAll_spec (resolved scored : list (list (option Span))) w w' :
  shaped N MAX_SPAN resolved -> 1 <= MAX_SPAN ->
  scoreAll toLowerCase N MAX_SPAN resolved w = (Ok scored, w') ->
  shaped N MAX_SPAN scored
  /\ (forall i, i < N -> cell scored i 1 = floorCell (cell resolved i 1))
  /\ (forall i len, visited N MAX_SPAN i len -> 2 <= len ->
        scoredCell toLowerCase resolved i len (cell scored i len))
  /\ translationCache w' = translationCache w /\ sent w' = sent w
  /\ (forall key,
        dictionary w' !! key ≠ dictionary w !! key ->
        exists i len sp tr,
          (visited N MAX_SPAN i len /\ 2 <= len)
          /\ compoundAt toLowerCase resolved i len sp tr
          /\ key = toLowerCase (text sp) /\ dictionary w' !! key = Some tr)
  /\ (forall i len sp tr,
        visited N MAX_SPAN i len /\ 2 <= len ->
        compoundAt toLowerCase resolved i len sp tr ->
        exists i' len' sp' tr',
          (visited N MAX_SPAN i' len' /\ 2 <= len')
          /\ compoundAt toLowerCase resolved i' len' sp' tr'
          /\ toLowerCase (text sp') = toLowerCase (text sp)
          /\ dictionary w' !! toLowerCase (text sp) = Some tr').
Proof.
  intros Hsh HM. unfold scoreAll.
  destruct (scoreSpans toLowerCase N MAX_SPAN (resolved, dictionary w))
    as [[mid dict']|e] eqn:Hsc; [| done].
  intros [= <- <-].
  pose proof (Scorer.scoreSpans_spec toLowerCase resolved (dictionary w) N MAX_SPAN
                _ Hsh Hsc) as HS.
  destruct (Scorer.floorSingles_spec N MAX_SPAN mid (sc_shaped _ _ _ _ _ _ _ HS) HM)
    as [Hshf Hfloor].
  destruct HS as [Hshm Hrest Htr Honly Hreg]. simpl in *.
  split_and!; try done.
  - intros i Hi. rewrite Hfloor, decide_True by lia.
    rewrite Hrest; [done |]. lia.
  - intros i len Hv Hl. rewrite Hfloor, decide_False by lia. by apply Htr.
Qed.


(** After the three first steps every visited pair has a span, whose text
    is the phrase at that place and whose flag tells whether the phrase is
    in the Lexicon. *)
Lemma scored_cells w w1 w2 resolved scored :
  1 <= N ->
  resolveSpans toLowerCase cfg geminiService googleService syllables w
  = (Ok resolved, w1) ->
  scoreAll toLowerCase N MAX_SPAN resolved w1 = (Ok scored, w2) ->
  forall i len, visited N MAX_SPAN i len ->
    exists sp, cell scored i len = Some sp /\ text sp = phraseAt syllables i len
      /\ fromDictionary sp
         = bool_decide (is_Some (dictLookup toLowerCase (dictionary w)
                                   (phraseAt syllables i len))).
Proof.
  intros HN Hres Hsc i len Hv.
  destruct (resolveSpans_resolved w w1 resolved Hres) as (tr & Hsh & Hcells).
  fold N MAX_SPAN in Hsh, Hcells.
  assert (1 <= MAX_SPAN) as HM by (unfold MAX_SPAN; lia).
  destruct (scoreAll_spec resolved scored w1 w2 Hsh HM Hsc)
    as (_ & Hone & Hmany & _).
  assert (forall i len, visited N MAX_SPAN i len ->
            exists sp, cell resolved i len = Some sp
              /\ text sp = phraseAt syllables i len
              /\ fromDictionary sp
                 = bool_decide (is_Some (dictLookup toLowerCase (dictionary w)
                                           (phraseAt syllables i len)))) as Hres_cells.
  { intros i' len' Hv'. specialize (Hcells i' len' Hv').
    destruct (dictLookup _ _ _) as [entry|].
    - eexists. by split_and!.
    - destruct Hcells as (n & _ & Hc). eexists. by split_and!. }
  destruct (Hres_cells i len Hv) as (sp & Hsp & Htext & Hflag).
  destruct (decide (len = 1)) as [->|Hne].
  - rewrite Hone by (unfold visited in Hv; lia). rewrite Hsp. simpl.
    destruct (score sp =? 0)%Z; by eexists.
  - assert (2 <= len) as Hl by (unfold visited in Hv; lia).
    specialize (Hmany i len Hv Hl). unfold scoredCell in Hmany.
    rewrite Hsp in Hmany. destruct (fromDictionary sp) eqn:Hfd.
    + exists sp. by rewrite Hfd.
    + destruct Hmany as (t & parts & _ & _ & ->). eexists.
      split_and!; [done | done |]. simpl. by rewrite Hfd.
Qed.

(** The two last steps return, on a table where every visited pair has a
    span. *)
Lemma segments_cover (scored : list (list (option Span))) :
  1 <= N ->
  (forall i len, visited N MAX_SPAN i len -> is_Some (cell scored i len)) ->
  exists segments,
    segmentsOf scored N MAX_SPAN = Ok segments
    /\ buildResults scored segments = Ok (List.map (wordOf scored) segments)
    /\ contiguous 0 segments N
    /\ Forall (fun c => visited N MAX_SPAN c.1 c.2) segments
    /\ Forall (fun c => (solve scored N MAX_SPAN).2 !! (c.1 + c.2) = Some (Some c))
         segments.
Proof.
  intros HN Hcells.
  assert (1 <= MAX_SPAN) as HM by (unfold MAX_SPAN; lia).
  destruct (Backtrack.backtrack_chain (solve scored N MAX_SPAN).2 N N [])
    as (chain & Hb & Hcont & Hall); [| done |].
  { intros j Hj.
    destruct (Solver.solve_reaches scored N MAX_SPAN HM) with (j := j) as [dj Hdj];
      [| lia |].
    { intros i Hi. apply Hcells. unfold visited. lia. }
    destruct (Solver.solve_chosen scored N MAX_SPAN j dj) as (i & len & Hc); [lia | done |].
    destruct (Solver.solve_choice scored N MAX_SPAN j i len Hc) as (? & Hv & _).
    exists i, len. unfold visited in Hv. split_and!; [done | done | lia]. }
  assert (Forall (fun c => visited N MAX_SPAN c.1 c.2) chain) as Hvis.
  { eapply Forall_impl; [exact Hall |]. intros [i len] Hc. simpl in *.
    by destruct (Solver.solve_choice scored N MAX_SPAN _ i len Hc) as (_ & Hv & _). }
  exists (reverse chain). split_and!.
  - unfold segmentsOf. by rewrite Hb.
  - unfold buildResults. rewrite Backtrack.buildResults_all; [done |].
    apply Forall_reverse. eapply Forall_impl; [exact Hvis |].
    intros c Hv. by apply Hcells.
  - done.
  - by apply Forall_reverse.
  - by apply Forall_reverse.
Qed.


(** Exact cover for a sequence of syllables. *)
Lemma smartSegmentSyllables_cover w :
  1 <= N ->
  match smartSegmentSyllables toLowerCase cfg geminiService googleService
          syllables w with
  | (Ok words, _) =>
      exists segments,
        contiguous 0 segments N
        /\ Forall (fun c => 1 <= c.2 <= 4) segments
        /\ sum_list (List.map snd segments) = N
        /\ List.map word words
           = List.map (fun c => phraseAt syllables c.1 c.2) segments
        /\ concat (List.map (fun c : nat * nat => slice c.1 (c.1 + c.2) syllables)
                     segments)
           = syllables
  | (Throw e, _) =>
      e ≠ OutOfFuel
      /\ (scoredSpans toLowerCase cfg geminiService googleService syllables w).1
         = Throw e
  end.
Proof.
  intros HN. unfold smartSegmentSyllables, scoredSpans. fold N. fold MAX_SPAN.
  rewrite (proj2 (Nat.eqb_neq N 0)) by lia. unfold bind, liftR.
  destruct (resolveSpans _ _ _ _ _ w) as [[resolved|e] w1] eqn:Hres.
  2:{ split; [| done].
      destruct (Throws.resolveSpans_throws _ _ _ _ _ _ _ _ Hres) as [->| ->]; done. }
  destruct (scoreAll toLowerCase N MAX_SPAN resolved w1) as [[scored|e] w2] eqn:Hsc.
  2:{ split; [| done]. by rewrite (Throws.scoreAll_throws _ _ _ _ _ _ _ Hsc). }
  pose proof (scored_cells w w1 w2 resolved scored HN Hres Hsc) as Hcells.
  destruct (segments_cover scored HN) as (segments & -> & -> & Hcont & Hvis & _).
  { intros i len Hv. destruct (Hcells i len Hv) as (sp & -> & _). by eexists. }
  exists segments. split_and!.
  - done.
  - eapply Forall_impl; [exact Hvis |]. intros c Hv.
    unfold visited, MAX_SPAN in Hv. lia.
  - apply (Backtrack.contiguous_sum 0 N segments Hcont).
  - rewrite <- list_fmap_compose. apply Forall_fmap_ext_1.
    eapply Forall_impl; [exact Hvis |]. intros c Hv. simpl.
    destruct (Hcells c.1 c.2 Hv) as (sp & Hsp & Htext & _).
    unfold wordOf. by rewrite Hsp.
  - rewrite (Backtrack.contiguous_slices syllables segments 0 N Hcont) by done.
    unfold slice, N. rewrite drop_0, Nat.sub_0_r. by apply take_ge.
Qed.

(** A Lexicon entry of two syllables or more keeps its span and its score
    through the three first steps. *)
Lemma scored_lexicon_cell w w' scored i l entry :
  scoredSpans toLowerCase cfg geminiService googleService syllables w = (Ok scored, w') ->
  2 <= l -> visited N MAX_SPAN i l ->
  dictLookup toLowerCase (dictionary w) (phraseAt syllables i l) = Some entry ->
  cell scored i l = Some (lexiconSpan syllables i l entry).
Proof.
  unfold scoredSpans, bind. fold N MAX_SPAN. intros Hrun Hl Hv Hhit.
  destruct (resolveSpans _ _ _ _ _ w) as [[resolved|e] w1] eqn:Hres; [| done].
  destruct (resolveSpans_resolved w w1 resolved Hres) as (tr & Hsh & Hcells).
  fold N MAX_SPAN in Hsh, Hcells.
  assert (1 <= MAX_SPAN) as HM by (unfold visited in Hv; lia).
  destruct (scoreAll_spec resolved scored w1 w' Hsh HM Hrun) as (_ & _ & Hmany & _).
  specialize (Hmany i l Hv Hl). specialize (Hcells i l Hv).
  rewrite Hhit in Hcells. unfold scoredCell in Hmany. by rewrite Hcells in Hmany.
Qed.

Lemma scoredSpans_cells w w' scored :
  1 <= N ->
  scoredSpans toLowerCase cfg geminiService googleService syllables w = (Ok scored, w') ->
  forall i len, visited N MAX_SPAN i len ->
    exists sp, cell scored i len = Some sp /\ text sp = phraseAt syllables i len.
Proof.
  unfold scoredSpans, bind. fold N MAX_SPAN. intros HN Hrun i len Hv.
  destruct (resolveSpans _ _ _ _ _ w) as [[resolved|e] w1] eqn:Hres; [| done].
  destruct (scored_cells w w1 w' resolved scored HN Hres Hrun i len Hv)
    as (sp & ? & ? & _).
  by exists sp.
Qed.

(** Along segments that are the choices of the dynamic programme, [dp]
    grows by the scores. *)
Lemma path_total (scored : list (list (option Span))) split : forall a b da,
  contiguous a split b ->
  Forall (fun c => (solve scored N MAX_SPAN).2 !! (c.1 + c.2) = Some (Some c)) split ->
  (solve scored N MAX_SPAN).1 !! a = Some (Some da) ->
  (solve scored N MAX_SPAN).1 !! b = Some (Some (da + totalScore scored split)%Z).
Proof.
  induction split as [|[s len] split IH]; intros a b da; simpl.
  - intros <- _ Ha. by rewrite Z.add_0_r.
  - intros (-> & Hlen & Hc) Hall Ha. apply Forall_cons in Hall as [Hch Hall].
    simpl in Hch.
    destruct (Solver.solve_choice scored N MAX_SPAN _ a len Hch)
      as (_ & _ & sp & di & Hsp & Hdi & Hdj).
    rewrite Ha in Hdi. injection Hdi as <-.
    rewrite (IH _ _ _ Hc Hall Hdj). unfold scoreAt at 1. simpl. rewrite Hsp.
    do 2 f_equal. lia.
Qed.

End Pipeline.

(** C1. For an input of [N >= 1] syllables, what [smartSegmentAndTranslate]
    returns is made of spans [(start, len)], each of 1 to 4 syllables, that
    follow one another from 0 to [N] without gap or overlap; their lengths
    add up to [N], the word of each is the phrase at its place, and their
    syllables put end to end are the syllables of the input. The call
    returns unless one of the three first steps throws (the translation of
    the unknown spans fails, or a span is left without translation): the
    dynamic programme and the backtracking never throw and never run out of
    fuel. *)
Theorem segmentation_exact_cover
    (toLowerCase : jsstring -> jsstring) (cfg : Config)
    (geminiService : nat -> jsstring -> jsstring -> list jsstring -> option jsstring)
    (googleService : nat -> jsstring -> jsstring -> list jsstring -> option (list jsstring))
    (input : jsstring) (w : World) :
  let syllables := syllablesOf input in
  let N := length syllables in
  1 <= N ->
  match smartSegmentAndTranslate toLowerCase cfg geminiService googleService
          input w with
  | (Ok words, _) =>
      exists segments,
        contiguous 0 segments N
        /\ Forall (fun c => 1 <= c.2 <= 4) segments
        /\ sum_list (List.map snd segments) = N
        /\ List.map word words
           = List.map (fun c => phraseAt syllables c.1 c.2) segments
        /\ concat (List.map (fun c : nat * nat => slice c.1 (c.1 + c.2) syllables)
                     segments)
           = syllables
  | (Throw e, _) =>
      e ≠ OutOfFuel
      /\ (scoredSpans toLowerCase cfg geminiService googleService syllables w).1
         = Throw e
  end.
Proof.
  intros syllables N HN. unfold smartSegmentAndTranslate.
  by apply smartSegmentSyllables_cover.
Qed.

(** C4. A phrase of the Lexicon that occupies the syllables [i .. i+l),
    with [l] from 2 to 4, has a span of score [l * 10]. This is strictly
    more than the total score of any partition of the same syllables into
    spans whose scores are at most 8 per syllable. The dynamic programme
    therefore reaches [i + l] with at least the best total at [i] plus
    [l * 10], strictly more than through such a partition, and no such
    partition is part of the segmentation returned. *)
Theorem lexicon_phrase_preferred
    (toLowerCase : jsstring -> jsstring) (cfg : Config)
    (geminiService : nat -> jsstring -> jsstring -> list jsstring -> option jsstring)
    (googleService : nat -> jsstring -> jsstring -> list jsstring -> option (list jsstring))
    (input : jsstring) (w w' : World) (scored : list (list (option Span)))
    (i l : nat) (entry : jsstring) :
  let syllables := syllablesOf input in
  let N := length syllables in
  let MAX_SPAN := Nat.min 4 N in
  scoredSpans toLowerCase cfg geminiService googleService syllables w = (Ok scored, w') ->
  2 <= l -> l <= 4 -> i + l <= N ->
  dictLookup toLowerCase (dictionary w) (phraseAt syllables i l) = Some entry ->
  (exists sp, cell scored i l = Some sp /\ score sp = (Z.of_nat l * 10)%Z
              /\ fromDictionary sp = true)
  /\ forall split,
      contiguous i split (i + l) ->
      Forall (fun c => (scoreAt scored c <= Z.of_nat c.2 * 8)%Z) split ->
      (totalScore scored split < Z.of_nat l * 10)%Z
      /\ (exists d dj,
            (solve scored N MAX_SPAN).1 !! i = Some (Some d)
            /\ (solve scored N MAX_SPAN).1 !! (i + l) = Some (Some dj)
            /\ (d + Z.of_nat l * 10 <= dj)%Z
            /\ (d + totalScore scored split < dj)%Z)
      /\ (forall segments pre post,
            segmentsOf scored N MAX_SPAN = Ok segments ->
            segments ≠ pre ++ split ++ post).
Proof.
  intros syllables N MAX_SPAN Hrun Hl2 Hl4 HiN Hhit.
  assert (visited N MAX_SPAN i l) as Hv by (unfold visited, MAX_SPAN; lia).
  assert (1 <= N) as HN by lia.
  assert (1 <= MAX_SPAN) as HM by (unfold MAX_SPAN; lia).
  pose proof (scored_lexicon_cell toLowerCase cfg geminiService googleService
                syllables w w' scored i l entry Hrun Hl2 Hv Hhit) as Hcell.
  pose proof (scoredSpans_cells toLowerCase cfg geminiService googleService
                syllables w w' scored HN Hrun) as Hcells.
  split; [by eexists |].
  intros split Hcont Hall.
  assert (totalScore scored split < Z.of_nat l * 10)%Z as Hless.
  { pose proof (Backtrack.totalScore_bound scored split i (i + l) Hcont Hall).
    replace (i + l - i) with l in * by lia. lia. }
  destruct (Solver.solve_reaches scored N MAX_SPAN HM) with (j := i) as [d Hd]; [| lia |].
  { intros k Hk. destruct (Hcells k 1) as (sp & -> & _); [unfold visited; lia |].
    by eexists. }
  destruct (Solver.solve_best scored N MAX_SPAN i l _ d Hv Hcell Hd)
    as (dj & c & Hdj & Hle & _).
  simpl in Hle.
  split_and!; [done | |].
  - exists d, dj. split_and!; [done | done | done | lia].
  - intros segments pre post Hseg ->.
    destruct (segments_cover syllables scored HN) as (segs & Hsegs & _ & _ & _ & Hch).
    { intros k len Hk. destruct (Hcells k len Hk) as (sp & -> & _). by eexists. }
    fold N MAX_SPAN in Hsegs, Hch. rewrite Hseg in Hsegs. injection Hsegs as <-.
    apply Forall_app in Hch as [_ Hch]. apply Forall_app in Hch as [Hch _].
    pose proof (path_total syllables scored split i (i + l) d Hcont Hch Hd) as Hpath.
    fold N MAX_SPAN in Hpath. rewrite Hdj in Hpath. injection Hpath as ->. lia.
Qed.

End Pipeline.

(** ** Classification of compounds *)

Module Compound.

Lemma isCompound_spec compoundTrans parts :
  isCompound compoundTrans parts = true
  <-> compoundTrans ≠ [] /\ compoundCondition compoundTrans parts.
Proof.
  unfold isCompound, compoundCondition.
  rewrite !andb_true_iff, !negb_true_iff, !bool_decide_eq_false, Nat.leb_le,
    Nat.eqb_neq.
  destruct compoundTrans; simpl; split.
  - intros (((? & ?) & ?) & ?). lia.
  - intros (? & _). done.
  - intros (((? & ?) & ?) & ?). by split_and!.
  - intros (? & ? & ? & ?). split_and!; done || lia.
Qed.

Lemma collectParts_senses (toLowerCase : jsstring -> jsstring)
    (spans : list (list (option Span))) i ks : forall acc parts,
  (forall k, k ∈ ks -> is_Some (cell spans (i + k) 1)) ->
  foldR
    (fun parts k =>
       match cell spans (i + k) 1 with
       | Some single =>
           match translation single with
           | Some tr => Ok (parts ++ [firstSense toLowerCase tr])
           | None => Throw TypeError
           end
       | None => Ok parts
       end)
    ks acc = Ok parts ->
  exists new, parts = acc ++ new
    /\ Forall2
         (fun k part =>
            exists single tr,
              cell spans (i + k) 1 = Some single /\ translation single = Some tr
              /\ part = firstSense toLowerCase tr)
         ks new.
Proof.
  induction ks as [|k ks IH]; intros acc parts Hsome; simpl.
  - intros [= <-]. exists []. by rewrite app_nil_r.
  - destruct (Hsome k) as [single Hsingle]; [by left |]. rewrite Hsingle.
    destruct (translation single) as [tr|] eqn:Htr; [| done].
    intros Hrest. destruct (IH _ _ (fun k' Hk' => Hsome k' (list_elem_of_further _ _ _ Hk')) Hrest)
      as (new & -> & Hall).
    exists (firstSense toLowerCase tr :: new). split; [by rewrite <- app_assoc |].
    constructor; [| done]. by exists single, tr.
Qed.

(** C5. After the two first steps and the scoring, for every span of two
    syllables or more that is not a Lexicon span and has a translation
    [tr] (a string of which something is left after case normalization):
    the parts are the first senses of the singles under it; when the
    case-normalized translation differs from the parts joined in order and
    in reverse order and has at most 3 words, the span scores [len * 8]
    and the dictionary has an entry under its lower-cased text, put there
    by a detected compound of that text; otherwise it scores [len * 1], as
    does a span whose translation is empty after normalization. The
    dictionary changes at no key but those of detected compounds. A single
    that is not a Lexicon span scores 1, and a single of the Lexicon keeps
    its 10. *)
Theorem compound_classification
    (toLowerCase : jsstring -> jsstring) (cfg : Config)
    (geminiService : nat -> jsstring -> jsstring -> list jsstring -> option jsstring)
    (googleService : nat -> jsstring -> jsstring -> list jsstring -> option (list jsstring))
    (syllables : list jsstring) (w w1 w2 : World)
    (resolved scored : list (list (option Span))) :
  let N := length syllables in
  let MAX_SPAN := Nat.min 4 N in
  1 <= N ->
  resolveSpans toLowerCase cfg geminiService googleService syllables w
  = (Ok resolved, w1) ->
  scoreAll toLowerCase N MAX_SPAN resolved w1 = (Ok scored, w2) ->
  (forall i len sp tr,
     visited N MAX_SPAN i len -> 2 <= len ->
     cell resolved i len = Some sp -> fromDictionary sp = false ->
     translation sp = Some tr ->
     exists parts,
       collectParts toLowerCase resolved i len = Ok parts
       /\ sensesOfSingles toLowerCase resolved i len parts
       /\ (trim (toLowerCase tr) ≠ [] ->
           (compoundCondition (trim (toLowerCase tr)) parts ->
            cell scored i len = Some (setScore sp (Z.of_nat len * 8))
            /\ exists i' len' sp' tr',
                compoundAt toLowerCase resolved i' len' sp' tr'
                /\ toLowerCase (text sp') = toLowerCase (text sp)
                /\ dictionary w2 !! toLowerCase (text sp) = Some tr')
           /\ (¬ compoundCondition (trim (toLowerCase tr)) parts ->
               cell scored i len = Some (setScore sp (Z.of_nat len * 1))))
       /\ (trim (toLowerCase tr) = [] ->
           cell scored i len = Some (setScore sp (Z.of_nat len * 1))))
  /\ (forall key,
        dictionary w2 !! key ≠ dictionary w1 !! key ->
        exists i len sp tr,
          visited N MAX_SPAN i len /\ 2 <= len
          /\ compoundAt toLowerCase resolved i len sp tr
          /\ key = toLowerCase (text sp) /\ dictionary w2 !! key = Some tr)
  /\ (forall i sp,
        i < N -> cell resolved i 1 = Some sp ->
        if fromDictionary sp
        then cell scored i 1 = Some sp /\ score sp = 10%Z
        else cell scored i 1 = Some (setScore sp 1)).
Proof.
  intros N MAX_SPAN HN Hres Hsc.
  destruct (Pipeline.resolveSpans_resolved toLowerCase cfg geminiService googleService
              syllables w w1 resolved Hres) as (trs & Hsh & Hcells).
  fold N MAX_SPAN in Hsh, Hcells.
  assert (1 <= MAX_SPAN) as HM by (unfold MAX_SPAN; lia).
  destruct (Pipeline.scoreAll_spec toLowerCase syllables resolved scored w1 w2 Hsh HM Hsc)
    as (_ & Hone & Hmany & _ & _ & Honly & Hreg).
  fold N MAX_SPAN in Hone, Hmany, Honly, Hreg.
  assert (forall i, i < N -> is_Some (cell resolved i 1)) as Hsingles.
  { intros i Hi. specialize (Hcells i 1 ltac:(unfold visited; lia)).
    destruct (dictLookup _ _ _); [by eexists |].
    destruct Hcells as (n & _ & ->). by eexists. }
  split_and!.
  - intros i len sp tr Hv Hl Hsp Hfd Htr.
    pose proof (Hmany i len Hv Hl) as Hcell. unfold scoredCell in Hcell.
    rewrite Hsp, Hfd in Hcell. destruct Hcell as (tr0 & parts & Htr0 & Hparts & Hcell).
    rewrite Htr in Htr0. injection Htr0 as <-.
    exists parts. split_and!; [done | | |].
    + unfold collectParts in Hparts.
      destruct (collectParts_senses toLowerCase resolved i (seq 0 len) [] parts)
        as (new & -> & Hall); [| done | done].
      intros k Hk. apply elem_of_seq in Hk. apply Hsingles.
      unfold visited in Hv. lia.
    + intros Hprovided. split.
      * intros Hcomp.
        assert (isCompound (trim (toLowerCase tr)) parts = true) as Hyes
          by by apply isCompound_spec.
        rewrite Hyes in Hcell. split; [done |].
        destruct (Hreg i len sp tr (conj Hv Hl)) as (i' & len' & sp' & tr' & _ & ? & ? & ?).
        { split_and!; [done | done | done |]. by exists parts. }
        by exists i', len', sp', tr'.
      * intros Hcomp.
        assert (isCompound (trim (toLowerCase tr)) parts = false) as Hno.
        { apply not_true_is_false. rewrite isCompound_spec. tauto. }
        by rewrite Hno in Hcell.
    + intros Hempty.
      assert (isCompound (trim (toLowerCase tr)) parts = false) as Hno.
      { apply not_true_is_false. rewrite isCompound_spec. tauto. }
      by rewrite Hno in Hcell.
  - intros key Hkey. destruct (Honly key Hkey) as (i & len & sp & tr & [? ?] & ? & ? & ?).
    by exists i, len, sp, tr.
  - intros i sp Hi Hsp. rewrite (Hone i Hi), Hsp. simpl.
    specialize (Hcells i 1 ltac:(unfold visited; lia)).
    destruct (dictLookup _ _ _) as [entry|].
    + rewrite Hsp in Hcells. injection Hcells as ->. simpl. done.
    + destruct Hcells as (n & _ & Hc). rewrite Hsp in Hc. injection Hc as ->. done.
Qed.

End Compound.

(** ** Translation clients *)

Module Clients.

Section Scan.

Variable cache : gmap jsstring jsstring.
Variables source target : jsstring.

Lemma scanCache_eq texts : forall i sc,
  scanCache cache source target i texts sc
  = mkScan (fillHits cache source target i texts (results sc))
      (uncachedTexts sc ++ missTexts cache source target texts)
      (uncachedIndices sc ++ missIndices cache source target i texts).
Proof.
  induction texts as [|t texts IH]; intros i sc; simpl.
  - unfold missTexts. simpl. rewrite !app_nil_r. by destruct sc.
  - rewrite IH. unfold missTexts. simpl.
    destruct (cacheHit cache source target t) as [v|] eqn:Hhit; simpl.
    + done.
    + by rewrite <- !app_assoc.
Qed.

Lemma length_fillHits texts : forall i res,
  length (fillHits cache source target i texts res) = length res.
Proof.
  induction texts as [|t texts IH]; intros i res; simpl; [done |].
  rewrite IH. destruct (cacheHit cache source target t); [apply length_insert | done].
Qed.

Lemma fillHits_lookup texts : forall i res k,
  k < length res ->
  fillHits cache source target i texts res !! k
  = match (if decide (i <= k) then texts !! (k - i) else None) with
    | Some t =>
        match cacheHit cache source target t with
        | Some v => Some (Some v)
        | None => res !! k
        end
    | None => res !! k
    end.
Proof.
  induction texts as [|t texts IH]; intros i res k Hk; simpl.
  - destruct (decide (i <= k)); by rewrite ?lookup_nil.
  - rewrite IH by (destruct (cacheHit cache source target t);
                   by rewrite ?length_insert).
    destruct (decide (S i <= k)) as [Hle|Hgt].
    + rewrite decide_True by lia.
      replace (k - i) with (S (k - S i)) by lia. simpl.
      assert (forall v, <[i := Some v]> res !! k = res !! k) as Hne.
      { intros v. apply list_lookup_insert_ne. lia. }
      destruct (texts !! (k - S i)) as [t'|];
        [destruct (cacheHit cache source target t') |];
        destruct (cacheHit cache source target t); by rewrite ?Hne.
    + destruct (decide (i <= k)) as [Hle|Hgt'].
      * assert (k = i) as -> by lia. rewrite Nat.sub_diag. simpl.
        destruct (cacheHit cache source target t); [| done].
        by rewrite list_lookup_insert_eq.
      * destruct (cacheHit cache source target t); [| done].
        apply list_lookup_insert_ne. lia.
Qed.

Lemma missIndices_spec texts : forall i,
  Forall2 (fun idx t => i <= idx /\ texts !! (idx - i) = Some t
                        /\ cacheHit cache source target t = None)
    (missIndices cache source target i texts) (missTexts cache source target texts).
Proof.
  induction texts as [|t texts IH]; intros i; unfold missTexts; simpl; [constructor |].
  assert (Forall2 (fun idx t0 => i <= idx /\ (t :: texts) !! (idx - i) = Some t0
                                 /\ cacheHit cache source target t0 = None)
            (missIndices cache source target (S i) texts)
            (missTexts cache source target texts)) as Htail.
  { eapply Forall2_impl; [apply (IH (S i)) |]. intros idx t0 (Hle & Hlook & Hmiss).
    split_and!; [lia | | done].
    replace (idx - i) with (S (idx - S i)) by lia. done. }
  destruct (cacheHit cache source target t) as [v|] eqn:Hhit.
  - by rewrite bool_decide_eq_false_2 by done.
  - rewrite bool_decide_eq_true_2 by done. constructor; [| done].
    rewrite Nat.sub_diag. by split_and!.
Qed.

Lemma missIndices_lower texts : forall i idx,
  idx ∈ missIndices cache source target i texts -> i <= idx.
Proof.
  induction texts as [|t texts IH]; intros i idx; simpl; [by intros ?%elem_of_nil |].
  destruct (cacheHit cache source target t).
  - intros Hin%IH. lia.
  - intros [->|Hin%IH]%elem_of_cons; lia.
Qed.

Lemma missIndices_NoDup texts : forall i,
  NoDup (missIndices cache source target i texts).
Proof.
  induction texts as [|t texts IH]; intros i; simpl; [apply NoDup_nil_2 |].
  destruct (cacheHit cache source target t); [apply IH |].
  apply NoDup_cons. split; [| apply IH].
  intros Hin%missIndices_lower. lia.
Qed.

Lemma missIndices_elem texts : forall i j t,
  texts !! j = Some t -> cacheHit cache source target t = None ->
  i + j ∈ missIndices cache source target i texts.
Proof.
  induction texts as [|t0 texts IH]; intros i j t; [done |].
  destruct j as [|j]; simpl.
  - intros [= ->] Hmiss. rewrite Hmiss, Nat.add_0_r. by left.
  - intros Hj Hmiss. replace (i + S j) with (S i + j) by lia.
    destruct (cacheHit cache source target t0); [| right]; by eapply IH.
Qed.

End Scan.

(** The first loop of either client. *)
Lemma scanTexts_spec cache source target texts :
  let sc := scanTexts cache source target texts in
  length (results sc) = length texts
  /\ uncachedTexts sc = missTexts cache source target texts
  /\ NoDup (uncachedIndices sc)
  /\ Forall2 (fun idx t => texts !! idx = Some t
                           /\ cacheHit cache source target t = None)
       (uncachedIndices sc) (uncachedTexts sc)
  /\ (forall i t, texts !! i = Some t ->
        match cacheHit cache source target t with
        | Some v => results sc !! i = Some (Some v) /\ i ∉ uncachedIndices sc
        | None => results sc !! i = Some None /\ i ∈ uncachedIndices sc
        end).
Proof.
  unfold scanTexts. rewrite scanCache_eq. simpl.
  split_and!.
  - by rewrite length_fillHits, length_replicate.
  - done.
  - apply missIndices_NoDup.
  - eapply Forall2_impl; [apply missIndices_spec |].
    intros idx t (_ & Hlook & Hmiss). by rewrite Nat.sub_0_r in Hlook.
  - intros i t Hi. pose proof (lookup_lt_Some _ _ _ Hi) as Hlt.
    rewrite fillHits_lookup by by rewrite length_replicate.
    rewrite decide_True, Nat.sub_0_r, Hi by lia.
    destruct (cacheHit cache source target t) as [v|] eqn:Hhit.
    + split; [done |]. intros Hin.
      pose proof (missIndices_spec cache source target texts 0) as Hall.
      apply list_elem_of_lookup in Hin as [p Hp].
      destruct (Forall2_lookup_l _ _ _ _ _ Hall Hp) as (t' & _ & _ & Hlook & Hmiss).
      rewrite Nat.sub_0_r, Hi in Hlook. injection Hlook as <-. congruence.
    + split; [by apply lookup_replicate_2 |].
      by apply (missIndices_elem cache source target texts 0 i t).
Qed.

(** The batches cover the uncached texts. *)
Lemma batches_cover {A} (size : nat) (L : list A) :
  1 <= size ->
  concat (List.map (fun b => slice b (b + size) L) (batchStarts size (length L))) = L.
Proof.
  intros Hsize. unfold batchStarts. rewrite List.map_map.
  assert (forall q, concat (List.map (fun k => slice (k * size) (k * size + size) L) (seq 0 q))
                    = take (q * size) L) as Hq.
  { induction q as [|q IH]; [done |].
    rewrite seq_S, List.map_app, concat_app, IH. simpl. rewrite app_nil_r.
    unfold slice. replace (q * size + size - q * size) with size by lia.
    rewrite take_take_drop. f_equal. lia. }
  rewrite Hq. apply take_ge.
  pose proof (Nat.div_mod_eq (length L + size - 1) size) as Hdiv.
  pose proof (Nat.mod_upper_bound (length L + size - 1) size ltac:(lia)) as Hmod.
  nia.
Qed.

Lemma slice_lookup {A} (L : list A) b size j :
  j < size -> slice b (b + size) L !! j = L !! (b + j).
Proof.
  intros Hj. unfold slice. replace (b + size - b) with size by lia.
  by rewrite lookup_take_lt, lookup_drop.
Qed.

Lemma take_min_length {A} (L : list A) n : take (Nat.min n (length L)) L = take n L.
Proof.
  destruct (Nat.min_spec n (length L)) as [[? ->]|[? ->]]; [done |].
  by rewrite !take_ge by lia.
Qed.

Lemma length_slice {A} (L : list A) b size :
  length (slice b (b + size) L) = Nat.min size (length L - b).
Proof.
  unfold slice. replace (b + size - b) with size by lia.
  by rewrite length_take, length_drop.
Qed.

Section WriteBack.

Variables source target : jsstring.

Lemma cacheKey_inj x y : cacheKey source target x = cacheKey source target y -> x = y.
Proof.
  unfold cacheKey. intros H. apply app_inv_head in H. simpl in H.
  injection H as H. apply app_inv_head in H. by injection H.
Qed.

Lemma writeBack_app es1 es2 st :
  writeBack source target (es1 ++ es2) st
  = writeBack source target es2 (writeBack source target es1 st).
Proof.
  revert st. induction es1 as [|[[idx t] a] es1 IH]; intros st; simpl; [done |].
  apply IH.
Qed.

Lemma writeBack_length es : forall st,
  length (writeBack source target es st).1 = length st.1.
Proof.
  induction es as [|[[idx t] a] es IH]; intros st; simpl; [done |].
  rewrite IH. simpl. destruct idx; [apply length_insert | done].
Qed.

Lemma writeBack_result_other es i : forall st,
  Some i ∉ es.*1.*1 ->
  (writeBack source target es st).1 !! i = st.1 !! i.
Proof.
  induction es as [|[[idx t] a] es IH]; intros st Hnin; simpl; [done |].
  rewrite !fmap_cons in Hnin. simpl in Hnin.
  apply not_elem_of_cons in Hnin as [Hne Hnin].
  rewrite IH by done. simpl. destruct idx as [i'|]; [| done].
  apply list_lookup_insert_ne. congruence.
Qed.

Lemma writeBack_result es i t a : forall st,
  NoDup es.*1.*1 -> (Some i, t, a) ∈ es -> i < length st.1 ->
  (writeBack source target es st).1 !! i = Some (Some a).
Proof.
  induction es as [|[[idx t'] a'] es IH]; intros st Hnd Hin Hi; simpl.
  - by apply elem_of_nil in Hin.
  - rewrite !fmap_cons in Hnd. simpl in Hnd. apply NoDup_cons in Hnd as [Hfresh Hnd].
    apply elem_of_cons in Hin as [[= <- <- <-]|Hin].
    + rewrite writeBack_result_other by done. simpl.
      by apply list_lookup_insert_eq.
    + apply IH; [done | done |]. simpl. destruct idx; by rewrite ?length_insert.
Qed.

Lemma writeBack_cache_other es key : forall st,
  (forall e, e ∈ es -> cacheKey source target e.1.2 ≠ key) ->
  (writeBack source target es st).2 !! key = st.2 !! key.
Proof.
  induction es as [|[[idx t] a] es IH]; intros st Hne; simpl; [done |].
  rewrite IH.
  - simpl. apply lookup_insert_ne. apply (Hne (idx, t, a)). by left.
  - intros e He. apply Hne. by right.
Qed.

Lemma writeBack_cache es : forall st e,
  e ∈ es ->
  exists e', e' ∈ es /\ e'.1.2 = e.1.2
             /\ (writeBack source target es st).2 !! cacheKey source target e.1.2
                = Some e'.2.
Proof.
  induction es as [|[[idx t] a] es IH]; intros st e Hin; simpl.
  - by apply elem_of_nil in Hin.
  - assert (e.1.2 ∈ es.*1.*2 <-> exists e0, e0 ∈ es /\ e0.1.2 = e.1.2) as Hiff.
    { rewrite <- list_fmap_compose, list_elem_of_fmap. simpl.
      split; intros (e0 & ? & ?); by exists e0. }
    destruct (decide (e.1.2 ∈ es.*1.*2)) as [Hlater|Hnone]; rewrite Hiff in *.
    + destruct Hlater as (e0 & He0 & Heq).
      destruct (IH (match idx with Some i => <[i := Some a]> st.1 | None => st.1 end,
                    <[cacheKey source target t := a]> st.2) e0 He0)
        as (e' & He' & Heq' & Hc).
      exists e'. split_and!; [by right | congruence | by rewrite <- Heq].
    + apply elem_of_cons in Hin as [->|Hin]; [| destruct Hnone; by exists e].
      exists (idx, t, a). split_and!; [by left | done |]. simpl.
      rewrite writeBack_cache_other; [apply lookup_insert_eq |].
      intros e0 He0 Hkey. apply Hnone. exists e0. split; [done |].
      by apply cacheKey_inj.
Qed.

End WriteBack.

Lemma entriesAt_elem I : forall texts answers p e,
  e ∈ entriesAt I p texts answers ->
  exists j, texts !! j = Some e.1.2 /\ answers !! j = Some e.2 /\ e.1.1 = I !! (p + j).
Proof.
  induction texts as [|t texts IH]; intros [|a answers] p e; simpl;
    try by intros ?%elem_of_nil.
  intros [->|Hin]%elem_of_cons.
  - exists 0. by rewrite Nat.add_0_r.
  - destruct (IH _ _ _ Hin) as (j & ? & ? & ?). exists (S j).
    split_and!; [done | done |]. by replace (p + S j) with (S p + j) by lia.
Qed.

Lemma entriesAt_texts I : forall texts answers p,
  length answers = length texts -> (entriesAt I p texts answers).*1.*2 = texts.
Proof.
  induction texts as [|t texts IH]; intros [|a answers] p Hlen;
    cbn [entriesAt length] in *; try done.
  rewrite !fmap_cons. simpl. f_equal. apply IH. lia.
Qed.

Lemma entriesAt_indices I : forall texts answers p,
  length answers = length texts -> p + length texts <= length I ->
  (entriesAt I p texts answers).*1.*1 = Some <$> slice p (p + length texts) I.
Proof.
  induction texts as [|t texts IH]; intros [|a answers] p Hlen Hp;
    cbn [entriesAt length] in *; try done.
  - unfold slice. by replace (p + 0 - p) with 0 by lia.
  - rewrite !fmap_cons. cbn [fst snd]. rewrite IH by lia.
    unfold slice. replace (p + S (length texts) - p) with (S (length texts)) by lia.
    replace (S p + length texts - S p) with (length texts) by lia.
    destruct (I !! p) as [i|] eqn:Hi.
    2:{ apply lookup_ge_None in Hi. lia. }
    rewrite (drop_S _ _ _ Hi). simpl. done.
Qed.

Lemma geminiAnswers_length lines batch : forall j,
  length (geminiAnswers lines j batch) = length batch.
Proof. induction batch as [|t batch IH]; intros j; simpl; [done |]. by rewrite IH. Qed.

Lemma geminiAnswers_lookup lines batch : forall j k t,
  batch !! k = Some t ->
  geminiAnswers lines j batch !! k = Some (parseLine (lines !! (j + k)) t).
Proof.
  induction batch as [|t0 batch IH]; intros j k t; [done |].
  destruct k as [|k]; simpl.
  - intros [= ->]. by rewrite Nat.add_0_r.
  - intros Hk. rewrite (IH (S j) k t Hk). by replace (j + S k) with (S j + k) by lia.
Qed.

(** The store loop of the prompt client writes these entries. *)
Lemma geminiStore_eq source target I lines b batch : forall j res cache,
  geminiStore source target I lines b j batch res cache
  = writeBack source target (entriesAt I (b + j) batch (geminiAnswers lines j batch))
      (res, cache).
Proof.
  induction batch as [|t batch IH]; intros j res cache; simpl; [done |].
  rewrite IH. by replace (b + S j) with (S (b + j)) by lia.
Qed.

Section Gemini.

Variable geminiService : nat -> jsstring -> jsstring -> list jsstring -> option jsstring.
Variables source target : jsstring.
Variable U : list jsstring.
Variable I : list nat.

Lemma geminiBatches_spec starts : forall res w res' w',
  geminiBatches geminiService source target U I starts res w = (Ok res', w') ->
  exists es,
    geminiEntries geminiService source target U I (length (sent w)) starts = Some es
    /\ writeBack source target es (res, translationCache w) = (res', translationCache w')
    /\ sent w'
       = sent w ++ List.map (fun b => GeminiRequest source target (slice b (b + 20) U)) starts
    /\ dictionary w' = dictionary w.
Proof.
  induction starts as [|b starts IH]; intros res w res' w'; simpl.
  - intros [= <- <-]. exists []. by rewrite app_nil_r.
  - destruct (geminiService _ _ _ _) as [reply|]; [| done].
    rewrite geminiStore_eq. rewrite Nat.add_0_r.
    destruct (writeBack _ _ _ _) as [res1 cache1] eqn:Hwb. intros Hrest.
    destruct (IH _ _ _ _ Hrest) as (es & Hes & Hw & Hsent & Hdict).
    simpl in Hes, Hw, Hsent, Hdict.
    rewrite length_app in Hes. simpl in Hes.
    replace (length (sent w) + 1) with (S (length (sent w))) in Hes by lia.
    rewrite Hes. eexists. split_and!; [done | | |].
    + by rewrite writeBack_app, Hwb.
    + by rewrite Hsent, <- app_assoc.
    + done.
Qed.

Lemma geminiEntries_texts starts : forall n es,
  geminiEntries geminiService source target U I n starts = Some es ->
  es.*1.*2 = concat (List.map (fun b => slice b (b + 20) U) starts).
Proof.
  induction starts as [|b starts IH]; intros n es; simpl.
  - by intros [= <-].
  - destruct (geminiService _ _ _ _) as [reply|]; [| done].
    destruct (geminiEntries _ _ _ _ _ _ _) as [es'|] eqn:Hes'; [| done].
    intros [= <-]. rewrite !fmap_app, (IH _ _ Hes').
    by rewrite entriesAt_texts by apply geminiAnswers_length.
Qed.

Lemma geminiEntries_indices starts : forall n es,
  length I = length U ->
  Forall (fun b => b <= length U) starts ->
  geminiEntries geminiService source target U I n starts = Some es ->
  es.*1.*1 = Some <$> concat (List.map (fun b => slice b (b + 20) I) starts).
Proof.
  induction starts as [|b starts IH]; intros n es Hlen Hb; simpl.
  - by intros [= <-].
  - apply Forall_cons in Hb as [Hb Hbs].
    destruct (geminiService _ _ _ _) as [reply|]; [| done].
    destruct (geminiEntries _ _ _ _ _ _ _) as [es'|] eqn:Hes'; [| done].
    intros [= <-]. rewrite !fmap_app, (IH _ _ Hlen Hbs Hes').
    rewrite entriesAt_indices.
    + f_equal. f_equal. unfold slice. rewrite length_take, length_drop.
      replace (b + 20 - b) with 20 by lia.
      replace (b + 20 `min` (length U - b) - b) with (20 `min` (length U - b)) by lia.
      rewrite <- Hlen, <- (length_drop I b). apply take_min_length.
    + apply geminiAnswers_length.
    + rewrite length_slice. lia.
Qed.

Lemma geminiEntries_origin starts : forall n es e,
  geminiEntries geminiService source target U I n starts = Some es ->
  e ∈ es ->
  exists k b reply j,
    starts !! k = Some b
    /\ geminiService (n + k) source target (slice b (b + 20) U) = Some reply
    /\ slice b (b + 20) U !! j = Some e.1.2
    /\ e.1.1 = I !! (b + j)
    /\ e.2 = parseLine (responseLines reply !! j) e.1.2.
Proof.
  induction starts as [|b starts IH]; intros n es e; simpl.
  - intros [= <-] Hin. by apply elem_of_nil in Hin.
  - destruct (geminiService _ _ _ _) as [reply|] eqn:Hreply; [| done].
    destruct (geminiEntries _ _ _ _ _ _ _) as [es'|] eqn:Hes'; [| done].
    intros [= <-] [Hin|Hin]%elem_of_app.
    + destruct (entriesAt_elem _ _ _ _ _ Hin) as (j & Ht & Ha & Hidx).
      exists 0, b, reply, j. rewrite Nat.add_0_r.
      split_and!; [done | done | done | done |].
      rewrite (geminiAnswers_lookup _ _ 0 j _ Ht) in Ha. by injection Ha as <-.
    + destruct (IH _ _ _ Hes' Hin) as (k & b' & reply' & j & ? & Hs & ? & ? & ?).
      exists (S k), b', reply', j.
      replace (n + S k) with (S n + k) by lia. by split_and!.
Qed.

End Gemini.

Section Google.

Variable googleService : nat -> jsstring -> jsstring -> list jsstring -> option (list jsstring).
Variables source target : jsstring.
Variable I : list nat.

(** The bulk service answers every batch with one translation per text. *)
Hypothesis one_per_text : forall n s t batch translations,
  googleService n s t batch = Some translations -> length translations = length batch.






End Google.

(** What the entries written mean for the results and the cache, when the
    entries are those of the uncached texts of the first loop. *)
Lemma stored_spec (source target : jsstring) (cache : gmap jsstring jsstring)
    (texts : list jsstring) (es : list (option nat * jsstring * jsstring))
    (res : list (option jsstring)) (cache' : gmap jsstring jsstring) :
  let sc := scanTexts cache source target texts in
  es.*1.*1 = Some <$> uncachedIndices sc ->
  es.*1.*2 = uncachedTexts sc ->
  writeBack source target es (results sc, cache) = (res, cache') ->
  length res = length texts
  /\ (forall i t v, texts !! i = Some t -> cacheHit cache source target t = Some v ->
        res !! i = Some (Some v))
  /\ (forall i t, texts !! i = Some t -> cacheHit cache source target t = None ->
        exists a, (Some i, t, a) ∈ es /\ res !! i = Some (Some a))
  /\ (forall i t, texts !! i = Some t -> cacheHit cache source target t = None ->
        exists i' a', texts !! i' = Some t /\ (Some i', t, a') ∈ es
                      /\ res !! i' = Some (Some a')
                      /\ cache' !! cacheKey source target t = Some a')
  /\ (forall key v, truthy (cache !! key) = Some v -> cache' !! key = cache !! key).
Proof.
  intros sc Hidx Htxt Hwb.
  destruct (scanTexts_spec cache source target texts)
    as (Hlen & HU & Hnd & Hpairs & Hscan). fold sc in Hlen, HU, Hnd, Hpairs, Hscan.
  assert (res = (writeBack source target es (results sc, cache)).1) as Hres
    by by rewrite Hwb.
  assert (cache' = (writeBack source target es (results sc, cache)).2) as Hcache
    by by rewrite Hwb.
  assert (forall e, e ∈ es ->
            exists i, e.1.1 = Some i /\ texts !! i = Some e.1.2
                      /\ cacheHit cache source target e.1.2 = None) as Hentry.
  { intros e He. apply list_elem_of_lookup in He as [p Hp].
    assert (es.*1.*1 !! p = Some e.1.1) as H1 by by rewrite !list_lookup_fmap, Hp.
    assert (es.*1.*2 !! p = Some e.1.2) as H2 by by rewrite !list_lookup_fmap, Hp.
    rewrite Hidx, list_lookup_fmap in H1. rewrite Htxt in H2.
    destruct (uncachedIndices sc !! p) as [i|] eqn:Hi; [| done].
    injection H1 as H1. exists i. split; [done |].
    destruct (Forall2_lookup_l _ _ _ _ _ Hpairs Hi) as (t' & Ht' & ? & ?).
    rewrite H2 in Ht'. injection Ht' as <-. done. }
  assert (NoDup es.*1.*1) as Hnd'.
  { rewrite Hidx. apply NoDup_fmap; [apply _ | done]. }
  assert (forall i t, texts !! i = Some t -> cacheHit cache source target t = None ->
            exists a, (Some i, t, a) ∈ es /\ res !! i = Some (Some a)) as Hmiss.
  { intros i t Hi Hm. specialize (Hscan i t Hi). rewrite Hm in Hscan.
    destruct Hscan as [_ Hin].
    assert (Some i ∈ es.*1.*1) as Hin' by (rewrite Hidx; by apply list_elem_of_fmap_2).
    rewrite <- list_fmap_compose in Hin'.
    apply list_elem_of_fmap in Hin' as ([[idx t'] a] & Heq & He). simpl in Heq. subst idx.
    destruct (Hentry _ He) as (i' & [= <-] & Ht' & _). simpl in Ht'.
    rewrite Hi in Ht'. injection Ht' as <-.
    exists a. split; [done |]. rewrite Hres.
    apply (writeBack_result source target es i t a); [done | done |].
    simpl. rewrite Hlen. by eapply lookup_lt_Some. }
  split_and!.
  - by rewrite Hres, writeBack_length.
  - intros i t v Hi Hhit. specialize (Hscan i t Hi). rewrite Hhit in Hscan.
    destruct Hscan as [Hr Hnin]. rewrite Hres, writeBack_result_other; [done |].
    rewrite Hidx. intros Hin. apply list_elem_of_fmap in Hin as (i' & [= <-] & Hin).
    done.
  - done.
  - intros i t Hi Hm. destruct (Hmiss i t Hi Hm) as (a & He & _).
    destruct (writeBack_cache source target es (results sc, cache) _ He)
      as ([[idx t'] a'] & He' & Heq & Hc). simpl in Heq, Hc. subst t'.
    destruct (Hentry _ He') as (i' & Hidx' & Ht' & _). simpl in Hidx', Ht'. subst idx.
    exists i', a'. split_and!; [done | done | | by rewrite Hcache].
    rewrite Hres. apply (writeBack_result source target es i' t a'); [done | done |].
    simpl. rewrite Hlen. by eapply lookup_lt_Some.
  - intros key v Hv. rewrite Hcache. apply writeBack_cache_other.
    intros e He Hkey. destruct (Hentry e He) as (i & _ & _ & Hm).
    unfold cacheHit in Hm. rewrite Hkey in Hm. congruence.
Qed.

Lemma batchStarts_bound size len b :
  1 <= size -> b ∈ batchStarts size len -> b < len.
Proof.
  intros Hsize Hb. unfold batchStarts in Hb.
  apply list_elem_of_In in Hb. apply in_map_iff in Hb as (k & <- & Hk).
  apply in_seq in Hk.
  pose proof (Nat.div_mod_eq (len + size - 1) size) as Hdiv.
  pose proof (Nat.mod_upper_bound (len + size - 1) size ltac:(lia)) as Hmod.
  nia.
Qed.


(** The prompt client, described by the entries it writes. *)
Lemma geminiTranslate_spec
    (geminiService : nat -> jsstring -> jsstring -> list jsstring -> option jsstring)
    (texts : list jsstring) (source target : jsstring) (w w' : World)
    (res : list (option jsstring)) :
  geminiTranslate geminiService texts source target w = (Ok res, w') ->
  let sc := scanTexts (translationCache w) source target texts in
  exists es,
    geminiEntries geminiService source target (uncachedTexts sc) (uncachedIndices sc)
      (length (sent w)) (batchStarts 20 (length (uncachedTexts sc))) = Some es
    /\ es.*1.*1 = Some <$> uncachedIndices sc
    /\ es.*1.*2 = uncachedTexts sc
    /\ writeBack source target es (results sc, translationCache w)
       = (res, translationCache w')
    /\ sent w'
       = sent w ++ List.map (fun b => GeminiRequest source target
                                       (slice b (b + 20) (uncachedTexts sc)))
                    (batchStarts 20 (length (uncachedTexts sc)))
    /\ dictionary w' = dictionary w.
Proof.
  intros Hrun sc. unfold geminiTranslate in Hrun. fold sc in Hrun.
  destruct (scanTexts_spec (translationCache w) source target texts)
    as (_ & _ & _ & Hpairs & _). fold sc in Hpairs.
  pose proof (Forall2_length _ _ _ Hpairs) as Hlen.
  destruct (length (uncachedTexts sc) =? 0) eqn:Hzero.
  - injection Hrun as <- <-. apply Nat.eqb_eq in Hzero.
    rewrite Hzero in Hlen |- *.
    destruct (uncachedTexts sc); [| done]. destruct (uncachedIndices sc); [| done].
    exists []. simpl. by rewrite app_nil_r.
  - destruct (geminiBatches_spec _ _ _ _ _ _ _ _ _ _ Hrun) as (es & Hes & Hw & Hsent & Hd).
    exists es. split_and!; try done.
    + assert (Forall (fun b => b <= length (uncachedTexts sc))
                (batchStarts 20 (length (uncachedTexts sc)))) as Hb.
      { apply Forall_forall. intros b Hb%(batchStarts_bound 20); lia. }
      rewrite (geminiEntries_indices _ _ _ _ _ _ _ _ Hlen Hb Hes).
      rewrite <- Hlen. by rewrite batches_cover by lia.
    + rewrite (geminiEntries_texts _ _ _ _ _ _ _ _ Hes). apply batches_cover. lia.
Qed.


Lemma map_lookup {A B} (f : A -> B) (l : list A) (k : nat) :
  List.map f l !! k = f <$> l !! k.
Proof. apply list_lookup_fmap. Qed.



(** Whatever a call of the prompt client returns, the cache entries that
    counted before are kept. *)
Lemma geminiBatches_keeps
    (geminiService : nat -> jsstring -> jsstring -> list jsstring -> option jsstring)
    (source target : jsstring) (U : list jsstring) (I : list nat)
    (cache0 : gmap jsstring jsstring) starts :
  Forall (fun t => cacheHit cache0 source target t = None) U ->
  forall res w r w',
    (forall key v, truthy (cache0 !! key) = Some v ->
                   translationCache w !! key = cache0 !! key) ->
    geminiBatches geminiService source target U I starts res w = (r, w') ->
    forall key v, truthy (cache0 !! key) = Some v ->
                  translationCache w' !! key = cache0 !! key.
Proof.
  intros HU. induction starts as [|b starts IH]; intros res w r w' Hkeep; simpl.
  - by intros [= <- <-].
  - destruct (geminiService _ _ _ _) as [reply|].
    2:{ intros [= <- <-]. simpl. done. }
    rewrite geminiStore_eq.
    destruct (writeBack _ _ _ _) as [res1 cache1] eqn:Hwb.
    apply IH. simpl. intros key v Hv.
    replace cache1 with (writeBack source target
      (entriesAt I (b + 0) (slice b (b + 20) U)
         (geminiAnswers (responseLines reply) 0 (slice b (b + 20) U)))
      (res, translationCache w)).2 by by rewrite Hwb.
    rewrite writeBack_cache_other; [by apply (Hkeep key v) |].
    intros e He Hkey. destruct (entriesAt_elem _ _ _ _ _ He) as (j & Ht & _).
    assert (e.1.2 ∈ U) as Hin.
    { unfold slice in Ht. apply lookup_take_Some in Ht as [Ht _].
      rewrite lookup_drop in Ht. by eapply list_elem_of_lookup_2. }
    rewrite Forall_forall in HU. specialize (HU _ Hin).
    unfold cacheHit in HU. rewrite Hkey in HU. congruence.
Qed.

Lemma geminiTranslate_keeps
    (geminiService : nat -> jsstring -> jsstring -> list jsstring -> option jsstring)
    texts source target w r w' key v :
  geminiTranslate geminiService texts source target w = (r, w') ->
  truthy (translationCache w !! key) = Some v ->
  translationCache w' !! key = translationCache w !! key.
Proof.
  unfold geminiTranslate. destruct (length _ =? 0); [by intros [= <- <-] |].
  intros Hrun Hv.
  eapply (geminiBatches_keeps geminiService source target _ _ (translationCache w));
    [| | exact Hrun | exact Hv]; [| done].
  destruct (scanTexts_spec (translationCache w) source target texts)
    as (_ & _ & _ & Hpairs & _).
  apply Forall_forall. intros t Ht. apply list_elem_of_lookup in Ht as [p Hp].
  by destruct (Forall2_lookup_r _ _ _ _ _ Hpairs Hp) as (i & _ & _ & ?).
Qed.



End Clients.

(** ** Fallback and validation *)

Module Fallback.

(** C8, as the code has it. A text that is empty or made of white space
    only is rejected with status 400 before anything is sent to the oracle.
    A text with no syllable that is not of this kind (punctuation) is not
    rejected: the sentence is sent to the oracle, the segmenter returns no
    word without any work, and the response is that of a translated
    sentence with an empty list of words (or status 500 when the oracle
    fails). *)
Theorem empty_text_rejected
    (toLowerCase : jsstring -> jsstring) (cfg : Config)
    (geminiService : nat -> jsstring -> jsstring -> list jsstring -> option jsstring)
    (googleService : nat -> jsstring -> jsstring -> list jsstring -> option (list jsstring))
    (input : jsstring) (w : World) :
  (trim input = [] ->
   forall mode,
     handleTranslate toLowerCase cfg geminiService googleService input mode w
     = (BadRequest, w))
  /\ (syllablesOf input = [] ->
      smartSegmentAndTranslate toLowerCase cfg geminiService googleService input w
      = (Ok [], w))
  /\ (trim input ≠ [] -> syllablesOf input = [] ->
      handleTranslate toLowerCase cfg geminiService googleService input ViToEn w
      = match googleTranslate cfg geminiService googleService [input]
                (js "vi") (js "en") w with
        | (Ok sentence, w1) => (Translated (default None (head sentence)) [], w1)
        | (Throw e, w1) => (ServerError e, w1)
        end).
Proof.
  split_and!.
  - intros Htrim mode. unfold handleTranslate. rewrite Htrim. simpl.
    by rewrite orb_true_r.
  - intros Hsyl. unfold smartSegmentAndTranslate, smartSegmentSyllables.
    by rewrite Hsyl.
  - intros Htrim Hsyl. unfold handleTranslate.
    assert (length (trim input) ≠ 0) as Hlen by by destruct (trim input).
    assert (length input ≠ 0) as Hlen' by (destruct input; [done | simpl; lia]).
    rewrite (proj2 (Nat.eqb_neq _ _) Hlen), (proj2 (Nat.eqb_neq _ _) Hlen'). simpl.
    destruct (googleTranslate _ _ _ _ _ _ w) as [[sentence|e] w1]; [| done].
    unfold smartSegmentAndTranslate, smartSegmentSyllables. by rewrite Hsyl.
Qed.

End Fallback.


(** ** The statements at concrete inputs *)

Module Examples.

(** C1 on the example of the specification, without any key. *)
Lemma segmentation_exact_cover_witness :
  1 <= length (syllablesOf sampleInput)
  /\ match smartSegmentAndTranslate asciiLower noKeys noGemini noGoogle
             sampleInput sampleWorld with
     | (Ok words, _) =>
         exists segments,
           contiguous 0 segments (length (syllablesOf sampleInput))
           /\ Forall (fun c => 1 <= c.2 <= 4) segments
           /\ sum_list (List.map snd segments) = length (syllablesOf sampleInput)
           /\ List.map word words
              = List.map (fun c => phraseAt (syllablesOf sampleInput) c.1 c.2) segments
           /\ concat (List.map
                        (fun c : nat * nat =>
                           slice c.1 (c.1 + c.2) (syllablesOf sampleInput))
                        segments)
              = syllablesOf sampleInput
     | (Throw e, _) =>
         e ≠ OutOfFuel
         /\ (scoredSpans asciiLower noKeys noGemini noGoogle
               (syllablesOf sampleInput) sampleWorld).1 = Throw e
     end.
Proof.
  split; [vm_compute; lia |].
  apply (Pipeline.segmentation_exact_cover asciiLower noKeys noGemini noGoogle
           sampleInput sampleWorld).
  vm_compute. lia.
Defined.

(** C3 on a table where the span of two syllables and the two singles
    reach position 2 with the same total. *)
Lemma tie_keeps_smaller_start_witness :
  exists c, (solve tieSpans 2 2).2 !! 2 = Some (Some c) /\ c ≠ (1, 1).
Proof.
  destruct (Solver.tie_keeps_smaller_start tieSpans 2 2 2 0 2 1 1
              (mkSpan (js "a b") (Some (js "a b")) false 2)
              (mkSpan (js "b") (Some (js "b")) false 1) 0%Z 1%Z)
    as (_ & _ & c & Hc & Hne & _).
  - unfold visited. lia.
  - unfold visited. lia.
  - reflexivity.
  - reflexivity.
  - reflexivity.
  - reflexivity.
  - reflexivity.
  - reflexivity.
  - reflexivity.
  - lia.
  - exists c. split; [exact Hc | exact Hne].
Defined.

(** C4 on the example of the specification: the Lexicon phrase at the
    start of the text. *)
Lemma lexicon_phrase_preferred_witness :
  exists sp, cell sampleScored 0 2 = Some sp /\ score sp = (Z.of_nat 2 * 10)%Z
             /\ fromDictionary sp = true.
Proof.
  refine (proj1 (Pipeline.lexicon_phrase_preferred asciiLower noKeys noGemini noGoogle
                   sampleInput sampleWorld sampleScoredWorld sampleScored 0 2
                   (js "this") _ _ _ _ _)).
  - vm_compute. reflexivity.
  - lia.
  - lia.
  - vm_compute. lia.
  - vm_compute. reflexivity.
Defined.

(** C5 on the two syllables [a b] with the one-line reply: the span of
    both is a detected compound. *)
Lemma compound_classification_witness :
  exists parts,
    collectParts asciiLower shortResolved 0 2 = Ok parts
    /\ cell shortScored 0 2
       = Some (setScore (mkSpan (js "a b") (Some (js "a b")) false 0) (Z.of_nat 2 * 8)).
Proof.
  destruct (Compound.compound_classification asciiLower geminiOnly shortReply noGoogle
              [js "a"; js "b"] emptyWorld shortResolvedWorld shortScoredWorld
              shortResolved shortScored)
    as (Hmany & _ & _).
  - simpl. lia.
  - vm_compute. reflexivity.
  - vm_compute. reflexivity.
  - destruct (Hmany 0 2 (mkSpan (js "a b") (Some (js "a b")) false 0) (js "a b"))
      as (parts & Hparts & _ & Hyes & _).
    + unfold visited. simpl. lia.
    + lia.
    + reflexivity.
    + reflexivity.
    + reflexivity.
    + exists parts. split; [exact Hparts |].
      apply Hyes; [vm_compute; discriminate |].
      assert (parts = [js "x"; js "b"]) as ->.
      { vm_compute in Hparts. by injection Hparts. }
      unfold compoundCondition. vm_compute. split_and!; [done | done | lia].
Defined.

(** A translation that is the empty string: the bulk service answers the
    phrase [a b] with it, and the span scores [2 * 1] and is not put in the
    Lexicon. *)
Example empty_translation_is_no_compound :
  resolveSpans asciiLower googleOnly noGemini emptyAnswer [js "a"; js "b"] emptyWorld
  = (Ok emptyResolved, emptyResolvedWorld)
  /\ scoreAll asciiLower 2 2 emptyResolved emptyResolvedWorld
     = (Ok emptyScored, emptyScoredWorld)
  /\ cell emptyResolved 0 2 = Some (mkSpan (js "a b") (Some []) false 0)
  /\ cell emptyScored 0 2 = Some (mkSpan (js "a b") (Some []) false (Z.of_nat 2 * 1))
  /\ dictionary emptyScoredWorld !! asciiLower (js "a b") = None.
Proof. split_and!; vm_compute; reflexivity. Qed.





(** C8, as the code has it, on a text of white space and on a text of
    punctuation. *)
Lemma empty_text_rejected_witness :
  handleTranslate asciiLower geminiOnly shortReply noGoogle (js "   ") ViToEn emptyWorld
  = (BadRequest, emptyWorld)
  /\ smartSegmentAndTranslate asciiLower geminiOnly shortReply noGoogle (js "...") emptyWorld
     = (Ok [], emptyWorld).
Proof.
  split.
  - apply (proj1 (Fallback.empty_text_rejected asciiLower geminiOnly shortReply noGoogle
                    (js "   ") emptyWorld)).
    reflexivity.
  - apply (proj1 (proj2 (Fallback.empty_text_rejected asciiLower geminiOnly shortReply
                           noGoogle (js "...") emptyWorld))).
    reflexivity.
Defined.

(** C8, as stated, fails: the text [...] has no syllable, it is not
    rejected, and it is sent to the oracle. *)
Lemma empty_input_counterexample :
  syllablesOf (js "...") = []
  /\ (handleTranslate asciiLower geminiOnly shortReply noGoogle (js "...") ViToEn
        emptyWorld).1 = Translated (Some (js "x")) []
  /\ (handleTranslate asciiLower geminiOnly shortReply noGoogle (js "...") ViToEn
        emptyWorld).1 ≠ BadRequest
  /\ sent (handleTranslate asciiLower geminiOnly shortReply noGoogle (js "...") ViToEn
             emptyWorld).2
     = [GeminiRequest (js "vi") (js "en") [js "..."]].
Proof.
  split_and!; [reflexivity | vm_compute; reflexivity | vm_compute; discriminate
              | vm_compute; reflexivity].
Qed.

End Examples.

(** * Further properties *)

(** ** Normalizer *)

Module Normalizer.

Lemma replacePunct_free s : Forall (fun c => isPunct c = false) (replacePunct s).
Proof.
  unfold replacePunct. apply Forall_forall. intros c Hc.
  apply list_elem_of_In, in_map_iff in Hc as (c0 & <- & _).
  destruct (isPunct c0) eqn:E; [reflexivity | exact E].
Qed.

Lemma collapseFrom_chars s : forall b,
  Forall (fun c => isPunct c = false) s ->
  Forall (fun c => isPunct c = false /\ (isWhiteSpace c = true -> c = SPACE))
    (collapseFrom b s).
Proof.
  induction s as [|c s IH]; intros b Hs; [constructor |].
  apply Forall_cons in Hs as [Hc Hs]. cbn [collapseFrom].
  destruct (isWhiteSpace c) eqn:E.
  - destruct b; [by apply IH |]. constructor; [| by apply IH]. by split.
  - constructor; [| by apply IH]. split; [done |]. intros H. congruence.
Qed.

Lemma splitOn_pieces (P : N -> Prop) sep s :
  Forall P s -> Forall (Forall (fun c => c ≠ sep /\ P c)) (splitOn sep s).
Proof.
  induction s as [|c s IH]; intros Hs.
  - repeat constructor.
  - apply Forall_cons in Hs as [Hc Hs]. specialize (IH Hs). cbn [splitOn].
    destruct (c =? sep)%N eqn:E.
    + constructor; [constructor | done].
    + apply N.eqb_neq in E.
      destruct (splitOn sep s) as [|w ws]; [repeat constructor; done |].
      apply Forall_cons in IH as [Hw Hws].
      constructor; [| done]. constructor; done.
Qed.

Lemma syllablesOf_clean text : Forall cleanSyllable (syllablesOf text).
Proof.
  unfold syllablesOf. apply Forall_forall. intros s Hs.
  apply list_elem_of_In, filter_In in Hs as [Hin Hne].
  apply list_elem_of_In in Hin.
  pose proof (splitOn_pieces _ SPACE _
                (collapseFrom_chars _ false (replacePunct_free (trim text)))) as Hall.
  rewrite Forall_forall in Hall. specialize (Hall s Hin).
  split.
  - intros ->. simpl in Hne. done.
  - eapply Forall_impl; [exact Hall |]. intros c (Hsp & Hp & Hws). split; [| done].
    destruct (isWhiteSpace c) eqn:E; [| done]. by destruct Hsp; apply Hws.
Qed.

Lemma trimStart_head c s : isWhiteSpace c = false -> trimStart (c :: s) = c :: s.
Proof. intros H. simpl. by rewrite H. Qed.

Lemma trim_id s :
  (forall c s', s = c :: s' -> isWhiteSpace c = false) ->
  (forall c s', s = s' ++ [c] -> isWhiteSpace c = false) ->
  trim s = s.
Proof.
  intros Hfirst Hlast. unfold trim, trimEnd.
  destruct s as [|c s']; [done |].
  rewrite trimStart_head by (by eapply Hfirst).
  destruct (reverse (c :: s')) as [|d r] eqn:Hr.
  - apply (f_equal reverse) in Hr. rewrite reverse_involutive in Hr. done.
  - assert (c :: s' = reverse r ++ [d]) as Hs.
    { apply (f_equal reverse) in Hr. rewrite reverse_involutive in Hr.
      by rewrite Hr, reverse_cons. }
    rewrite trimStart_head by (by eapply Hlast).
    by rewrite reverse_cons.
Qed.

Lemma joinWith_cons2 sep (p q : jsstring) ps :
  joinWith sep (p :: q :: ps) = p ++ sep ++ joinWith sep (q :: ps).
Proof. done. Qed.

Lemma replacePunct_id s : Forall (fun c => isPunct c = false) s -> replacePunct s = s.
Proof.
  unfold replacePunct. induction 1 as [|c s Hc _ IH]; [done |].
  simpl. by rewrite Hc, IH.
Qed.

Lemma collapseFrom_word s rest b :
  Forall (fun c => isWhiteSpace c = false) s ->
  collapseFrom b (s ++ rest)
  = s ++ collapseFrom (match s with [] => b | _ => false end) rest.
Proof.
  revert b. induction s as [|c s IH]; intros b Hs; [done |].
  apply Forall_cons in Hs as [Hc Hs]. simpl. rewrite Hc. f_equal.
  rewrite IH by done. by destruct s.
Qed.

Lemma collapseFrom_join syls : forall b,
  Forall cleanSyllable syls ->
  collapseFrom b (joinWith [SPACE] syls) = joinWith [SPACE] syls.
Proof.
  induction syls as [|s syls IH]; intros b Hall; [done |].
  apply Forall_cons in Hall as [[Hne Hs] Hall].
  assert (Forall (fun c => isWhiteSpace c = false) s) as Hws.
  { eapply Forall_impl; [exact Hs |]. by intros c []. }
  destruct syls as [|q syls].
  - simpl. rewrite <- (app_nil_r s) at 1. rewrite collapseFrom_word by done.
    simpl. by rewrite app_nil_r.
  - rewrite joinWith_cons2. rewrite collapseFrom_word by done.
    f_equal. destruct s as [|c s]; [done |].
    cbn [app collapseFrom]. replace (isWhiteSpace SPACE) with true by done.
    f_equal. by apply IH.
Qed.

Lemma splitOn_word sep s rest :
  Forall (fun c => c ≠ sep) s ->
  splitOn sep (s ++ sep :: rest) = s :: splitOn sep rest.
Proof.
  induction 1 as [|c s Hc _ IH]; simpl.
  - by rewrite N.eqb_refl.
  - rewrite (proj2 (N.eqb_neq c sep)) by done. by rewrite IH.
Qed.

Lemma splitOn_last sep s : Forall (fun c => c ≠ sep) s -> splitOn sep s = [s].
Proof.
  induction 1 as [|c s Hc _ IH]; simpl; [done |].
  rewrite (proj2 (N.eqb_neq c sep)) by done. by rewrite IH.
Qed.

Lemma splitOn_join sep q syls :
  Forall (Forall (fun c => c ≠ sep)) (q :: syls) ->
  splitOn sep (joinWith [sep] (q :: syls)) = q :: syls.
Proof.
  revert q. induction syls as [|s syls IH]; intros q Hall.
  - apply Forall_cons in Hall as [Hq _]. by apply splitOn_last.
  - apply Forall_cons in Hall as [Hq Hall]. rewrite joinWith_cons2.
    cbn [app]. rewrite splitOn_word by done. by rewrite IH.
Qed.

Lemma joinWith_first sep (q : jsstring) syls c s' :
  q ≠ [] -> joinWith sep (q :: syls) = c :: s' -> exists q', q = c :: q'.
Proof.
  intros Hq. destruct q as [|d q]; [done |].
  destruct syls; simpl; intros [= -> _]; by eexists.
Qed.

Lemma joinWith_last (syls : list jsstring) : forall q c s',
  Forall (fun s => s ≠ []) (q :: syls) ->
  joinWith [SPACE] (q :: syls) = s' ++ [c] ->
  exists s q', s ∈ q :: syls /\ s = q' ++ [c].
Proof.
  induction syls as [|s syls IH]; intros q c s' Hall Heq.
  - simpl in Heq. exists q, s'. split; [left | done].
  - apply Forall_cons in Hall as [Hq Hall]. rewrite joinWith_cons2 in Heq.
    assert (exists t, joinWith [SPACE] (s :: syls) = t ++ [c]) as [t Ht].
    { destruct (joinWith [SPACE] (s :: syls)) as [|x xs] eqn:E using rev_ind.
      - exfalso. apply Forall_cons in Hall as [Hs _].
        destruct s; [done |]. destruct syls; simpl in E; discriminate.
      - exists xs. rewrite !app_assoc in Heq. apply app_inj_tail in Heq as [_ ->]. done. }
    destruct (IH s c t Hall Ht) as (s0 & q' & Hin & ->).
    exists (q' ++ [c]), q'. split; [by right | done].
Qed.

Lemma filter_nonempty_id (l : list jsstring) :
  Forall (fun s => s ≠ []) l ->
  List.filter (fun s => negb (Nat.eqb (length s) 0)) l = l.
Proof.
  induction 1 as [|s l Hs _ IH]; [done |].
  simpl. destruct s; [done |]. simpl. by rewrite IH.
Qed.

Lemma joinWith_free (l : list jsstring) :
  Forall cleanSyllable l -> Forall (fun c => isPunct c = false) (joinWith [SPACE] l).
Proof.
  induction 1 as [|s l [_ Hs] _ IH]; [constructor |].
  destruct l as [|s2 l].
  - simpl. eapply Forall_impl; [exact Hs |]. by intros c [].
  - rewrite joinWith_cons2. apply Forall_app. split.
    { eapply Forall_impl; [exact Hs |]. by intros c []. }
    constructor; [done | exact IH].
Qed.

Lemma syllablesOf_join syls :
  Forall cleanSyllable syls -> syllablesOf (joinWith [SPACE] syls) = syls.
Proof.
  intros Hall. unfold syllablesOf.
  destruct syls as [|q syls]; [reflexivity |].
  assert (Forall (fun s : jsstring => s ≠ []) (q :: syls)) as Hne.
  { eapply Forall_impl; [exact Hall |]. by intros s []. }
  rewrite trim_id.
  - rewrite replacePunct_id.
    + unfold collapseSpaces. rewrite collapseFrom_join by done.
      rewrite splitOn_join.
      * by apply filter_nonempty_id.
      * eapply Forall_impl; [exact Hall |]. intros s [_ Hs].
        eapply Forall_impl; [exact Hs |]. intros c [Hws _] ->. done.
    + by apply joinWith_free.
  - intros c s' Heq. apply Forall_cons in Hall as [[Hq Hcs] _].
    destruct (joinWith_first _ _ _ _ _ Hq Heq) as [q' ->].
    apply Forall_cons in Hcs as [[Hc _] _]. done.
  - intros c s' Heq.
    destruct (joinWith_last _ _ _ _ Hne Heq) as (s & q' & Hin & ->).
    rewrite Forall_forall in Hall. destruct (Hall _ Hin) as [_ Hcs].
    apply Forall_app in Hcs as [_ Hc]. apply Forall_cons in Hc as [[Hc _] _]. done.
Qed.


Lemma trimStart_subseteq s : trimStart s ⊆ s.
Proof.
  induction s as [|c s IH]; simpl; [done |].
  destruct (isWhiteSpace c); [| done]. intros x Hx. right. by apply IH.
Qed.

Lemma trim_subseteq s : trim s ⊆ s.
Proof.
  unfold trim, trimEnd. intros x Hx.
  rewrite elem_of_reverse in Hx. apply trimStart_subseteq in Hx.
  rewrite elem_of_reverse in Hx. by apply trimStart_subseteq.
Qed.

Lemma collapseFrom_subseteq s : forall b x,
  x ∈ collapseFrom b s -> x = SPACE \/ x ∈ s.
Proof.
  induction s as [|c s IH]; intros b x; simpl; [by intros ?%elem_of_nil |].
  destruct (isWhiteSpace c).
  - destruct b.
    + intros Hx. destruct (IH _ _ Hx) as [|]; [by left | right; by right].
    + intros [->|Hx]%elem_of_cons; [by left |].
      destruct (IH _ _ Hx) as [|]; [by left | right; by right].
  - intros [->|Hx]%elem_of_cons; [right; by left |].
    destruct (IH _ _ Hx) as [|]; [by left | right; by right].
Qed.

Lemma splitOn_subseteq sep s : forall piece x,
  piece ∈ splitOn sep s -> x ∈ piece -> x ∈ s.
Proof.
  induction s as [|c s IH]; intros piece x; simpl.
  - intros ->%list_elem_of_singleton. by intros ?%elem_of_nil.
  - destruct (c =? sep)%N.
    + intros [->|Hp]%elem_of_cons; [by intros ?%elem_of_nil |].
      intros Hx. right. by eapply IH.
    + destruct (splitOn sep s) as [|w ws] eqn:Hsplit.
      * intros ->%list_elem_of_singleton. intros ->%list_elem_of_singleton. by left.
      * intros [->|Hp]%elem_of_cons.
        -- intros [->|Hx]%elem_of_cons; [by left |]. right.
           apply (IH w); [by left | done].
        -- intros Hx. right. apply (IH piece); [by right | done].
Qed.

(** The code units of a syllable are code units of the text. *)
Lemma syllablesOf_origin text s x : s ∈ syllablesOf text -> x ∈ s -> x ∈ text.
Proof.
  intros Hs Hx.
  pose proof (syllablesOf_clean text) as Hclean. rewrite Forall_forall in Hclean.
  destruct (Hclean s Hs) as [_ Hchars]. rewrite Forall_forall in Hchars.
  destruct (Hchars x Hx) as [Hws Hp].
  unfold syllablesOf in Hs. apply list_elem_of_In, filter_In in Hs as [Hs _].
  apply list_elem_of_In in Hs.
  pose proof (splitOn_subseteq _ _ _ _ Hs Hx) as Hc.
  apply collapseFrom_subseteq in Hc as [->|Hc]; [done |].
  unfold replacePunct in Hc. apply list_elem_of_In, in_map_iff in Hc as (c & Hc & Hin).
  destruct (isPunct c) eqn:E; [by subst x |]. subst c.
  apply trim_subseteq. by apply list_elem_of_In.
Qed.

(** X1. Every syllable the cleaning gives is not empty and is made of code
    units of the text that are neither white space nor punctuation marks
    of the class; a text made of white space and such marks only has no
    syllable. *)
Theorem syllables_are_clean_pieces_of_the_text (text : jsstring) :
  Forall (fun s => cleanSyllable s /\ s ⊆ text) (syllablesOf text)
  /\ (Forall (fun c => isWhiteSpace c = true \/ isPunct c = true) text ->
      syllablesOf text = []).
Proof.
  pose proof (syllablesOf_clean text) as Hclean. rewrite Forall_forall in Hclean.
  split.
  - apply Forall_forall. intros s Hs. split; [by apply Hclean |].
    intros x Hx. by eapply syllablesOf_origin.
  - intros Hblank. rewrite Forall_forall in Hblank.
    destruct (syllablesOf text) as [|s syls] eqn:Hsyl; [done |]. exfalso.
    assert (s ∈ syllablesOf text) as Hs by (rewrite Hsyl; by left).
    destruct (Hclean s) as [Hne Hchars]; [by left |].
    destruct s as [|x s]; [done |].
    apply Forall_cons in Hchars as [[Hws Hp] _].
    destruct (Hblank x) as [H|H]; [| congruence | congruence].
    apply (syllablesOf_origin text (x :: s)); [done | by left].
Qed.

(** X2. The syllables of a text, joined by spaces, are read back as the
    same syllables: cleaning a cleaned text changes nothing; and so for
    any list of clean syllables. *)
Theorem cleaning_is_idempotent (text : jsstring) :
  syllablesOf (joinWith [SPACE] (syllablesOf text)) = syllablesOf text
  /\ forall syls,
      Forall cleanSyllable syls -> syllablesOf (joinWith [SPACE] syls) = syls.
Proof.
  split.
  - apply syllablesOf_join. apply syllablesOf_clean.
  - intros syls Hclean. by apply syllablesOf_join.
Qed.

End Normalizer.

(** ** Greedy segmenter: every text *)

Module GreedyReading.

Section GreedyReading.

Variable toLowerCase : jsstring -> jsstring.
Variable dict : gmap jsstring jsstring.

Lemma noLonger_clause_false len l rest :
  (len <=? length rest) && inLexicon toLowerCase dict (take len rest) = false ->
  (len <=? l) || (length rest <? len)
  || negb (inLexicon toLowerCase dict (take len rest)) = true.
Proof.
  intros [H|H]%andb_false_iff.
  - apply Nat.leb_gt in H. rewrite (proj2 (Nat.ltb_lt _ _)) by lia.
    by rewrite orb_true_r.
  - rewrite H. by rewrite orb_true_r.
Qed.

Lemma noLonger_clause_le len l rest :
  len <= l ->
  (len <=? l) || (length rest <? len)
  || negb (inLexicon toLowerCase dict (take len rest)) = true.
Proof. intros H. by rewrite (proj2 (Nat.leb_le _ _)) by lia. Qed.

Lemma matchLength_spec rest :
  1 <= matchLength toLowerCase dict rest <= 4
  /\ (rest ≠ [] -> matchLength toLowerCase dict rest <= length rest)
  /\ (2 <= matchLength toLowerCase dict rest ->
      inLexicon toLowerCase dict (take (matchLength toLowerCase dict rest) rest) = true)
  /\ noLongerEntry toLowerCase dict rest (matchLength toLowerCase dict rest) = true.
Proof.
  unfold matchLength, noLongerEntry. cbn [forallb].
  destruct ((4 <=? length rest) && inLexicon toLowerCase dict (take 4 rest)) eqn:E4.
  { apply andb_true_iff in E4 as [H4 L4]. apply Nat.leb_le in H4.
    split_and!; [lia | lia | lia | done |].
    rewrite !noLonger_clause_le by lia. done. }
  destruct ((3 <=? length rest) && inLexicon toLowerCase dict (take 3 rest)) eqn:E3.
  { apply andb_true_iff in E3 as [H3 L3]. apply Nat.leb_le in H3.
    split_and!; [lia | lia | lia | done |].
    rewrite (noLonger_clause_false 4) by done.
    rewrite !noLonger_clause_le by lia. done. }
  destruct ((2 <=? length rest) && inLexicon toLowerCase dict (take 2 rest)) eqn:E2.
  { apply andb_true_iff in E2 as [H2 L2]. apply Nat.leb_le in H2.
    split_and!; [lia | lia | lia | done |].
    rewrite (noLonger_clause_false 4), (noLonger_clause_false 3) by done.
    rewrite !noLonger_clause_le by lia. done. }
  split_and!; [lia | lia | | lia |].
  - intros Hne. destruct rest; [done | simpl; lia].
  - by rewrite (noLonger_clause_false 4), (noLonger_clause_false 3),
      (noLonger_clause_false 2) by done.
Qed.

(** Every list of syllables has a longest reading. *)
Lemma longestReading_exists n : forall rest,
  length rest <= n ->
  exists phrases,
    concat phrases = rest
    /\ longestReading toLowerCase dict phrases = true
    /\ Forall (fun p => 2 <= length p -> inLexicon toLowerCase dict p = true) phrases
    /\ Forall (fun p => 1 <= length p <= 4) phrases.
Proof.
  induction n as [|n IH]; intros rest Hn.
  - destruct rest; [| simpl in Hn; lia]. exists []. by repeat split.
  - destruct rest as [|s rest']; [exists []; by repeat split |].
    set (rest := s :: rest') in *.
    destruct (matchLength_spec rest) as (Hl & Hle & Hlex & Hno).
    specialize (Hle ltac:(done)).
    destruct (IH (drop (matchLength toLowerCase dict rest) rest)) as (ps & Hcat & Hread & Hin & Hlen).
    { rewrite length_drop. simpl in Hn. unfold rest in *. simpl length in *. lia. }
    exists (take (matchLength toLowerCase dict rest) rest :: ps).
    assert (length (take (matchLength toLowerCase dict rest) rest) = matchLength toLowerCase dict rest) as Htl.
    { rewrite length_take. lia. }
    split_and!.
    + by rewrite concat_cons, Hcat, take_drop.
    + cbn [longestReading]. rewrite concat_cons, Hcat, take_drop, Htl, Hno, Hread.
      rewrite (proj2 (Nat.leb_le _ _)) by lia.
      by rewrite (proj2 (Nat.leb_le _ _)) by lia.
    + constructor; [| done]. rewrite Htl. exact Hlex.
    + constructor; [| done]. rewrite Htl. lia.
Qed.

(** X3. For every dictionary and every text the greedy segmenter returns,
    and its words are the syllables of the text cut in order into phrases
    of 1 to 4 syllables; a phrase of two syllables or more is an entry of
    the Lexicon, and where a phrase starts no longer entry matches. *)
Theorem greedy_cuts_into_longest_matches text :
  exists phrases,
    concat phrases = syllablesOf text
    /\ segmentVietnamese toLowerCase dict text = List.map (joinWith [SPACE]) phrases
    /\ Forall (fun p => 1 <= length p <= 4) phrases
    /\ Forall (fun p => 2 <= length p -> inLexicon toLowerCase dict p = true) phrases
    /\ longestReading toLowerCase dict phrases = true.
Proof.
  destruct (longestReading_exists (length (syllablesOf text)) (syllablesOf text))
    as (phrases & Hcat & Hread & Hlex & Hlen); [done |].
  exists phrases. split_and!; try done.
  unfold segmentVietnamese, segmentSyllables. rewrite <- Hcat.
  apply (Greedy.greedyFrom_phrases toLowerCase dict phrases _ [] []); done.
Qed.

End GreedyReading.

Lemma joinWith_app (sep : jsstring) (l1 l2 : list jsstring) :
  l1 ≠ [] -> l2 ≠ [] ->
  joinWith sep (l1 ++ l2) = joinWith sep l1 ++ sep ++ joinWith sep l2.
Proof.
  intros H1 H2. induction l1 as [|p l1 IH]; [done |].
  destruct l1 as [|q l1].
  - destruct l2; [done |]. done.
  - change ((p :: q :: l1) ++ l2) with (p :: (q :: l1) ++ l2).
    change ((q :: l1) ++ l2) with (q :: l1 ++ l2) at 1.
    rewrite !Normalizer.joinWith_cons2.
    change (q :: l1 ++ l2) with ((q :: l1) ++ l2).
    rewrite IH by done. by rewrite <- !app_assoc.
Qed.

Lemma joinWith_concat (phrases : list (list jsstring)) :
  Forall (fun p => 1 <= length p) phrases ->
  joinWith [SPACE] (List.map (joinWith [SPACE]) phrases)
  = joinWith [SPACE] (concat phrases).
Proof.
  induction 1 as [|p ps Hp Hps IH]; [done |].
  destruct ps as [|q ps].
  - simpl. by rewrite app_nil_r.
  - cbn [List.map] in *. rewrite Normalizer.joinWith_cons2, IH.
    rewrite (concat_cons p). rewrite (joinWith_app _ p); [done | |].
    + destruct p; [simpl in Hp; lia | done].
    + apply Forall_cons in Hps as [Hq _]. destruct q; [simpl in Hq; lia | done].
Qed.

(** X4. The words of the greedy segmenter, joined by spaces, are the
    syllables of the text joined by spaces, and cleaning them gives the
    syllables of the text again: no syllable is lost, repeated or moved. *)
Theorem greedy_words_read_back
    (toLowerCase : jsstring -> jsstring) (dict : gmap jsstring jsstring)
    (text : jsstring) :
  let words := segmentVietnamese toLowerCase dict text in
  joinWith [SPACE] words = joinWith [SPACE] (syllablesOf text)
  /\ syllablesOf (joinWith [SPACE] words) = syllablesOf text.
Proof.
  intros words.
  destruct (longestReading_exists toLowerCase dict (length (syllablesOf text))
              (syllablesOf text)) as (phrases & Hcat & Hread & Hlex & Hlen); [done |].
  assert (words = List.map (joinWith [SPACE]) phrases) as ->.
  { unfold words, segmentVietnamese, segmentSyllables. rewrite <- Hcat.
    apply (Greedy.greedyFrom_phrases toLowerCase dict phrases _ [] []); done. }
  assert (joinWith [SPACE] (List.map (joinWith [SPACE]) phrases)
          = joinWith [SPACE] (syllablesOf text)) as Hjoin.
  { rewrite <- Hcat. apply joinWith_concat.
    eapply Forall_impl; [exact Hlen |]. intros p Hp. simpl in Hp. lia. }
  split; [done |]. rewrite Hjoin.
  apply Normalizer.syllablesOf_join, Normalizer.syllablesOf_clean.
Qed.

(** X5. With a dictionary that has no entry, or only empty ones, as when
    the dictionary file is missing, the greedy segmenter returns the
    syllables of the text, one word each. *)
Theorem greedy_without_entries_gives_syllables
    (toLowerCase : jsstring -> jsstring) (dict : gmap jsstring jsstring)
    (text : jsstring) :
  (forall key, truthy (dict !! key) = None) ->
  segmentVietnamese toLowerCase dict text = syllablesOf text.
Proof.
  intros Hempty.
  assert (forall p, inLexicon toLowerCase dict p = false) as Hno.
  { intros p. unfold inLexicon, dictLookup, orElse.
    rewrite !Hempty. apply bool_decide_eq_false_2. by intros [? ?]. }
  set (phrases := List.map (fun s : jsstring => [s]) (syllablesOf text)).
  assert (concat phrases = syllablesOf text) as Hcat.
  { unfold phrases. induction (syllablesOf text) as [|s l IH]; [done |].
    simpl. by rewrite IH. }
  assert (List.map (joinWith [SPACE]) phrases = syllablesOf text) as Hwords.
  { unfold phrases. rewrite List.map_map. apply List.map_id. }
  assert (longestReading toLowerCase dict phrases = true) as Hread.
  { clear Hcat Hwords. unfold phrases.
    induction (syllablesOf text) as [|s l IH]; [done |].
    cbn [List.map longestReading]. rewrite IH.
    unfold noLongerEntry. cbn [forallb]. rewrite !Hno. cbn [negb].
    by rewrite !orb_true_r. }
  assert (Forall (fun p => 2 <= length p -> inLexicon toLowerCase dict p = true) phrases)
    as Hlex.
  { apply Forall_forall. intros p Hp. unfold phrases in Hp.
    apply list_elem_of_In, in_map_iff in Hp as (s & <- & _). simpl. lia. }
  pose proof (Greedy.greedyFrom_phrases toLowerCase dict phrases
                (length (concat phrases)) [] [] Hread Hlex (le_n _)) as Hrun.
  simpl in Hrun. rewrite Hcat, Hwords in Hrun. exact Hrun.
Qed.

End GreedyReading.

(** ** Translation clients: runs and their requests *)

Module ClientRuns.

Lemma parseLine_nonempty line text : text ≠ [] -> parseLine line text ≠ [].
Proof.
  intros Hne. unfold parseLine. destruct line as [l|]; [| done].
  destruct (trim (stripNumber l)); done.
Qed.

Section Runs.

Variable geminiService : nat -> jsstring -> jsstring -> list jsstring -> option jsstring.
Variable googleService : nat -> jsstring -> jsstring -> list jsstring -> option (list jsstring).
Variables source target : jsstring.

Lemma cachedFor_insert cache text text' line :
  cachedFor cache source target text ->
  cachedFor (<[cacheKey source target text' := parseLine line text']> cache)
    source target text.
Proof.
  intros (a & Ha & Hne). unfold cachedFor.
  destruct (decide (text' = text)) as [->|Hdiff].
  - rewrite lookup_insert_eq. eexists. split; [done |]. apply parseLine_nonempty.
  - rewrite lookup_insert_ne; [by exists a |].
    intros Heq. by apply Clients.cacheKey_inj in Heq.
Qed.

Lemma geminiStore_cached I lines b batch : forall j res cache text,
  text ∈ batch \/ cachedFor cache source target text ->
  cachedFor (geminiStore source target I lines b j batch res cache).2
    source target text.
Proof.
  induction batch as [|t batch IH]; intros j res cache text Hin; simpl.
  - destruct Hin as [Hin|Hc]; [by apply elem_of_nil in Hin | done].
  - apply IH. destruct Hin as [Hin|Hc].
    + apply elem_of_cons in Hin as [->|Hin]; [| by left].
      right. unfold cachedFor. rewrite lookup_insert_eq. eexists. split; [done |].
      apply parseLine_nonempty.
    + right. by apply cachedFor_insert.
Qed.

(** A run of the loop over the batches of the prompt client, whatever its
    outcome: the requests sent, the place of the failure, and the texts of
    the batches answered before it, which are in the cache. *)
Lemma geminiBatches_run U I starts : forall res w r w',
  geminiBatches geminiService source target U I starts res w = (r, w') ->
  exists k,
    k <= length starts
    /\ sent w'
       = sent w ++ List.map (fun b => GeminiRequest source target (slice b (b + 20) U))
                     (take k starts)
    /\ dictionary w' = dictionary w
    /\ (forall text, cachedFor (translationCache w) source target text ->
                     cachedFor (translationCache w') source target text)
    /\ match r with
       | Ok _ =>
           k = length starts
           /\ forall k' b text,
               starts !! k' = Some b -> text ∈ slice b (b + 20) U ->
               cachedFor (translationCache w') source target text
       | Throw e =>
           e = ApiError
           /\ exists k0 b,
               k = S k0 /\ starts !! k0 = Some b
               /\ geminiService (length (sent w) + k0) source target
                    (slice b (b + 20) U) = None
               /\ forall k' b' text,
                   k' < k0 -> starts !! k' = Some b' ->
                   text ∈ slice b' (b' + 20) U ->
                   cachedFor (translationCache w') source target text
       end.
Proof.
  induction starts as [|b starts IH]; intros res w r w'; simpl.
  - intros [= <- <-]. exists 0. simpl. rewrite app_nil_r.
    split_and!; try done; intros k' b' text Hk; by rewrite lookup_nil in Hk.
  - destruct (geminiService (length (sent w)) source target (slice b (b + 20) U))
      as [reply|] eqn:Hsvc.
    2:{ intros [= <- <-]. exists 1. simpl. rewrite ?take_0. simpl.
        split_and!; try done; try lia.
        exists 0, b. rewrite Nat.add_0_r.
        split_and!; try done; intros; lia. }
    destruct (geminiStore _ _ _ _ _ _ _ _ _) as [res1 cache1] eqn:Hst.
    intros Hrun. destruct (IH _ _ _ _ Hrun) as (k & Hk & Hsent & Hdict & Hkeep & Hr).
    simpl in Hsent, Hdict, Hkeep.
    assert (forall text,
              text ∈ slice b (b + 20) U \/ cachedFor (translationCache w) source target text ->
              cachedFor cache1 source target text) as Hstore.
    { intros text Hin.
      pose proof (geminiStore_cached I (responseLines reply) b (slice b (b + 20) U)
                    0 res (translationCache w) text Hin) as H.
      by rewrite Hst in H. }
    exists (S k). split_and!.
    + lia.
    + rewrite Hsent, <- app_assoc. done.
    + done.
    + intros text Hc. apply Hkeep, Hstore. by right.
    + destruct r as [res'|e].
      * destruct Hr as [-> Hall]. split; [done |].
        intros [|k'] b' text Hb Hin.
        -- injection Hb as <-. apply Hkeep, Hstore. by left.
        -- by apply (Hall k' b').
      * destruct Hr as (-> & k0 & b0 & -> & Hb0 & Hnone & Hall).
        split; [done |]. exists (S k0), b0.
        split_and!; [done | done | |].
        -- simpl in Hnone. rewrite length_app in Hnone. simpl in Hnone.
           by replace (length (sent w) + S k0) with (length (sent w) + 1 + k0) by lia.
        -- intros [|k'] b' text Hlt Hb Hin.
           ++ injection Hb as <-. apply Hkeep, Hstore. by left.
           ++ apply (Hall k' b'); [lia | done | done].
Qed.

Lemma googleStore_other I batch translations : forall j res cache u key,
  j + length translations <= length batch ->
  (forall t, t ∈ batch -> cacheKey source target t ≠ key) ->
  (googleStore source target I batch j translations res cache u).1.2 !! key
  = cache !! key.
Proof.
  induction translations as [|a translations IH]; intros j res cache u key Hlen Hkey;
    simpl; [done |].
  simpl in Hlen.
  destruct (lookup_lt_is_Some_2 batch j) as [t Ht]; [lia |].
  rewrite Ht. simpl. rewrite IH by (done || lia).
  apply lookup_insert_ne. apply Hkey. by eapply list_elem_of_lookup_2.
Qed.

(** A run of the loop over the batches of the bulk client, whatever its
    outcome: the requests sent; and the entries of the cache it leaves as
    they are when the service gives no more translations than texts. *)
Lemma googleBatches_run I batches : forall res u w r w',
  googleBatches googleService source target I batches res u w = (r, w') ->
  exists k,
    k <= length batches
    /\ sent w' = sent w ++ List.map (GoogleRequest source target) (take k batches)
    /\ dictionary w' = dictionary w
    /\ match r with
       | Ok _ => k = length batches
       | Throw e =>
           e = ApiError
           /\ exists k0 batch,
               k = S k0 /\ batches !! k0 = Some batch
               /\ googleService (length (sent w) + k0) source target batch = None
       end
    /\ ((forall n s t batch translations,
           googleService n s t batch = Some translations ->
           length translations <= length batch) ->
        forall key,
          (forall batch t, batch ∈ batches -> t ∈ batch ->
                           cacheKey source target t ≠ key) ->
          translationCache w' !! key = translationCache w !! key).
Proof.
  induction batches as [|batch batches IH]; intros res u w r w'; simpl.
  - intros [= <- <-]. exists 0. simpl. rewrite app_nil_r. split_and!; done.
  - destruct (googleService (length (sent w)) source target batch)
      as [translations|] eqn:Hsvc.
    2:{ intros [= <- <-]. exists 1. simpl. rewrite ?take_0. simpl.
        split_and!; try done; try lia.
        exists 0, batch. by rewrite Nat.add_0_r. }
    destruct (googleStore _ _ _ _ _ _ _ _ _) as [[res1 cache1] u1] eqn:Hst.
    intros Hrun. destruct (IH _ _ _ _ _ Hrun) as (k & Hk & Hsent & Hdict & Hr & Hkeep).
    simpl in Hsent, Hdict, Hkeep.
    exists (S k). split_and!.
    + lia.
    + rewrite Hsent, <- app_assoc. done.
    + done.
    + destruct r as [res'|e]; [by rewrite Hr |].
      destruct Hr as (-> & k0 & b0 & -> & Hb0 & Hnone).
      split; [done |]. exists (S k0), b0. split_and!; [done | done |].
      simpl in Hnone. rewrite length_app in Hnone. simpl in Hnone.
      by replace (length (sent w) + S k0) with (length (sent w) + 1 + k0) by lia.
    + intros Hwf key Hkey. rewrite Hkeep.
      * pose proof (googleStore_other I batch translations 0 res (translationCache w) u key)
          as H. rewrite Hst in H. simpl in H. apply H.
        -- simpl. by eapply Hwf.
        -- intros t Ht. apply (Hkey batch t); [by left | done].
      * done.
      * intros batch' t Hb Ht. apply (Hkey batch' t); [by right | done].
Qed.

End Runs.


Lemma batchesOf_shape size (texts : list jsstring) :
  1 <= size ->
  Forall (fun batch => 1 <= length batch <= size) (batchesOf size texts)
  /\ concat (batchesOf size texts) = texts
  /\ length (batchesOf size texts) = (length texts + size - 1) / size.
Proof.
  intros Hsize. unfold batchesOf. split_and!.
  - apply Forall_forall. intros batch Hin.
    apply list_elem_of_fmap in Hin as (b & -> & Hb).
    apply Clients.batchStarts_bound in Hb; [| done].
    rewrite Clients.length_slice. lia.
  - by apply Clients.batches_cover.
  - unfold batchStarts. by rewrite !length_map, length_seq.
Qed.

Lemma missTexts_all_hit cache source target texts :
  Forall (fun t => is_Some (cacheHit cache source target t)) texts ->
  missTexts cache source target texts = [].
Proof.
  unfold missTexts. induction 1 as [|t texts [v Hv] _ IH]; [done |].
  simpl. rewrite Hv. by rewrite bool_decide_eq_false_2.
Qed.

Lemma results_all_hit cache source target texts :
  Forall (fun t => is_Some (cacheHit cache source target t)) texts ->
  results (scanTexts cache source target texts)
  = List.map (fun t => cacheHit cache source target t) texts.
Proof.
  intros Hall.
  destruct (Clients.scanTexts_spec cache source target texts)
    as (Hlen & _ & _ & _ & Hres).
  apply list_eq. intros i. rewrite Clients.map_lookup.
  destruct (texts !! i) as [t|] eqn:Ht.
  - specialize (Hres i t Ht). rewrite Forall_forall in Hall.
    destruct (Hall t (list_elem_of_lookup_2 _ _ _ Ht)) as [v Hv].
    rewrite Hv in Hres. destruct Hres as [-> _]. simpl. by rewrite Hv.
  - simpl. apply lookup_ge_None. rewrite Hlen. by apply lookup_ge_None.
Qed.

(** The requests of a call, whatever its outcome. *)
Lemma googleTranslate_sent (cfg : Config)
    (geminiService : nat -> jsstring -> jsstring -> list jsstring -> option jsstring)
    (googleService : nat -> jsstring -> jsstring -> list jsstring -> option (list jsstring))
    (texts : list jsstring) (source target : jsstring) (w w' : World)
    (r : Result (list (option jsstring))) :
  googleTranslate cfg geminiService googleService texts source target w = (r, w') ->
  let planned :=
    plannedRequests cfg source target
      (missTexts (translationCache w) source target texts) in
  (exists k, k <= length planned /\ sent w' = sent w ++ take k planned
             /\ (forall res, r = Ok res -> k = length planned))
  /\ dictionary w' = dictionary w.
Proof.
  intros Hrun planned. set (misses := missTexts (translationCache w) source target texts) in *.
  assert (uncachedTexts (scanTexts (translationCache w) source target texts) = misses)
    as HU by apply Clients.scanTexts_spec.
  revert Hrun. unfold googleTranslate. fold (usesGemini cfg).
  unfold planned, plannedRequests, batchSize, requestOf, batchesOf in *.
  destruct (usesGemini cfg) eqn:Huse.
  - unfold geminiTranslate. rewrite HU.
    destruct (length misses =? 0) eqn:E.
    + intros [= <- <-]. apply Nat.eqb_eq in E. rewrite E. split; [| done].
      exists 0. simpl. by rewrite app_nil_r.
    + intros Hrun.
      destruct (geminiBatches_run _ _ _ _ _ _ _ _ _ _ Hrun)
        as (k & Hk & Hsent & Hdict & _ & Hr).
      split; [| done]. exists k. rewrite !length_map. split_and!; [done | |].
      * rewrite Hsent. f_equal. by rewrite <- !fmap_take, List.map_map.
      * intros res ->. by destruct Hr as [-> _].
  - destruct (negb (isSet (GOOGLE_API_KEY cfg))).
    + intros [= <- <-]. split; [| done]. exists 0. rewrite take_0, app_nil_r.
      split_and!; [lia | done | done].
    + rewrite HU. destruct (length misses =? 0) eqn:E.
      * intros [= <- <-]. apply Nat.eqb_eq in E. rewrite E. split; [| done].
        exists 0. simpl. by rewrite app_nil_r.
      * intros Hrun.
        destruct (googleBatches_run _ _ _ _ _ _ _ _ _ _ Hrun)
          as (k & Hk & Hsent & Hdict & Hr & _).
        split; [| done]. exists k. rewrite !length_map in *. split_and!; [done | |].
        -- rewrite Hsent. f_equal. by rewrite <- !fmap_take.
        -- intros res ->. done.
Qed.




(** A call all of whose texts are in the cache. *)
Lemma googleTranslate_cached (cfg : Config)
    (geminiService : nat -> jsstring -> jsstring -> list jsstring -> option jsstring)
    (googleService : nat -> jsstring -> jsstring -> list jsstring -> option (list jsstring))
    (texts : list jsstring) (source target : jsstring) (w : World) :
  isSet (API_KEY cfg) = true ->
  Forall (fun t => is_Some (cacheHit (translationCache w) source target t)) texts ->
  googleTranslate cfg geminiService googleService texts source target w
  = (Ok (List.map (fun t => cacheHit (translationCache w) source target t) texts), w).
Proof.
  intros Hkey Hall.
  assert (uncachedTexts (scanTexts (translationCache w) source target texts) = []) as HU.
  { destruct (Clients.scanTexts_spec (translationCache w) source target texts)
      as (_ & -> & _). by apply missTexts_all_hit. }
  unfold API_KEY in Hkey. unfold googleTranslate.
  destruct (isSet (GOOGLE_API_KEY cfg)); cbn [negb andb].
  - rewrite HU. cbn [length Nat.eqb]. by rewrite (results_all_hit _ _ _ _ Hall).
  - rewrite Hkey. unfold geminiTranslate. rewrite HU. cbn [length Nat.eqb].
    by rewrite (results_all_hit _ _ _ _ Hall).
Qed.

End ClientRuns.

Module ClientProps.

(** X6. Whatever its outcome, a call sends the texts it did not find in the
    cache, and no other, in batches of 1 to 20 (prompt backend) or 1 to 128
    (bulk backend) texts, in order, and stops at the first failure. *)
Theorem requests_follow_the_plan (cfg : Config)
    (geminiService : nat -> jsstring -> jsstring -> list jsstring -> option jsstring)
    (googleService : nat -> jsstring -> jsstring -> list jsstring -> option (list jsstring))
    (texts : list jsstring) (source target : jsstring) (w w' : World)
    (r : Result (list (option jsstring))) :
  googleTranslate cfg geminiService googleService texts source target w = (r, w') ->
  let misses := missTexts (translationCache w) source target texts in
  let planned := plannedRequests cfg source target misses in
  (exists k, k <= length planned
             /\ sent w' = sent w ++ take k planned
             /\ (forall res, r = Ok res -> k = length planned))
  /\ Forall (fun rq => 1 <= length (requestBatch rq) <= batchSize cfg) planned
  /\ concat (List.map requestBatch planned) = misses
  /\ length planned = (length misses + batchSize cfg - 1) / batchSize cfg
  /\ dictionary w' = dictionary w.
Proof.
  intros Hrun misses planned.
  assert (1 <= batchSize cfg) as Hsize by (unfold batchSize; destruct (usesGemini cfg); lia).
  destruct (ClientRuns.batchesOf_shape (batchSize cfg) misses Hsize)
    as (Hshape & Hcover & Hcount).
  assert (List.map requestBatch planned = batchesOf (batchSize cfg) misses) as Hbatches.
  { unfold planned, plannedRequests. rewrite List.map_map.
    rewrite <- (List.map_id (batchesOf _ _)) at 2. apply List.map_ext.
    intros batch. unfold requestOf. by destruct (usesGemini cfg). }
  assert (length planned = length (batchesOf (batchSize cfg) misses)) as Hlen.
  { unfold planned, plannedRequests. by rewrite length_map. }
  destruct (ClientRuns.googleTranslate_sent _ _ _ _ _ _ _ _ _ Hrun) as [Hk Hd].
  split_and!; [done | | by rewrite Hbatches | by rewrite Hlen | done].
  apply Forall_forall. intros rq Hrq.
  rewrite Forall_forall in Hshape. apply Hshape. rewrite <- Hbatches.
  apply list_elem_of_fmap. by exists rq.
Qed.


(** X7. A call all of whose texts are in the cache returns the cached
    translations and leaves the state as it is, nothing being sent: so for
    [googleTranslate] when a key is set, and for the prompt client called by
    itself. The empty list of texts is such a call. *)
Theorem cached_texts_need_no_request (cfg : Config)
    (geminiService : nat -> jsstring -> jsstring -> list jsstring -> option jsstring)
    (googleService : nat -> jsstring -> jsstring -> list jsstring -> option (list jsstring))
    (texts : list jsstring) (source target : jsstring) (w : World) :
  Forall (fun t => is_Some (cacheHit (translationCache w) source target t)) texts ->
  let cached := List.map (fun t => cacheHit (translationCache w) source target t) texts in
  geminiTranslate geminiService texts source target w = (Ok cached, w)
  /\ (isSet (API_KEY cfg) = true ->
      googleTranslate cfg geminiService googleService texts source target w
      = (Ok cached, w))
  /\ Forall (fun r => exists v, r = Some v /\ v ≠ []) cached.
Proof.
  intros Hall cached. split_and!.
  - unfold geminiTranslate.
    destruct (Clients.scanTexts_spec (translationCache w) source target texts)
      as (_ & -> & _).
    rewrite ClientRuns.missTexts_all_hit by done. cbn [length Nat.eqb].
    by rewrite (ClientRuns.results_all_hit _ _ _ _ Hall).
  - intros Hkey. by apply ClientRuns.googleTranslate_cached.
  - unfold cached. apply Forall_fmap. eapply Forall_impl; [exact Hall |].
    intros t [v Hv]. simpl. exists v. split; [done |].
    unfold cacheHit, truthy in Hv.
    destruct (translationCache w !! _) as [[|c s]|]; try done. by injection Hv as <-.
Qed.

(** X8. Without any key every call of the client throws before it looks at
    the cache, and the request handler answers every text that is not
    blank with the error, status 500; the state is left as it is. *)
Theorem nothing_is_translated_without_a_key
    (toLowerCase : jsstring -> jsstring) (cfg : Config)
    (geminiService : nat -> jsstring -> jsstring -> list jsstring -> option jsstring)
    (googleService : nat -> jsstring -> jsstring -> list jsstring -> option (list jsstring))
    (w : World) :
  isSet (API_KEY cfg) = false ->
  (forall texts source target,
     googleTranslate cfg geminiService googleService texts source target w
     = (Throw NoApiKey, w))
  /\ (forall input mode,
        trim input ≠ [] ->
        handleTranslate toLowerCase cfg geminiService googleService input mode w
        = (ServerError NoApiKey, w)).
Proof.
  intros Hkey. unfold API_KEY in Hkey.
  destruct (isSet (GOOGLE_API_KEY cfg)) eqn:Hgoogle; [congruence |].
  assert (forall texts source target,
            googleTranslate cfg geminiService googleService texts source target w
            = (Throw NoApiKey, w)) as Hthrow.
  { intros texts source target. unfold googleTranslate. by rewrite Hgoogle, Hkey. }
  split; [exact Hthrow |].
  intros input mode Hne. unfold handleTranslate.
  destruct (length (trim input) =? 0) eqn:Etrim.
  { apply Nat.eqb_eq in Etrim. by destruct (trim input). }
  destruct (length input =? 0) eqn:Einput.
  { apply Nat.eqb_eq in Einput. destruct input; [| done]. by destruct Hne. }
  simpl. by rewrite Hthrow.
Qed.

(** X9. Whatever the outcome of a call, a translation that is in the cache
    stays there unchanged, for every language pair, and the dictionary is
    not touched; for the bulk backend this needs a service that gives no
    more translations than it was sent texts. *)
Theorem cached_translations_are_kept (cfg : Config)
    (geminiService : nat -> jsstring -> jsstring -> list jsstring -> option jsstring)
    (googleService : nat -> jsstring -> jsstring -> list jsstring -> option (list jsstring))
    (texts : list jsstring) (source target : jsstring) (w w' : World)
    (r : Result (list (option jsstring))) :
  googleTranslate cfg geminiService googleService texts source target w = (r, w') ->
  (usesGemini cfg = false ->
   forall n s t batch translations,
     googleService n s t batch = Some translations ->
     length translations <= length batch) ->
  (forall key v, truthy (translationCache w !! key) = Some v ->
                 translationCache w' !! key = translationCache w !! key)
  /\ (forall s t text v, cacheHit (translationCache w) s t text = Some v ->
                         cacheHit (translationCache w') s t text = Some v)
  /\ dictionary w' = dictionary w.
Proof.
  intros Hrun Hwf.
  cut ((forall key v, truthy (translationCache w !! key) = Some v ->
                      translationCache w' !! key = translationCache w !! key)
       /\ dictionary w' = dictionary w).
  { intros [Hkeep Hd]. split_and!; [done | | done].
    intros s t text v Hv. unfold cacheHit in *. by rewrite (Hkeep _ _ Hv). }
  revert Hrun. unfold googleTranslate. fold (usesGemini cfg).
  destruct (usesGemini cfg) eqn:Huse.
  - intros Hrun. split.
    + intros key v Hv. by eapply Clients.geminiTranslate_keeps.
    + revert Hrun. unfold geminiTranslate.
      destruct (length _ =? 0); [by intros [= <- <-] |]. intros Hrun.
      by destruct (ClientRuns.geminiBatches_run _ _ _ _ _ _ _ _ _ _ Hrun)
        as (k & _ & _ & Hdict & _).
  - destruct (negb (isSet (GOOGLE_API_KEY cfg))); [by intros [= <- <-] |].
    destruct (length _ =? 0); [by intros [= <- <-] |]. intros Hrun.
    destruct (ClientRuns.googleBatches_run _ _ _ _ _ _ _ _ _ _ Hrun)
      as (k & _ & _ & Hdict & _ & Hkeep).
    split; [| done]. intros key v Hv. apply Hkeep; [by apply Hwf |].
    intros batch t Hb Ht Hkey.
    apply list_elem_of_fmap in Hb as (b & -> & _).
    assert (t ∈ uncachedTexts (scanTexts (translationCache w) source target texts)) as Hin.
    { apply list_elem_of_lookup in Ht as [j Hj]. unfold slice in Hj.
      apply lookup_take_Some in Hj as [Hj _]. rewrite lookup_drop in Hj.
      by eapply list_elem_of_lookup_2. }
    destruct (Clients.scanTexts_spec (translationCache w) source target texts)
      as (_ & _ & _ & Hpairs & _).
    apply list_elem_of_lookup in Hin as [p Hp].
    destruct (Forall2_lookup_r _ _ _ _ _ Hpairs Hp) as (i & _ & _ & Hmiss).
    unfold cacheHit in Hmiss. rewrite Hkey in Hmiss. congruence.
Qed.

(** X10. When a call of the prompt client fails, whatever the exception, it
    fails at a request that got no answer the client could read, and that
    request is the last one sent; the requests before it were answered, and
    every text of their batches is in the cache with a translation, so that
    a second call does not send a text of these that is not empty again. *)
Theorem failed_call_keeps_answered_batches
    (geminiService : nat -> jsstring -> jsstring -> list jsstring -> option jsstring)
    (texts : list jsstring) (source target : jsstring) (w w' : World) (e : Exn) :
  geminiTranslate geminiService texts source target w = (Throw e, w') ->
  let batches := batchesOf 20 (missTexts (translationCache w) source target texts) in
  exists k0 batch,
    batches !! k0 = Some batch
    /\ geminiService (length (sent w) + k0) source target batch = None
    /\ sent w' = sent w ++ List.map (GeminiRequest source target) (take (S k0) batches)
    /\ (forall k' batch' text,
          k' < k0 -> batches !! k' = Some batch' -> text ∈ batch' ->
          cachedFor (translationCache w') source target text
          /\ (text ≠ [] ->
              is_Some (cacheHit (translationCache w') source target text)))
    /\ (forall text v,
          cacheHit (translationCache w) source target text = Some v ->
          cacheHit (translationCache w') source target text = Some v).
Proof.
  intros Hrun batches.
  assert (forall text v,
            cacheHit (translationCache w) source target text = Some v ->
            cacheHit (translationCache w') source target text = Some v) as Hkeep.
  { intros text v Hv. unfold cacheHit in *.
    by rewrite (Clients.geminiTranslate_keeps _ _ _ _ _ _ _ _ _ Hrun Hv). }
  revert Hrun. unfold geminiTranslate.
  assert (uncachedTexts (scanTexts (translationCache w) source target texts)
          = missTexts (translationCache w) source target texts)
    as HU by apply Clients.scanTexts_spec.
  rewrite HU. destruct (length _ =? 0); [done |]. intros Hrun.
  destruct (ClientRuns.geminiBatches_run _ _ _ _ _ _ _ _ _ _ Hrun)
    as (k & Hk & Hsent & _ & _ & -> & k0 & b & -> & Hb & Hnone & Hdone).
  unfold batches, batchesOf.
  exists k0, (slice b (b + 20) (missTexts (translationCache w) source target texts)).
  split_and!; [by rewrite Clients.map_lookup, Hb | done | | | done].
  - rewrite Hsent. f_equal. by rewrite <- !fmap_take, List.map_map.
  - intros k' batch' text Hlt Hb' Hin.
    rewrite Clients.map_lookup in Hb'.
    destruct (batchStarts 20 _ !! k') as [b'|] eqn:Hk'; [| done].
    injection Hb' as <-.
    assert (cachedFor (translationCache w') source target text) as Hc
      by by eapply (Hdone k' b').
    split; [done |]. intros Hne. destruct Hc as (a & Ha & Hnon).
    unfold cacheHit. rewrite Ha. specialize (Hnon Hne). destruct a; [done |]. by eexists.
Qed.

(** X11. A call of the prompt client that returns gives every text a
    translation, which is not empty unless the text is, and leaves every
    text with a translation in the cache. *)
Theorem prompt_client_answers_every_text
    (geminiService : nat -> jsstring -> jsstring -> list jsstring -> option jsstring)
    (texts : list jsstring) (source target : jsstring) (w w' : World)
    (res : list (option jsstring)) :
  geminiTranslate geminiService texts source target w = (Ok res, w') ->
  length res = length texts
  /\ forall i text,
      texts !! i = Some text ->
      (exists v, res !! i = Some (Some v) /\ (text ≠ [] -> v ≠ []))
      /\ cachedFor (translationCache w') source target text.
Proof.
  intros Hrun.
  destruct (Clients.geminiTranslate_spec _ _ _ _ _ _ _ Hrun)
    as (es & Hes & Hidx & Htxt & Hwb & _ & _).
  destruct (Clients.stored_spec _ _ _ _ _ _ _ Hidx Htxt Hwb)
    as (Hlen & Hhit & Hmiss & Hcache & Hkeep).
  split; [done |]. intros i text Hi.
  destruct (cacheHit (translationCache w) source target text) as [v|] eqn:Hv.
  - split.
    + exists v. split; [by eapply Hhit |]. intros _.
      unfold cacheHit, truthy in Hv.
      destruct (translationCache w !! _) as [[|c s]|]; try done. by injection Hv as <-.
    + unfold cacheHit in Hv. exists v.
      rewrite (Hkeep _ _ Hv).
      unfold truthy in Hv.
      destruct (translationCache w !! _) as [[|c s]|]; try done. by injection Hv as <-.
  - split.
    + destruct (Hmiss i text Hi Hv) as (a & He & Hr). exists a. split; [done |].
      destruct (Clients.geminiEntries_origin _ _ _ _ _ _ _ _ _ Hes He)
        as (k & b & reply & j & _ & _ & _ & _ & Ha).
      simpl in Ha. rewrite Ha. apply ClientRuns.parseLine_nonempty.
    + destruct (Hcache i text Hi Hv) as (i' & a' & _ & He & _ & Hc).
      exists a'. split; [done |].
      destruct (Clients.geminiEntries_origin _ _ _ _ _ _ _ _ _ Hes He)
        as (k & b & reply & j & _ & _ & _ & _ & Ha).
      simpl in Ha. rewrite Ha. apply ClientRuns.parseLine_nonempty.
Qed.

End ClientProps.

(** ** Optimal segmenter: the best total *)

Module Optimal.

Lemma contiguous_visited (split : list (nat * nat)) : forall a N,
  contiguous a split N ->
  Forall (fun c => c.2 <= 4) split ->
  Forall (fun c => visited N (Nat.min 4 N) c.1 c.2) split.
Proof.
  induction split as [|[i len] split IH]; intros a N Hc H4; [constructor |].
  apply Forall_cons in H4 as [Hlen H4]. destruct Hc as (-> & H1 & Hrest).
  pose proof (Backtrack.contiguous_le _ _ _ Hrest) as Hle.
  constructor; [| by eapply IH].
  unfold visited. cbn [fst snd] in *. lia.
Qed.

(** A sequence of candidate spans from [a] to [b] totals no more than the
    difference the dynamic programme finds between [a] and [b]. *)
Lemma path_bound (scored : list (list (option Span))) (N MAX_SPAN : nat)
    (split : list (nat * nat)) : forall a b da,
  (forall i len, visited N MAX_SPAN i len -> is_Some (cell scored i len)) ->
  contiguous a split b ->
  Forall (fun c => visited N MAX_SPAN c.1 c.2) split ->
  (solve scored N MAX_SPAN).1 !! a = Some (Some da) ->
  exists db, (solve scored N MAX_SPAN).1 !! b = Some (Some db)
             /\ (da + totalScore scored split <= db)%Z.
Proof.
  induction split as [|[i len] split IH]; intros a b da Hcells Hc Hv Ha.
  - simpl in Hc. subst b. exists da. split; [done |]. simpl. lia.
  - destruct Hc as (-> & H1 & Hrest). apply Forall_cons in Hv as [Hvis Hv].
    simpl in Hvis. destruct (Hcells _ _ Hvis) as [sp Hsp].
    destruct (Solver.solve_best _ _ _ _ _ _ _ Hvis Hsp Ha) as (dj & c & Hj & Hle & _).
    destruct (IH _ _ _ Hcells Hrest Hv Hj) as (db & Hb & Hle').
    exists db. split; [done |]. cbn [totalScore foldr].
    fold (totalScore scored split). unfold scoreAt at 1. simpl. rewrite Hsp. lia.
Qed.

(** X12. The segmentation returned has the greatest total score of all the
    ways to cut the syllables into spans of 1 to 4 syllables. *)
Theorem segmentation_is_optimal
    (toLowerCase : jsstring -> jsstring) (cfg : Config)
    (geminiService : nat -> jsstring -> jsstring -> list jsstring -> option jsstring)
    (googleService : nat -> jsstring -> jsstring -> list jsstring -> option (list jsstring))
    (input : jsstring) (w w' : World) (scored : list (list (option Span))) :
  let syllables := syllablesOf input in
  let N := length syllables in
  let MAX_SPAN := Nat.min 4 N in
  1 <= N ->
  scoredSpans toLowerCase cfg geminiService googleService syllables w = (Ok scored, w') ->
  exists segments,
    segmentsOf scored N MAX_SPAN = Ok segments
    /\ smartSegmentAndTranslate toLowerCase cfg geminiService googleService input w
       = (Ok (List.map (wordOf scored) segments), w')
    /\ contiguous 0 segments N
    /\ forall split,
        contiguous 0 split N -> Forall (fun c => c.2 <= 4) split ->
        (totalScore scored split <= totalScore scored segments)%Z.
Proof.
  intros syllables N MAX_SPAN HN Hscored.
  assert (forall i len, visited N MAX_SPAN i len -> is_Some (cell scored i len)) as Hcells.
  { intros i len Hv.
    destruct (Pipeline.scoredSpans_cells _ _ _ _ _ _ _ _ HN Hscored i len Hv)
      as (sp & Hsp & _). by exists sp. }
  destruct (Pipeline.segments_cover syllables scored HN Hcells)
    as (segments & Hseg & Hbuild & Hcont & Hvis & Hchosen).
  pose proof (inv_zero _ _ _ _ _ _ (Solver.Inv_solve scored N MAX_SPAN)) as H0.
  pose proof (Pipeline.path_total syllables scored segments 0 N 0%Z Hcont Hchosen H0)
    as Htotal.
  exists segments. split_and!; [done | | done |].
  - unfold smartSegmentAndTranslate, smartSegmentSyllables. fold syllables.
    rewrite (proj2 (Nat.eqb_neq (length syllables) 0)) by (fold N; lia).
    unfold bind. fold N MAX_SPAN. rewrite Hscored. unfold liftR.
    fold N MAX_SPAN in Hseg. by rewrite Hseg, Hbuild.
  - intros split Hsplit H4.
    destruct (path_bound scored N MAX_SPAN split 0 N 0%Z Hcells Hsplit
                (contiguous_visited _ _ _ Hsplit H4) H0) as (db & Hdb & Hle).
    fold N MAX_SPAN in Htotal. rewrite Htotal in Hdb. injection Hdb as <-. lia.
Qed.

End Optimal.

(** ** Segmenter and request handler *)

Module Segmenter.




(** The state after a call of the segmenter differs from the state after
    its second step in the dictionary only. *)
Lemma after_resolve (toLowerCase : jsstring -> jsstring) (cfg : Config)
    (geminiService : nat -> jsstring -> jsstring -> list jsstring -> option jsstring)
    (googleService : nat -> jsstring -> jsstring -> list jsstring -> option (list jsstring))
    (syllables : list jsstring) (w w' : World) (r : Result (list WordBreakdown)) :
  1 <= length syllables ->
  smartSegmentSyllables toLowerCase cfg geminiService googleService syllables w = (r, w') ->
  exists r1 w1,
    resolveSpans toLowerCase cfg geminiService googleService syllables w = (r1, w1)
    /\ sent w' = sent w1 /\ translationCache w' = translationCache w1
    /\ (forall e, r1 = Throw e -> r = Throw e /\ w' = w1).
Proof.
  intros HN. unfold smartSegmentSyllables, scoredSpans.
  rewrite (proj2 (Nat.eqb_neq (length syllables) 0)) by lia.
  unfold bind, liftR.
  destruct (resolveSpans _ _ _ _ _ w) as [[resolved|e] w1] eqn:Hres.
  2:{ intros [= <- <-]. exists (Throw e), w1. split_and!; try done.
      by intros e' [= <-]. }
  unfold scoreAll.
  destruct (scoreSpans _ _ _ _) as [[mid dict']|e]; simpl.
  - destruct (segmentsOf _ _ _) as [segments|e]; simpl.
    + intros [= <- <-]. by exists (Ok resolved), w1.
    + intros [= <- <-]. by exists (Ok resolved), w1.
  - intros [= <- <-]. by exists (Ok resolved), w1.
Qed.

(** The requests of the second step, whatever its outcome. *)
Lemma resolveSpans_sent (toLowerCase : jsstring -> jsstring) (cfg : Config)
    (geminiService : nat -> jsstring -> jsstring -> list jsstring -> option jsstring)
    (googleService : nat -> jsstring -> jsstring -> list jsstring -> option (list jsstring))
    (syllables : list jsstring) (w w1 : World)
    (r : Result (list (list (option Span)))) :
  resolveSpans toLowerCase cfg geminiService googleService syllables w = (r, w1) ->
  let toTranslate :=
    (collectSpans toLowerCase (dictionary w) syllables (length syllables)
       (Nat.min 4 (length syllables))).2 in
  exists k,
    sent w1
    = sent w ++ take k (plannedRequests cfg (js "vi") (js "en")
                          (missTexts (translationCache w) (js "vi") (js "en")
                             (List.map pendingText toTranslate)))
    /\ dictionary w1 = dictionary w.
Proof.
  unfold resolveSpans.
  destruct (collectSpans _ _ _ _ _) as [spans toTranslate] eqn:Hcol. simpl.
  destruct (negb (length toTranslate =? 0) && isSet (API_KEY cfg)).
  - unfold bind, ret.
    destruct (googleTranslate _ _ _ _ _ _ w) as [r1 w2] eqn:Hcall.
    destruct (ClientRuns.googleTranslate_sent _ _ _ _ _ _ _ _ _ Hcall)
      as [(k & _ & Hsent & _) Hdict].
    intros Hrun. assert (w1 = w2) as -> by (destruct r1; by injection Hrun).
    by exists k.
  - assert (w1 = w -> exists k,
              sent w1 = sent w ++ take k (plannedRequests cfg (js "vi") (js "en")
                          (missTexts (translationCache w) (js "vi") (js "en")
                             (List.map pendingText toTranslate)))
              /\ dictionary w1 = dictionary w) as Hsame.
    { intros ->. exists 0. by rewrite take_0, app_nil_r. }
    destruct (negb (length toTranslate =? 0)); intros [= _ <-]; by apply Hsame.
Qed.


(** X14. Whatever its outcome, a call of the segmenter sends only phrases of
    one to four syllables of the cleaned text that are neither in the
    Lexicon nor in the cache, from Vietnamese to English. *)
Theorem segmenter_asks_for_unknown_spans_only
    (toLowerCase : jsstring -> jsstring) (cfg : Config)
    (geminiService : nat -> jsstring -> jsstring -> list jsstring -> option jsstring)
    (googleService : nat -> jsstring -> jsstring -> list jsstring -> option (list jsstring))
    (input : jsstring) (w w' : World) (r : Result (list WordBreakdown)) :
  smartSegmentAndTranslate toLowerCase cfg geminiService googleService input w = (r, w') ->
  let syllables := syllablesOf input in
  exists new,
    sent w' = sent w ++ new
    /\ Forall
         (fun rq =>
            rq = requestOf cfg (js "vi") (js "en") (requestBatch rq)
            /\ Forall
                 (fun text =>
                    (exists i len,
                       visited (length syllables) (Nat.min 4 (length syllables)) i len
                       /\ text = phraseAt syllables i len)
                    /\ dictLookup toLowerCase (dictionary w) text = None
                    /\ cacheHit (translationCache w) (js "vi") (js "en") text = None)
                 (requestBatch rq))
         new.
Proof.
  intros Hrun syllables. unfold smartSegmentAndTranslate in Hrun. fold syllables in Hrun.
  destruct (decide (length syllables = 0)) as [H0|H0].
  { unfold smartSegmentSyllables in Hrun. rewrite H0 in Hrun. simpl in Hrun.
    injection Hrun as _ <-. exists []. by rewrite app_nil_r. }
  assert (1 <= length syllables) as HN by lia.
  destruct (after_resolve _ _ _ _ _ _ _ _ HN Hrun) as (r1 & w1 & Hres & Hsent & _).
  destruct (resolveSpans_sent _ _ _ _ _ _ _ _ Hres) as (k & Hsent1 & _).
  rewrite Hsent, Hsent1. eexists. split; [done |].
  set (toTranslate := (collectSpans toLowerCase (dictionary w) syllables
                         (length syllables) (Nat.min 4 (length syllables))).2).
  set (misses := missTexts (translationCache w) (js "vi") (js "en")
                   (List.map pendingText toTranslate)).
  apply Forall_forall. intros rq Hrq.
  apply (subseteq_take k) in Hrq. unfold plannedRequests in Hrq.
  apply list_elem_of_fmap in Hrq as (batch & -> & Hbatch).
  assert (requestBatch (requestOf cfg (js "vi") (js "en") batch) = batch) as Hb.
  { unfold requestOf. by destruct (usesGemini cfg). }
  rewrite Hb. split; [done |].
  apply Forall_forall. intros text Htext.
  assert (text ∈ misses) as Hmiss.
  { unfold batchesOf in Hbatch. apply list_elem_of_fmap in Hbatch as (b & -> & _).
    apply list_elem_of_lookup in Htext as [j Hj]. unfold slice in Hj.
    apply lookup_take_Some in Hj as [Hj _]. rewrite lookup_drop in Hj.
    by eapply list_elem_of_lookup_2. }
  unfold misses, missTexts in Hmiss.
  apply list_elem_of_In, filter_In in Hmiss as [Hin Hnone].
  apply bool_decide_eq_true_1 in Hnone.
  apply in_map_iff in Hin as (p & <- & Hp). apply list_elem_of_In in Hp.
  destruct (col_pending _ _ _ _ _ _
              (Table.Collected_all toLowerCase (dictionary w) syllables) p Hp)
    as (Hv & _ & Heq & Hdict).
  split_and!; [| done | done].
  exists (pendingI p), (pendingLen p). split; [done |]. by rewrite Heq at 1.
Qed.

(** The keys of the dictionary a call of the segmenter that returns has
    changed had no entry, or an empty one, and have one now. *)
Lemma dictionary_changes (toLowerCase : jsstring -> jsstring) (cfg : Config)
    (geminiService : nat -> jsstring -> jsstring -> list jsstring -> option jsstring)
    (googleService : nat -> jsstring -> jsstring -> list jsstring -> option (list jsstring))
    (syllables : list jsstring) (w w' : World) (words : list WordBreakdown) :
  smartSegmentSyllables toLowerCase cfg geminiService googleService syllables w
  = (Ok words, w') ->
  forall key, dictionary w' !! key ≠ dictionary w !! key ->
    truthy (dictionary w !! key) = None /\ is_Some (dictionary w' !! key).
Proof.
  unfold smartSegmentSyllables, scoredSpans.
  destruct (length syllables =? 0) eqn:HN0; [by intros [= _ <-] |].
  apply Nat.eqb_neq in HN0. assert (1 <= length syllables) as HN by lia.
  unfold bind, liftR.
  destruct (resolveSpans _ _ _ _ _ w) as [[resolved|e] w1] eqn:Hres; [| done].
  destruct (scoreAll toLowerCase _ _ resolved w1) as [[scored|e] w2] eqn:Hsc; [| done].
  intros Hrun. assert (w' = w2) as ->.
  { destruct (segmentsOf _ _ _); [| done]. destruct (buildResults _ _); [| done].
    by injection Hrun. }
  clear Hrun.
  destruct (resolveSpans_sent _ _ _ _ _ _ _ _ Hres) as (_ & _ & Hd1).
  destruct (Pipeline.resolveSpans_resolved _ _ _ _ _ _ _ _ Hres) as (tr & Hsh & Hcells).
  assert (1 <= Nat.min 4 (length syllables)) as HM by lia.
  destruct (Pipeline.scoreAll_spec _ _ _ _ _ _ Hsh HM Hsc)
    as (_ & _ & _ & _ & _ & Honly & _).
  rewrite Hd1 in Honly.
  intros key Hne.
  destruct (Honly key Hne) as (i & len & sp & t & [Hv _] & Hcomp & -> & Hnew).
  split; [| by eexists].
  destruct Hcomp as (Hcell & Hflag & _).
  specialize (Hcells i len Hv). unfold dictLookup, orElse in Hcells.
  destruct (truthy (dictionary w !! toLowerCase (phraseAt syllables i len)))
    as [v|] eqn:Hlow.
  - rewrite Hcells in Hcell. injection Hcell as <-. done.
  - destruct (truthy (dictionary w !! phraseAt syllables i len)).
    + rewrite Hcells in Hcell. injection Hcell as <-. done.
    + destruct Hcells as (n & _ & Hc). rewrite Hc in Hcell.
      injection Hcell as <-. done.
Qed.

(** X15. A call of the segmenter that returns removes no key of the
    dictionary and leaves every entry that is not empty as it found it:
    what it learns goes under keys that had no entry, or an empty one. *)
Theorem learned_compounds_overwrite_no_entry
    (toLowerCase : jsstring -> jsstring) (cfg : Config)
    (geminiService : nat -> jsstring -> jsstring -> list jsstring -> option jsstring)
    (googleService : nat -> jsstring -> jsstring -> list jsstring -> option (list jsstring))
    (input : jsstring) (w w' : World) (words : list WordBreakdown) :
  smartSegmentAndTranslate toLowerCase cfg geminiService googleService input w
  = (Ok words, w') ->
  (forall key v, truthy (dictionary w !! key) = Some v ->
                 dictionary w' !! key = dictionary w !! key)
  /\ (forall key, is_Some (dictionary w !! key) -> is_Some (dictionary w' !! key)).
Proof.
  intros Hrun. unfold smartSegmentAndTranslate in Hrun.
  pose proof (dictionary_changes _ _ _ _ _ _ _ _ Hrun) as Hchanged.
  split.
  - intros key v Hv.
    destruct (decide (dictionary w' !! key = dictionary w !! key)) as [|Hne]; [done |].
    destruct (Hchanged key Hne) as [Hnone _]. congruence.
  - intros key Hsome.
    destruct (decide (dictionary w' !! key = dictionary w !! key)) as [->|Hne]; [done |].
    by destruct (Hchanged key Hne) as [_ ?].
Qed.




















End Segmenter.

(** ** Origin of a fallen-back translation *)

Module FallbackOrigin.



End FallbackOrigin.

(** ** Vocabulary of a run and study sheet *)

Module Vocabulary.

Section Vocabulary.

Variable toLowerCase : jsstring -> jsstring.
Variable dict : gmap jsstring jsstring.

Lemma vocabGet_None (m : VocabMap) k : vocabGet m k = None <-> k ∉ m.*1.
Proof.
  induction m as [|[k' v] m IH]; simpl.
  - split; [intros _; apply not_elem_of_nil | done].
  - rewrite not_elem_of_cons. destruct (bool_decide (k' = k)) eqn:E.
    + apply bool_decide_eq_true_1 in E. subst k'. split; [done | by intros [? _]].
    + apply bool_decide_eq_false_1 in E. rewrite IH.
      split; [by intros ?; split; [intros -> |] | tauto].
Qed.

Lemma vocabBump_keys (m : VocabMap) k : (vocabBump m k).*1 = m.*1.
Proof.
  induction m as [|[k' v] m IH]; [done |]. cbn [vocabBump].
  destruct (bool_decide (k' = k)); csimpl; [done | by rewrite IH].
Qed.

Lemma vocabGet_bump (m : VocabMap) k k' :
  vocabGet (vocabBump m k) k'
  = if decide (k = k')
    then match vocabGet m k' with
         | Some v => Some ((v.1 + 1)%Z, v.2)
         | None => None
         end
    else vocabGet m k'.
Proof.
  induction m as [|[k0 v] m IH]; simpl; [by destruct (decide _) |].
  destruct (bool_decide (k0 = k)) eqn:E0; simpl.
  - apply bool_decide_eq_true_1 in E0. subst k0.
    destruct (decide (k = k')) as [->|Hne].
    + by rewrite bool_decide_eq_true_2.
    + by rewrite bool_decide_eq_false_2.
  - apply bool_decide_eq_false_1 in E0.
    destruct (bool_decide (k0 = k')) eqn:E1.
    + apply bool_decide_eq_true_1 in E1. subst k0.
      by rewrite decide_False by congruence.
    + exact IH.
Qed.

Lemma vocabGet_app (m : VocabMap) k v k' :
  vocabGet (m ++ [(k, v)]) k'
  = match vocabGet m k' with
    | Some v' => Some v'
    | None => if decide (k = k') then Some v else None
    end.
Proof.
  induction m as [|[k0 v0] m IH]; simpl.
  - destruct (decide (k = k')) as [->|Hne];
      [by rewrite bool_decide_eq_true_2 | by rewrite bool_decide_eq_false_2].
  - by destruct (bool_decide (k0 = k')).
Qed.

Lemma vocabTotal_bump (m : VocabMap) k :
  k ∈ m.*1 -> vocabTotal (vocabBump m k) = (vocabTotal m + 1)%Z.
Proof.
  induction m as [|[k0 v] m IH]; csimpl; [by intros ?%elem_of_nil |].
  intros Hin. destruct (bool_decide (k0 = k)) eqn:E; simpl.
  - lia.
  - apply bool_decide_eq_false_1 in E.
    apply elem_of_cons in Hin as [?|Hin]; [congruence |]. rewrite IH by done. lia.
Qed.

Lemma vocabTotal_app (m : VocabMap) e : vocabTotal (m ++ [e]) = (vocabTotal m + e.2.1)%Z.
Proof. induction m as [|e' m IH]; simpl; [lia | rewrite IH; lia]. Qed.

(** One step of the inner loop. *)
Lemma countWord_spec (m : VocabMap) w :
  NoDup m.*1 ->
  NoDup (countWord toLowerCase dict m w).*1
  /\ vocabTotal (countWord toLowerCase dict m w) = (vocabTotal m + 1)%Z
  /\ forall k,
      vocabGet (countWord toLowerCase dict m w) k
      = if decide (toLowerCase w = k)
        then match vocabGet m k with
             | Some v => Some ((v.1 + 1)%Z, v.2)
             | None => Some (1%Z, default [] (dictLookup toLowerCase dict w))
             end
        else vocabGet m k.
Proof.
  intros Hnd. unfold countWord.
  destruct (vocabGet m (toLowerCase w)) as [v|] eqn:Hget.
  - assert (toLowerCase w ∈ m.*1) as Hin.
    { destruct (decide (toLowerCase w ∈ m.*1)) as [|Hn]; [done |].
      apply vocabGet_None in Hn. congruence. }
    split_and!.
    + by rewrite vocabBump_keys.
    + by apply vocabTotal_bump.
    + intros k. rewrite vocabGet_bump. destruct (decide _) as [<-|]; [| done].
      by rewrite Hget.
  - apply vocabGet_None in Hget. split_and!.
    + rewrite fmap_app. apply NoDup_app. split_and!; [done | | apply NoDup_singleton].
      intros x Hx [->|[]%elem_of_nil]%elem_of_cons. done.
    + rewrite vocabTotal_app. done.
    + intros k. rewrite vocabGet_app.
      destruct (decide (toLowerCase w = k)) as [<-|Hne].
      * apply vocabGet_None in Hget. by rewrite Hget.
      * by destruct (vocabGet m k).
Qed.

(** The inner loop over a list of words. *)
Lemma countWords_spec words : forall (m : VocabMap),
  NoDup m.*1 ->
  let m' := fold_left (countWord toLowerCase dict) words m in
  NoDup m'.*1
  /\ vocabTotal m' = (vocabTotal m + Z.of_nat (length words))%Z
  /\ forall k,
      vocabGet m' k
      = match occurrences toLowerCase k words with
        | [] => vocabGet m k
        | w0 :: _ =>
            let n := Z.of_nat (length (occurrences toLowerCase k words)) in
            match vocabGet m k with
            | Some v => Some ((v.1 + n)%Z, v.2)
            | None => Some (n, default [] (dictLookup toLowerCase dict w0))
            end
        end.
Proof.
  induction words as [|w words IH]; intros m Hnd; simpl.
  - split_and!; [done | lia | done].
  - destruct (countWord_spec m w Hnd) as (Hnd1 & Htot1 & Hget1).
    destruct (IH _ Hnd1) as (Hnd2 & Htot2 & Hget2).
    split_and!; [done | rewrite Htot2, Htot1; lia |].
    intros k. rewrite Hget2, Hget1. unfold occurrences. simpl.
    destruct (decide (toLowerCase w = k)) as [Heq|Hne].
    + rewrite bool_decide_eq_true_2 by done.
      fold (occurrences toLowerCase k words).
      destruct (occurrences toLowerCase k words) as [|w1 occ] eqn:Hocc.
      * destruct (vocabGet m k) as [[c t]|]; simpl; done.
      * destruct (vocabGet m k) as [[c t]|]; simpl; do 2 f_equal; lia.
    + rewrite bool_decide_eq_false_2 by done. done.
Qed.

Lemma extractVocabulary_words utterances :
  extractVocabulary toLowerCase dict utterances
  = fold_left (countWord toLowerCase dict) (wordsOfRun toLowerCase dict utterances) [].
Proof.
  unfold extractVocabulary, wordsOfRun. generalize (@nil (jsstring * (Z * jsstring))).
  induction utterances as [|u us IH]; intros m; simpl; [done |].
  by rewrite fold_left_app, IH.
Qed.

Lemma vocabGet_elem (m : VocabMap) k v : vocabGet m k = Some v -> (k, v) ∈ m.
Proof.
  induction m as [|[k0 v0] m IH]; simpl; [done |].
  destruct (bool_decide (k0 = k)) eqn:E.
  - apply bool_decide_eq_true_1 in E. intros [= <-]. subst. by left.
  - intros H. right. by apply IH.
Qed.

End Vocabulary.

Lemma insertByVocabCount_Permutation e sorted :
  insertByVocabCount e sorted ≡ₚ e :: sorted.
Proof.
  induction sorted as [|e' rest IH]; simpl; [done |].
  destruct (e.2.1 <? e'.2.1)%Z; [| done].
  rewrite IH. apply Permutation_swap.
Qed.

Lemma sortByVocabCount_Permutation entries : sortByVocabCount entries ≡ₚ entries.
Proof.
  induction entries as [|e entries IH]; simpl; [done |].
  by rewrite insertByVocabCount_Permutation, IH.
Qed.

Lemma insertByVocabCount_sorted e sorted :
  StronglySorted byVocabCountDesc sorted ->
  StronglySorted byVocabCountDesc (insertByVocabCount e sorted).
Proof.
  induction sorted as [|e' rest IH]; simpl; intros Hs.
  - repeat constructor.
  - apply StronglySorted_inv in Hs as [Hrest Hall].
    destruct (e.2.1 <? e'.2.1)%Z eqn:E.
    + apply Z.ltb_lt in E. constructor; [by apply IH |].
      rewrite insertByVocabCount_Permutation.
      constructor; [unfold byVocabCountDesc; lia | done].
    + apply Z.ltb_ge in E. constructor; [by constructor |].
      constructor; [done |].
      eapply Forall_impl; [exact Hall |]. unfold byVocabCountDesc. intros; simpl in *; lia.
Qed.

Lemma sortByVocabCount_sorted entries :
  StronglySorted byVocabCountDesc (sortByVocabCount entries).
Proof.
  induction entries as [|e entries IH]; simpl; [constructor |].
  by apply insertByVocabCount_sorted.
Qed.

Lemma studySheetRows_elem (wordCounts : VocabMap) e :
  e ∈ sortByVocabCount
        (List.filter (fun e => negb (Nat.eqb (length e.2.2) 0)) wordCounts)
  <-> e ∈ wordCounts /\ e.2.2 ≠ [].
Proof.
  rewrite sortByVocabCount_Permutation, list_elem_of_In, filter_In, <- list_elem_of_In.
  split; intros [Hin Hne]; (split; [done |]).
  - intros Hnil. by rewrite Hnil in Hne.
  - by destruct (e.2.2).
Qed.


(** X20. For a table with one entry per word whose counts are integers
    from 0 to [2^53 - 1], the sums with the counts of the run staying in
    this range: after the vocabulary of the run is merged into the table,
    a word the run has seen has its former count, or 0, plus the number of
    times it was seen, and any other word has the count it had. *)
Theorem run_adds_its_words_to_the_table
    (toLowerCase : jsstring -> jsstring) (dict : gmap jsstring jsstring)
    (utterances : list ProcessedUtterance) (table : list (jsstring * Z))
    (key : jsstring) :
  NoDup table.*1 ->
  safeMerge table (extractVocabulary toLowerCase dict utterances) ->
  let seen := occurrences toLowerCase key (wordsOfRun toLowerCase dict utterances) in
  mapGet (mergeWordFrequency (Some (asNumbers table))
            (extractVocabulary toLowerCase dict utterances)) key
  = numOfZ <$> match seen with
               | [] => mapGet table key
               | _ :: _ =>
                   Some (default 0 (mapGet table key) + Z.of_nat (length seen))%Z
               end.
Proof.
  intros Hnd Hsafe seen.
  destruct (countWords_spec toLowerCase dict (wordsOfRun toLowerCase dict utterances) []
              (NoDup_nil_2)) as (Hnd' & _ & Hget).
  rewrite <- extractVocabulary_words in Hnd', Hget.
  destruct (Frequency.merge_exact table _ Hnd Hnd' Hsafe) as [-> _].
  rewrite Frequency.mapGet_asNumbers, Frequency.exactMerge_get by done. f_equal.
  specialize (Hget key). fold seen in Hget. simpl in Hget.
  destruct seen as [|w0 occ].
  - apply Frequency.exactAddCounts_other. by apply vocabGet_None.
  - apply vocabGet_elem in Hget.
    by rewrite (Frequency.exactAddCounts_entry _ _ _ _ _ Hnd' Hget).
Qed.

(** X21. The study sheet has at most 30 rows, all of words of the vocabulary
    that have a translation, by count from the greatest; a translated word
    is left out only when the sheet is full, and then it has no greater
    count than any word of the sheet. *)
Theorem study_sheet_has_the_top_translated_words (wordCounts : VocabMap) :
  let rows := studySheetRows wordCounts in
  length rows <= 30
  /\ Forall (fun e => e ∈ wordCounts /\ e.2.2 ≠ []) rows
  /\ StronglySorted byVocabCountDesc rows
  /\ (NoDup wordCounts -> NoDup rows)
  /\ forall e,
      e ∈ wordCounts -> e.2.2 ≠ [] -> e ∉ rows ->
      length rows = 30 /\ Forall (fun r => (e.2.1 <= r.2.1)%Z) rows.
Proof.
  intros rows. unfold rows, studySheetRows.
  set (sorted := sortByVocabCount
                   (List.filter (fun e => negb (Nat.eqb (length e.2.2) 0)) wordCounts)).
  pose proof (sortByVocabCount_sorted
                (List.filter (fun e => negb (Nat.eqb (length e.2.2) 0)) wordCounts))
    as Hsorted. fold sorted in Hsorted.
  rewrite <- (take_drop 30 sorted) in Hsorted.
  split_and!.
  - rewrite length_take. lia.
  - apply Forall_forall. intros e He. apply studySheetRows_elem.
    by apply (subseteq_take 30).
  - by eapply StronglySorted_app_1_l.
  - intros Hnd. eapply sublist_NoDup; [| apply sublist_take].
    unfold sorted. rewrite sortByVocabCount_Permutation.
    by apply NoDup_ListNoDup, List.NoDup_filter, NoDup_ListNoDup.
  - intros e Hin Hne Hout.
    assert (e ∈ sorted) as Hs by by apply studySheetRows_elem.
    rewrite <- (take_drop 30 sorted) in Hs. apply elem_of_app in Hs as [|Hdrop]; [done |].
    split.
    + rewrite length_take. apply list_elem_of_lookup in Hdrop as [i Hi].
      apply lookup_lt_Some in Hi. rewrite length_drop in Hi.
      unfold jsstring in *. lia.
    + apply Forall_forall. intros r Hr.
      apply (StronglySorted_app_1_elem_of _ _ _ _ _ Hsorted Hr Hdrop).
Qed.


End Vocabulary.

(** ** Frequency table *)

Module FrequencyTable.

Lemma tableTotal_Permutation (m m' : list (jsstring * Z)) :
  m ≡ₚ m' -> tableTotal m = tableTotal m'.
Proof.
  induction 1 as [|e m m' _ IH|e1 e2 m|m1 m2 m3 _ IH1 _ IH2]; simpl; lia.
Qed.

Lemma tableTotal_mapSet (m : list (jsstring * Z)) w v :
  tableTotal (mapSet m w v) = (tableTotal m - default 0 (mapGet m w) + v)%Z.
Proof.
  induction m as [|[k c] m IH]; simpl; [lia |].
  destruct (bool_decide (k = w)); simpl; [lia | rewrite IH; lia].
Qed.

Lemma tableTotal_exactAddCounts delta : forall (m : list (jsstring * Z)),
  tableTotal (exactAddCounts m delta) = (tableTotal m + vocabTotal delta)%Z.
Proof.
  induction delta as [|e delta IH]; intros m; [simpl; lia |].
  rewrite Frequency.exactAddCounts_cons, IH, tableTotal_mapSet. simpl. lia.
Qed.

Lemma tableTotal_exactMerge table delta :
  NoDup table.*1 ->
  tableTotal (exactMerge (Some table) delta) = (tableTotal table + vocabTotal delta)%Z.
Proof.
  intros Hnd. unfold exactMerge. simpl.
  rewrite (tableTotal_Permutation _ _ (Frequency.exactSort_Permutation _)).
  by rewrite tableTotal_exactAddCounts, Frequency.loadCounts_id.
Qed.

(** X23. The merge keeps the total. For a table with one entry per word
    whose counts are integers from 0 to [2^53 - 1], and a delta whose sums
    with them stay in this range, the table written has integer counts in
    this range, which add up to the counts of the table read plus the
    counts of the run; when there is no file, to the counts of the run. *)
Theorem merge_conserves_the_total
    (table : list (jsstring * Z)) (delta : list (jsstring * (Z * jsstring))) :
  NoDup table.*1 -> NoDup delta.*1 -> safeMerge table delta ->
  (exists written,
     mergeWordFrequency (Some (asNumbers table)) delta = asNumbers written
     /\ Forall (fun e => safeCount e.2) written
     /\ tableTotal written = (tableTotal table + vocabTotal delta)%Z)
  /\ (table = [] ->
      exists written,
        mergeWordFrequency None delta = asNumbers written
        /\ tableTotal written = vocabTotal delta).
Proof.
  intros Hnd Hd Hsafe.
  destruct (Frequency.merge_exact table delta Hnd Hd Hsafe) as [Hexact Hall].
  pose proof (tableTotal_exactMerge table delta Hnd) as Htotal.
  split.
  - by exists (exactMerge (Some table) delta).
  - intros ->. exists (exactMerge (Some []) delta). split; [exact Hexact |].
    rewrite Htotal. simpl. lia.
Qed.

(** X24. The table written has every word once, whatever the file read;
    when the file has a word more than once, the count of its last entry
    is the one the merge starts from: a word of the delta ends with that
    count, or 0 when it is falsy, plus the count of the delta, as numbers
    add, which is the sum of the integers when these are from 0 to
    [2^53 - 1]. *)
Theorem merge_reads_the_last_entry_of_a_word
    (pre post : CountMap) (w : jsstring) (c : num)
    (delta : list (jsstring * (Z * jsstring))) :
  w ∉ post.*1 ->
  let merged := mergeWordFrequency (Some (pre ++ (w, c) :: post)) delta in
  NoDup merged.*1
  /\ (w ∉ delta.*1 -> mapGet merged w = Some c)
  /\ (forall d tr, NoDup delta.*1 -> (w, (d, tr)) ∈ delta ->
        mapGet merged w = Some (numAdd (orZero (Some c)) (numOfZ d))
        /\ forall k,
            c = numOfZ k -> safeCount k -> (0 <= d)%Z -> safeCount (k + d)%Z ->
            mapGet merged w = Some (numOfZ (k + d)%Z)).
Proof.
  intros Hpost merged.
  assert (mapGet (loadCounts (pre ++ (w, c) :: post)) w = Some c) as Hload.
  { unfold loadCounts. rewrite fold_left_app. simpl.
    rewrite (Frequency.loadCounts_other post w) by done.
    apply Frequency.mapGet_mapSet_eq. }
  assert (forall d tr, NoDup delta.*1 -> (w, (d, tr)) ∈ delta ->
            mapGet merged w = Some (numAdd (orZero (Some c)) (numOfZ d))) as Hadd.
  { intros d tr Hnd Hin. unfold merged. rewrite Frequency.merge_get. simpl.
    rewrite (Frequency.addCounts_entry _ _ _ _ _ Hnd Hin). by rewrite Hload. }
  split_and!.
  - apply Frequency.merge_NoDup.
  - intros Hdelta. unfold merged. rewrite Frequency.merge_get. simpl.
    by rewrite Frequency.addCounts_other.
  - intros d tr Hnd Hin. split; [by apply (Hadd d tr) |].
    intros k -> Hk Hd Hsum. rewrite (Hadd d tr Hnd Hin).
    unfold safeCount in Hk, Hsum.
    change (Some (numOfZ k)) with (numOfZ <$> Some k).
    rewrite Numbers.orZero_exact by (simpl; lia). simpl.
    rewrite Numbers.numAdd_exact by lia. done.
Qed.

End FrequencyTable.

(** ** Clip labels *)

Module ClipLabel.

Lemma stripPrefix_app p s : stripPrefix p (p ++ s) = Some s.
Proof. induction p as [|a p IH]; simpl; [done |]. by rewrite N.eqb_refl. Qed.

Lemma stripPrefix_Some p : forall s r, stripPrefix p s = Some r -> s = p ++ r.
Proof.
  induction p as [|a p IH]; intros s r; simpl; [by intros [= ->] |].
  destruct s as [|b s]; [done |].
  destruct (a =? b)%N eqn:E; [| done]. apply N.eqb_eq in E. subst b.
  intros H. by rewrite (IH _ _ H).
Qed.

Lemma dropDigits_app ds rest :
  Forall (fun c => isDigit c = true) ds ->
  (forall c rest', rest = c :: rest' -> isDigit c = false) ->
  dropDigits (ds ++ rest) = rest.
Proof.
  intros Hds Hrest. induction Hds as [|d ds Hd _ IH]; simpl.
  - destruct rest as [|c rest']; [done |]. simpl. by rewrite (Hrest c rest').
  - by rewrite Hd.
Qed.

Lemma dropDigits_split s :
  exists ds, Forall (fun c => isDigit c = true) ds /\ s = ds ++ dropDigits s.
Proof.
  induction s as [|c s (ds & Hds & IH)]; [by exists [] |]. simpl.
  destruct (isDigit c) eqn:E.
  - exists (c :: ds). split; [by constructor |]. simpl. by rewrite <- IH.
  - by exists [].
Qed.

Lemma digit_not_bracket c : isDigit c = true -> (c =? 41)%N = false.
Proof.
  unfold isDigit. intros [H1 H2]%andb_true_iff.
  apply N.leb_le in H1. apply N.eqb_neq. lia.
Qed.

(** X25. A name that ends with two digits, a full stop, two digits, an
    optional counter in round brackets and the extension is labelled with
    the four digits, a colon between the pairs, whatever comes before. *)
Theorem timed_name_is_labelled_with_its_time (filename : jsstring) (h1 h2 m1 m2 : N) :
  timedName filename h1 h2 m1 m2 ->
  fileTimeLabel filename = [h1; h2; COLON; m1; m2].
Proof.
  intros (pre & counter & Hh1 & Hh2 & Hm1 & Hm2 & Hcounter & ->).
  unfold fileTimeLabel, matchTimeLabel.
  rewrite !reverse_app, <- !app_assoc, stripPrefix_app.
  assert (matchCounter (reverse counter ++ reverse [h1; h2; DOT; m1; m2] ++ reverse pre)
          = Some (reverse [h1; h2; DOT; m1; m2] ++ reverse pre)) as ->.
  { destruct Hcounter as [->|(ds & Hne & Hds & ->)].
    - change (reverse [h1; h2; DOT; m1; m2]) with [m2; m1; DOT; h2; h1].
      simpl. by rewrite (digit_not_bracket m2).
    - rewrite !reverse_app. change (reverse [41%N]) with [41%N].
      change (reverse [40%N]) with [40%N]. rewrite <- !app_assoc.
      cbn [app matchCounter N.eqb Pos.eqb].
      assert (Forall (fun c => isDigit c = true) (reverse ds)) as Hrev.
      { by apply Forall_reverse. }
      destruct (reverse ds) as [|d ds'] eqn:Hr.
      { apply (f_equal reverse) in Hr. rewrite reverse_involutive in Hr. done. }
      cbn [app]. apply Forall_cons in Hrev as [Hd Hrev]. rewrite Hd.
      change (d :: ds' ++ 40%N :: ?x) with ((d :: ds') ++ 40%N :: x).
      rewrite dropDigits_app; [done | by constructor |].
      by intros c rest' [= <- _]. }
  change (reverse [h1; h2; DOT; m1; m2]) with [m2; m1; DOT; h2; h1].
  simpl. by rewrite Hm2, Hm1, Hh2, Hh1.
Qed.

(** X26. A name is either returned as it is, or it ends with a time, an
    optional counter and the extension, and the label is that time: no
    other name gets a label. *)
Theorem label_is_the_name_or_its_time (filename : jsstring) :
  fileTimeLabel filename = filename
  \/ exists h1 h2 m1 m2,
      timedName filename h1 h2 m1 m2
      /\ fileTimeLabel filename = [h1; h2; COLON; m1; m2].
Proof.
  unfold fileTimeLabel.
  destruct (matchTimeLabel filename) as [[[[h1 h2] m1] m2]|] eqn:Hmatch; [| by left].
  right. exists h1, h2, m1, m2. split; [| done].
  unfold matchTimeLabel in Hmatch.
  destruct (stripPrefix _ _) as [r|] eqn:Hext; [| done].
  apply stripPrefix_Some in Hext.
  destruct (matchCounter r) as [r'|] eqn:Hcounter; [| done].
  assert (exists counter, isClipCounter counter /\ r = reverse counter ++ r')
    as (counter & Hc & ->).
  { unfold matchCounter in Hcounter. destruct r as [|c r0].
    - injection Hcounter as <-. exists []. split; [by left | done].
    - destruct (c =? 41)%N eqn:E.
      + apply N.eqb_eq in E. subst c. destruct r0 as [|d r1]; [done |].
        destruct (isDigit d) eqn:Hd; [| done].
        destruct (dropDigits_split r1) as (ds & Hds & Hsplit).
        assert (dropDigits (d :: r1) = dropDigits r1) as Hdd by (simpl; by rewrite Hd).
        rewrite Hdd in Hcounter.
        destruct (dropDigits r1) as [|o r2] eqn:Hdrop; [done |].
        destruct (o =? 40)%N eqn:Eo; [| done]. apply N.eqb_eq in Eo. subst o.
        injection Hcounter as <-.
        exists ([40%N] ++ reverse (d :: ds) ++ [41%N]). split.
        * right. exists (reverse (d :: ds)). split_and!; [| | done].
          -- rewrite reverse_cons. by destruct (reverse ds).
          -- apply Forall_reverse. by constructor.
        * rewrite !reverse_app, reverse_involutive. rewrite Hsplit.
          by rewrite <- !app_assoc.
      + injection Hcounter as <-. exists []. split; [by left | done]. }
  unfold matchTime in Hmatch.
  destruct r' as [|x2 [|x1 [|dot [|y2 [|y1 rest]]]]]; try done.
  destruct (isDigit x2) eqn:H1; [| done].
  destruct (isDigit x1) eqn:H2; [| done].
  destruct (dot =? DOT)%N eqn:H3; [| done]. apply N.eqb_eq in H3. subst dot.
  destruct (isDigit y2) eqn:H4; [| done].
  destruct (isDigit y1) eqn:H5; [| done].
  injection Hmatch as <- <- <- <-.
  exists (reverse rest), counter. split_and!; try done.
  apply (f_equal reverse) in Hext. rewrite reverse_involutive in Hext.
  rewrite Hext. rewrite !reverse_app, reverse_involutive.
  change (reverse (x2 :: x1 :: DOT :: y2 :: y1 :: rest))
    with (reverse ([x2; x1; DOT; y2; y1] ++ rest)).
  rewrite reverse_app. change (reverse [x2; x1; DOT; y2; y1]) with [y1; y2; DOT; x1; x2].
  by rewrite <- !app_assoc.
Qed.

End ClipLabel.

(** ** The further properties at concrete inputs *)

Module MoreExamples.

(** The greedy segmenter without a dictionary. *)
Lemma greedy_without_entries_gives_syllables_witness :
  segmentVietnamese asciiLower ∅ (js "xin chao, ban") = [js "xin"; js "chao"; js "ban"].
Proof.
  rewrite (GreedyReading.greedy_without_entries_gives_syllables asciiLower ∅
             (js "xin chao, ban")).
  - vm_compute. reflexivity.
  - intros key. by rewrite lookup_empty.
Defined.

(** The call of the prompt client for two texts sends one request of two
    texts. *)
Lemma requests_follow_the_plan_witness :
  (exists k, k <= 1 /\ sent shortWorld
                       = sent emptyWorld
                         ++ take k [GeminiRequest (js "vi") (js "en") [js "a"; js "b"]])
  /\ dictionary shortWorld = dictionary emptyWorld.
Proof.
  destruct (ClientProps.requests_follow_the_plan geminiOnly shortReply noGoogle
              [js "a"; js "b"] (js "vi") (js "en") emptyWorld shortWorld (Ok shortResults))
    as ((k & Hk & Hsent & _) & _ & _ & _ & Hdict).
  - vm_compute. reflexivity.
  - split; [| exact Hdict]. exists k. split; [exact Hk | exact Hsent].
Defined.

(** After that call both texts are answered from the cache. *)
Lemma cached_texts_need_no_request_witness :
  geminiTranslate shortReply [js "b"; js "a"] (js "vi") (js "en") shortWorld
  = (Ok [Some (js "b"); Some (js "x")], shortWorld).
Proof.
  refine (proj1 (ClientProps.cached_texts_need_no_request geminiOnly shortReply noGoogle
                   [js "b"; js "a"] (js "vi") (js "en") shortWorld _)).
  repeat constructor; vm_compute; by eexists.
Defined.

(** Without a key, a text that is not blank is answered with the error. *)
Lemma nothing_is_translated_without_a_key_witness :
  handleTranslate asciiLower noKeys noGemini noGoogle (js "xin chao") ViToEn sampleWorld
  = (ServerError NoApiKey, sampleWorld).
Proof.
  refine (proj2 (ClientProps.nothing_is_translated_without_a_key asciiLower noKeys
                   noGemini noGoogle sampleWorld _) (js "xin chao") ViToEn _).
  - vm_compute. reflexivity.
  - vm_compute. discriminate.
Defined.

(** A second call of the prompt client leaves what the first has put in
    the cache. *)
Lemma cached_translations_are_kept_witness :
  cacheHit (translationCache secondCall.2) (js "vi") (js "en") (js "a") = Some (js "x").
Proof.
  refine (proj1 (proj2 (ClientProps.cached_translations_are_kept geminiOnly fullReply
                          noGoogle [js "c"] (js "vi") (js "en") shortWorld
                          secondCall.2 secondCall.1 _ _))
            (js "vi") (js "en") (js "a") (js "x") _).
  - vm_compute. reflexivity.
  - intros Huse. vm_compute in Huse. discriminate Huse.
  - vm_compute. reflexivity.
Defined.

(** A call for twenty-one texts whose second request fails: the first
    text is in the cache all the same. *)
Lemma failed_call_keeps_answered_batches_witness :
  is_Some (cacheHit (translationCache failedCall.2) (js "vi") (js "en") (js "a")).
Proof.
  destruct (ClientProps.failed_call_keeps_answered_batches failSecond manyTexts
              (js "vi") (js "en") emptyWorld failedCall.2 ApiError)
    as (k0 & batch & Hbatch & Hnone & _ & Hdone & _).
  - vm_compute. reflexivity.
  - destruct k0 as [|k0]; [vm_compute in Hnone; discriminate Hnone |].
    refine (proj2 (Hdone 0 (take 20 manyTexts) (js "a") _ _ _) _).
    + lia.
    + vm_compute. reflexivity.
    + vm_compute. by left.
    + discriminate.
Defined.

(** The call of the prompt client for two texts answers both, the second
    with the text itself. *)
Lemma prompt_client_answers_every_text_witness :
  length shortResults = 2
  /\ exists v, shortResults !! 1 = Some (Some v) /\ (js "b" ≠ [] -> v ≠ []).
Proof.
  destruct (ClientProps.prompt_client_answers_every_text shortReply [js "a"; js "b"]
              (js "vi") (js "en") emptyWorld shortWorld shortResults)
    as (Hlen & Hall).
  - vm_compute. reflexivity.
  - split; [exact Hlen |]. exact (proj1 (Hall 1 (js "b") eq_refl)).
Defined.

(** The example of the specification without a key: no cut of the five
    syllables totals more than the segmentation returned. *)
Lemma segmentation_is_optimal_witness :
  exists segments,
    segmentsOf sampleScored 5 4 = Ok segments
    /\ (totalScore sampleScored [(0, 1); (1, 1); (2, 1); (3, 1); (4, 1)]%nat
        <= totalScore sampleScored segments)%Z.
Proof.
  destruct (Optimal.segmentation_is_optimal asciiLower noKeys noGemini noGoogle
              sampleInput sampleWorld sampleScoredWorld sampleScored)
    as (segments & Hseg & _ & _ & Hbest).
  - vm_compute. lia.
  - vm_compute. reflexivity.
  - exists segments. split; [exact Hseg |].
    apply Hbest.
    + vm_compute. repeat split; lia.
    + repeat constructor; simpl; lia.
Defined.


(** The same call sends one request, for the three spans. *)
Lemma segmenter_asks_for_unknown_spans_only_witness :
  exists new,
    sent shortSegmented.2 = sent emptyWorld ++ new
    /\ Forall (fun rq => rq = requestOf geminiOnly (js "vi") (js "en") (requestBatch rq)) new.
Proof.
  destruct (Segmenter.segmenter_asks_for_unknown_spans_only asciiLower geminiOnly
              shortReply noGoogle (js "a b") emptyWorld shortSegmented.2 shortSegmented.1)
    as (new & Hsent & Hall).
  - vm_compute. reflexivity.
  - exists new. split; [exact Hsent |].
    eapply Forall_impl; [exact Hall |]. intros rq Hrq. exact (proj1 Hrq).
Defined.

(** The example of the specification without a key: the entry of the
    Lexicon is there after the call. *)
Lemma learned_compounds_overwrite_no_entry_witness :
  dictionary sampleScoredWorld !! js "cai nay" = dictionary sampleWorld !! js "cai nay".
Proof.
  destruct (smartSegmentAndTranslate asciiLower noKeys noGemini noGoogle
              sampleInput sampleWorld) as [r w'] eqn:Hrun.
  assert (w' = sampleScoredWorld) as Hw.
  { vm_compute in Hrun. by injection Hrun as _ <-. }
  destruct r as [words|e]; [| vm_compute in Hrun; discriminate Hrun].
  rewrite <- Hw.
  exact (proj1 (Segmenter.learned_compounds_overwrite_no_entry asciiLower noKeys
                  noGemini noGoogle sampleInput sampleWorld w' words Hrun)
           (js "cai nay") (js "this") eq_refl).
Defined.





(** A run that has seen [a b] once adds 1 to its count. *)
Lemma run_adds_its_words_to_the_table_witness :
  mapGet (mergeWordFrequency (Some (asNumbers [(js "a b", 5%Z)]))
            (extractVocabulary asciiLower nestedLexicon sampleUtterances)) (js "a b")
  = Some (numOfZ 6).
Proof.
  rewrite (Vocabulary.run_adds_its_words_to_the_table asciiLower nestedLexicon
             sampleUtterances [(js "a b", 5%Z)] (js "a b")).
  - vm_compute. reflexivity.
  - apply NoDup_singleton.
  - unfold safeMerge, safeCount.
    set (vocab := extractVocabulary asciiLower nestedLexicon sampleUtterances).
    vm_compute in vocab. subst vocab.
    split; repeat constructor; vm_compute; done.
Defined.


(** The name of a second clip of 18.56. *)
Lemma timed_name_is_labelled_with_its_time_witness :
  fileTimeLabel (js "02-18-2026 18.56(2).m4a") = js "18:56".
Proof.
  apply (ClipLabel.timed_name_is_labelled_with_its_time (js "02-18-2026 18.56(2).m4a")
           49%N 56%N 53%N 54%N).
  exists (js "02-18-2026 "), (js "(2)").
  split_and!; try reflexivity.
  right. exists (js "2"). split_and!; [discriminate | by repeat constructor | reflexivity].
Defined.

(** A table of two words and a run of two. *)
Lemma merge_conserves_the_total_witness :
  exists written,
    mergeWordFrequency (Some (asNumbers [(js "la", 431%Z); (js "ai", 7%Z)]))
      [(js "la", (5%Z, js "is")); (js "em", (2%Z, []))]
    = asNumbers written
    /\ tableTotal written = 445%Z.
Proof.
  destruct (proj1 (FrequencyTable.merge_conserves_the_total
                     [(js "la", 431%Z); (js "ai", 7%Z)]
                     [(js "la", (5%Z, js "is")); (js "em", (2%Z, []))]
                     ltac:(apply (bool_decide_unpack _); vm_compute; exact I)
                     ltac:(apply (bool_decide_unpack _); vm_compute; exact I)
                     ltac:(unfold safeMerge, safeCount;
                           split; repeat constructor; vm_compute; done)))
    as (written & Hwritten & _ & Htotal).
  exists written. split; [exact Hwritten | exact Htotal].
Defined.

(** A file that has the word [la] twice. *)
Lemma merge_reads_the_last_entry_of_a_word_witness :
  mapGet (mergeWordFrequency
            (Some (asNumbers [(js "la", 1%Z); (js "ai", 7%Z)] ++ (js "la", numOfZ 9) :: []))
            [(js "la", (5%Z, js "is"))]) (js "la")
  = Some (numOfZ (9 + 5)).
Proof.
  refine (proj2 (proj2 (proj2 (FrequencyTable.merge_reads_the_last_entry_of_a_word
                                 (asNumbers [(js "la", 1%Z); (js "ai", 7%Z)]) []
                                 (js "la") (numOfZ 9)
                                 [(js "la", (5%Z, js "is"))] _))
                   5%Z (js "is") _ _) 9%Z _ _ _ _).
  - intros H. by apply elem_of_nil in H.
  - apply NoDup_singleton.
  - by left.
  - reflexivity.
  - unfold safeCount. lia.
  - lia.
  - unfold safeCount. lia.
Defined.

End MoreExamples.
